(** * Binary trees, binary search trees and AVL trees of [trees.hh]

    A shallow embedding of the three class templates of [src/trees.hh]
    ([BinaryTree], [BinarySearchTree], [AVLTree]) and the proofs of the
    properties stated about them.

    The C++ code works on a graph of heap nodes linked by [shared_ptr]
    child pointers and [weak_ptr] parent back-references.  The embedding
    keeps that graph: a store maps addresses to node records, a pointer is
    an optional address, and every member function is a computation in a
    state-and-failure monad over the tree object.  Loops and recursions
    that follow pointers take a fuel argument; the theorems show that fuel
    proportional to the number of nodes is always enough on a well-formed
    tree. *)

From stdpp Require Import gmap list sorting strings.
From Stdlib Require Import ZArith Lia.

Local Open Scope Z_scope.

(** ** Store, node records and the tree object *)

(** The key type [T] of the templates is instantiated at [int]; keys are
    only compared ([<], [==]), never computed with. *)
Definition key := Z.

(** An address of a heap node. *)
Definition addr := positive.

(** [shared_ptr<Node>] and a locked [weak_ptr<Node>]: [None] is [nullptr]. *)
Definition ptr := option addr.

(** [struct Node]: [m_key], [m_left], [m_right], [m_parent]. *)
Record Node := mkNode {
  m_key : key;
  m_left : ptr;
  m_right : ptr;
  m_parent : ptr
}.

(** The tree object: the store of its nodes, [m_root], and the three
    scratch members [find_target_key], [find_count], [is_found] that
    [BinarySearchTree::find] writes. *)
Record Tree := mkTree {
  nodes : gmap addr Node;
  m_root : ptr;
  find_target_key : key;
  find_count : Z;
  is_found : bool
}.

Definition with_nodes (h : gmap addr Node) (st : Tree) : Tree :=
  mkTree h (m_root st) (find_target_key st) (find_count st) (is_found st).

Definition with_root (p : ptr) (st : Tree) : Tree :=
  mkTree (nodes st) p (find_target_key st) (find_count st) (is_found st).

(** [BinaryTree()]: the empty tree. *)
Definition empty_tree : Tree := mkTree ∅ None 0 0 false.

(** ** Outcomes *)

(** The two exception classes of [trees.hh], with their messages. *)
Inductive exn :=
| EmptyTreeError (msg : string)
| ValueError (msg : string).

(** Undefined behaviour the code can reach. *)
Inductive fault :=
| NullDeref          (* [p -> field] with [p == nullptr] *)
| Dangling           (* an address that is not in the store *)
| EmptyContainer     (* [top]/[front] of an empty stack or queue *)
| IntOverflow.       (* signed [int] overflow *)

(** A computation ends normally with a value and the new object state,
    throws an exception (the object state at the throw is kept), runs into
    undefined behaviour, or exhausts the fuel of the model. *)
Inductive outcome (A : Type) :=
| Ok (a : A) (st : Tree)
| Throw (e : exn) (st : Tree)
| Fault (f : fault)
| OutOfFuel.
Arguments Ok {A} a st.
Arguments Throw {A} e st.
Arguments Fault {A} f.
Arguments OutOfFuel {A}.

Definition M (A : Type) : Type := Tree -> outcome A.

Definition ret {A} (a : A) : M A := fun st => Ok a st.

Definition bind {A B} (m : M A) (f : A -> M B) : M B :=
  fun st =>
    match m st with
    | Ok a st' => f a st'
    | Throw e st' => Throw e st'
    | Fault f => Fault f
    | OutOfFuel => OutOfFuel
    end.

Definition throw {A} (e : exn) : M A := fun st => Throw e st.
Definition fault_with {A} (f : fault) : M A := fun _ => Fault f.
Definition out_of_fuel {A} : M A := fun _ => OutOfFuel.

Notation "x <- m ;; k" := (bind m (fun x => k))
  (at level 100, m at next level, right associativity).
Notation "m ;;; k" := (bind m (fun _ => k))
  (at level 100, right associativity).

(** *** Primitive accesses *)

(** [*p]: the node record a pointer designates. *)
Definition load (p : ptr) : M Node :=
  fun st =>
    match p with
    | None => Fault NullDeref
    | Some a =>
        match nodes st !! a with
        | Some n => Ok n st
        | None => Fault Dangling
        end
    end.

(** [*p = n]. *)
Definition store (p : ptr) (f : Node -> Node) : M unit :=
  fun st =>
    match p with
    | None => Fault NullDeref
    | Some a =>
        match nodes st !! a with
        | Some n => Ok tt (with_nodes (<[a := f n]> (nodes st)) st)
        | None => Fault Dangling
        end
    end.

Definition get_key (p : ptr) : M key := n <- load p ;; ret (m_key n).
Definition get_left (p : ptr) : M ptr := n <- load p ;; ret (m_left n).
Definition get_right (p : ptr) : M ptr := n <- load p ;; ret (m_right n).
Definition get_parent (p : ptr) : M ptr := n <- load p ;; ret (m_parent n).

Definition set_left (p v : ptr) : M unit :=
  store p (fun n => mkNode (m_key n) v (m_right n) (m_parent n)).
Definition set_right (p v : ptr) : M unit :=
  store p (fun n => mkNode (m_key n) (m_left n) v (m_parent n)).
Definition set_parent (p v : ptr) : M unit :=
  store p (fun n => mkNode (m_key n) (m_left n) (m_right n) v).

Definition get_root : M ptr := fun st => Ok (m_root st) st.
Definition set_root (p : ptr) : M unit := fun st => Ok tt (with_root p st).

(** [make_shared<Node>(x)]: a node at an address not yet in the store, with
    the in-class initialisers of [Node] (all three links null). *)
Definition make_shared (x : key) : M ptr :=
  fun st =>
    let a := fresh (dom (nodes st)) in
    Ok (Some a) (with_nodes (<[a := mkNode x None None None]> (nodes st)) st).

(** Pointer comparison [p == q]. *)
Definition ptr_eqb (p q : ptr) : bool := bool_decide (p = q).

(** [int] arithmetic: [a + 1] on a 32-bit signed [int]. *)
Definition INT_MAX : Z := 2147483647.
Definition int_succ (a : Z) : M Z :=
  if Z.ltb a INT_MAX then ret (a + 1) else fault_with IntOverflow.

(** ** [BinaryTree] *)

(** *** Construction from a breadth-first layout

    [BinaryTree(const vector<optional<T>>&)].  The loop runs over the
    indices [1 .. size-1]; [rest] is the part of the vector still to read
    and [i] its index.  [child_queue] has its front at the head of the
    list, and [node] is the loop-carried variable of the same name. *)
Fixpoint bfs_loop (i : nat) (rest : list (option key))
    (child_queue : list ptr) (node : ptr) : M unit :=
  match rest with
  | [] => ret tt
  | e :: rest' =>
      if Nat.odd i then
        match child_queue with
        | [] => fault_with EmptyContainer
        | front :: child_queue' =>
            let node := front in
            (match node with
             | Some _ =>
                 match e with
                 | None => set_left node None
                 | Some k =>
                     c <- make_shared k ;;
                     set_left node c ;;;
                     l <- get_left node ;;
                     set_parent l node
                 end
             | None => ret tt
             end) ;;;
            l <- get_left node ;;
            bfs_loop (S i) rest' (child_queue' ++ [l]) node
        end
      else
        (match node with
         | Some _ =>
             match e with
             | None => set_right node None
             | Some k =>
                 c <- make_shared k ;;
                 set_right node c ;;;
                 r <- get_right node ;;
                 set_parent r node
             end
         | None => ret tt
         end) ;;;
        r <- get_right node ;;
        bfs_loop (S i) rest' (child_queue ++ [r]) node
  end.

Definition BinaryTree_from_bfs (tree_vec : list (option key)) : M unit :=
  match tree_vec with
  | [] | None :: _ => set_root None
  | Some k :: rest =>
      r <- make_shared k ;;
      set_root r ;;;
      root <- get_root ;;
      bfs_loop 1 rest [root] None
  end.

(** *** Height *)

(** [height(node)]: [-1] for a NIL node. *)
Fixpoint height (fuel : nat) (node : ptr) : M Z :=
  match node with
  | None => ret (-1)
  | Some _ =>
      match fuel with
      | O => out_of_fuel
      | S fuel =>
          l <- get_left node ;;
          hl <- height fuel l ;;
          r <- get_right node ;;
          hr <- height fuel r ;;
          int_succ (Z.max hl hr)
      end
  end.

(** *** Traversals

    A [Callback] is a closure called on each key.  Its captured state is
    threaded explicitly as a value of type [V]; the call may also act on
    the tree object, as the callback of [find] does through its [this]
    pointer. *)
Definition Callback (V : Type) : Type := key -> V -> M V.

Section Traversals.
Context {V : Type}.

Fixpoint pre_order (fuel : nat) (node : ptr) (cb : Callback V) (v : V) : M V :=
  match node with
  | None => ret v
  | Some _ =>
      match fuel with
      | O => out_of_fuel
      | S fuel =>
          k <- get_key node ;;
          v <- cb k v ;;
          l <- get_left node ;;
          v <- pre_order fuel l cb v ;;
          r <- get_right node ;;
          pre_order fuel r cb v
      end
  end.

Fixpoint in_order (fuel : nat) (node : ptr) (cb : Callback V) (v : V) : M V :=
  match node with
  | None => ret v
  | Some _ =>
      match fuel with
      | O => out_of_fuel
      | S fuel =>
          l <- get_left node ;;
          v <- in_order fuel l cb v ;;
          k <- get_key node ;;
          v <- cb k v ;;
          r <- get_right node ;;
          in_order fuel r cb v
      end
  end.

Fixpoint post_order (fuel : nat) (node : ptr) (cb : Callback V) (v : V) : M V :=
  match node with
  | None => ret v
  | Some _ =>
      match fuel with
      | O => out_of_fuel
      | S fuel =>
          l <- get_left node ;;
          v <- post_order fuel l cb v ;;
          r <- get_right node ;;
          v <- post_order fuel r cb v ;;
          k <- get_key node ;;
          cb k v
      end
  end.

(** [stk.push(p)] guarded by [if (p)]. *)
Definition push_if (p : ptr) (stk : list ptr) : list ptr :=
  match p with Some _ => p :: stk | None => stk end.

(** The [while (!stk.empty())] loop of [pre_order_iter]; the top of the
    stack is the head of the list. *)
Fixpoint pre_order_iter_loop (fuel : nat) (stk : list ptr) (cb : Callback V)
    (v : V) : M V :=
  match stk with
  | [] => ret v
  | nd :: stk =>
      match fuel with
      | O => out_of_fuel
      | S fuel =>
          k <- get_key nd ;;
          v <- cb k v ;;
          r <- get_right nd ;;
          let stk := push_if r stk in
          l <- get_left nd ;;
          let stk := push_if l stk in
          pre_order_iter_loop fuel stk cb v
      end
  end.

Definition pre_order_iter (fuel : nat) (node : ptr) (cb : Callback V) (v : V)
    : M V :=
  match node with
  | None => ret v
  | Some _ => pre_order_iter_loop fuel [node] cb v
  end.

(** The [while (!stk.empty() || nd)] loop of [in_order_iter]. *)
Fixpoint in_order_iter_loop (fuel : nat) (stk : list ptr) (nd : ptr)
    (cb : Callback V) (v : V) : M V :=
  match stk, nd with
  | [], None => ret v
  | _, _ =>
      match fuel with
      | O => out_of_fuel
      | S fuel =>
          match nd with
          | Some _ =>
              l <- get_left nd ;;
              in_order_iter_loop fuel (nd :: stk) l cb v
          | None =>
              match stk with
              | [] => fault_with EmptyContainer
              | top :: stk' =>
                  k <- get_key top ;;
                  v <- cb k v ;;
                  r <- get_right top ;;
                  in_order_iter_loop fuel stk' r cb v
              end
          end
      end
  end.

Definition in_order_iter (fuel : nat) (node : ptr) (cb : Callback V) (v : V)
    : M V :=
  match node with
  | None => ret v
  | Some _ => in_order_iter_loop fuel [] node cb v
  end.

(** First loop of [post_order_iter_twostacks]: fills [stk2]. *)
Fixpoint twostacks_fill (fuel : nat) (stk1 stk2 : list ptr) : M (list ptr) :=
  match stk1 with
  | [] => ret stk2
  | nd :: stk1 =>
      match fuel with
      | O => out_of_fuel
      | S fuel =>
          let stk2 := nd :: stk2 in
          l <- get_left nd ;;
          let stk1 := push_if l stk1 in
          r <- get_right nd ;;
          let stk1 := push_if r stk1 in
          twostacks_fill fuel stk1 stk2
      end
  end.

(** Second loop of [post_order_iter_twostacks]: drains [stk2]. *)
Fixpoint twostacks_drain (stk2 : list ptr) (cb : Callback V) (v : V) : M V :=
  match stk2 with
  | [] => ret v
  | top :: stk2 =>
      k <- get_key top ;;
      v <- cb k v ;;
      twostacks_drain stk2 cb v
  end.

Definition post_order_iter_twostacks (fuel : nat) (node : ptr)
    (cb : Callback V) (v : V) : M V :=
  match node with
  | None => ret v
  | Some _ =>
      stk2 <- twostacks_fill fuel [node] [] ;;
      twostacks_drain stk2 cb v
  end.

(** The loop of [post_order_iter_onestack]; [last] is the node visited
    last. *)
Fixpoint onestack_loop (fuel : nat) (stk : list ptr) (nd last : ptr)
    (cb : Callback V) (v : V) : M V :=
  match stk, nd with
  | [], None => ret v
  | _, _ =>
      match fuel with
      | O => out_of_fuel
      | S fuel =>
          match nd with
          | Some _ =>
              l <- get_left nd ;;
              onestack_loop fuel (nd :: stk) l last cb v
          | None =>
              match stk with
              | [] => fault_with EmptyContainer
              | top :: stk' =>
                  let nd := top in
                  r <- get_right nd ;;
                  if negb (bool_decide (is_Some r)) || ptr_eqb last r then
                    k <- get_key nd ;;
                    v <- cb k v ;;
                    onestack_loop fuel stk' None nd cb v
                  else
                    onestack_loop fuel stk r last cb v
              end
          end
      end
  end.

Definition post_order_iter_onestack (fuel : nat) (node : ptr)
    (cb : Callback V) (v : V) : M V :=
  match node with
  | None => ret v
  | Some _ => onestack_loop fuel [] node None cb v
  end.

(** The public entry points start at [m_root]. *)
Definition pre_order_traversal (fuel : nat) (cb : Callback V) (v : V) : M V :=
  root <- get_root ;; pre_order fuel root cb v.
Definition in_order_traversal (fuel : nat) (cb : Callback V) (v : V) : M V :=
  root <- get_root ;; in_order fuel root cb v.
Definition post_order_traversal (fuel : nat) (cb : Callback V) (v : V) : M V :=
  root <- get_root ;; post_order fuel root cb v.
Definition pre_order_iter_traversal (fuel : nat) (cb : Callback V) (v : V)
    : M V :=
  root <- get_root ;; pre_order_iter fuel root cb v.
Definition in_order_iter_traversal (fuel : nat) (cb : Callback V) (v : V)
    : M V :=
  root <- get_root ;; in_order_iter fuel root cb v.
Definition post_order_iter_traversal_twostacks (fuel : nat) (cb : Callback V)
    (v : V) : M V :=
  root <- get_root ;; post_order_iter_twostacks fuel root cb v.
Definition post_order_iter_traversal_onestack (fuel : nat) (cb : Callback V)
    (v : V) : M V :=
  root <- get_root ;; post_order_iter_onestack fuel root cb v.

End Traversals.

(** The callback that records the keys it is given, in call order. *)
Definition record_key : Callback (list key) :=
  fun k acc => ret (acc ++ [k]).

(** ** [BinarySearchTree] *)

Definition set_find_state (target : key) (count : Z) (found : bool) : M unit :=
  fun st => Ok tt (mkTree (nodes st) (m_root st) target count found).

(** [in_order_find(e, this)]: the callback of [find]. *)
Definition in_order_find (e : key) : M unit :=
  fun st =>
    if is_found st then Ok tt st
    else
      (c <- int_succ (find_count st) ;;
       set_find_state (find_target_key st) c
         (if Z.eqb e (find_target_key st) then true else is_found st)) st.

(** [bind(in_order_find, placeholders::_1, this)]: the closure [find] hands
    to the traversal; it captures nothing but [this]. *)
Definition find_cb : Callback unit := fun e _ => in_order_find e.

(** [find(x)]: index of [x] in the in-order sequence, or [-1]. *)
Definition find (fuel : nat) (x : key) : M Z :=
  set_find_state x (-1) false ;;;
  in_order_traversal fuel find_cb tt ;;;
  (fun st =>
     if is_found st then Ok (find_count st) st
     else (set_find_state (find_target_key st) (-1) (is_found st) ;;;
           ret (-1)) st).

(** [search(node, x)], recursive. *)
Fixpoint search (fuel : nat) (node : ptr) (x : key) : M ptr :=
  match node with
  | None => ret node
  | Some _ =>
      match fuel with
      | O => out_of_fuel
      | S fuel =>
          k <- get_key node ;;
          if Z.eqb x k then ret node
          else if Z.ltb x k then l <- get_left node ;; search fuel l x
          else r <- get_right node ;; search fuel r x
      end
  end.

(** [minimum(node)]: [while (nd && nd -> m_left) nd = nd -> m_left]. *)
Fixpoint minimum_node (fuel : nat) (nd : ptr) : M ptr :=
  match nd with
  | None => ret nd
  | Some _ =>
      l <- get_left nd ;;
      match l with
      | None => ret nd
      | Some _ =>
          match fuel with
          | O => out_of_fuel
          | S fuel => minimum_node fuel l
          end
      end
  end.

(** [maximum(node)]. *)
Fixpoint maximum_node (fuel : nat) (nd : ptr) : M ptr :=
  match nd with
  | None => ret nd
  | Some _ =>
      r <- get_right nd ;;
      match r with
      | None => ret nd
      | Some _ =>
          match fuel with
          | O => out_of_fuel
          | S fuel => maximum_node fuel r
          end
      end
  end.

(** The upward loop of [successor(node)]:
    [while (par && nd == par -> m_right)]. *)
Fixpoint successor_climb (fuel : nat) (nd par : ptr) : M ptr :=
  match par with
  | None => ret par
  | Some _ =>
      r <- get_right par ;;
      if ptr_eqb nd r then
        match fuel with
        | O => out_of_fuel
        | S fuel =>
            pp <- get_parent par ;;
            successor_climb fuel par pp
        end
      else ret par
  end.

Definition successor_node (fuel : nat) (node : ptr) : M ptr :=
  match node with
  | None => ret None
  | Some _ =>
      r <- get_right node ;;
      match r with
      | Some _ => minimum_node fuel r
      | None =>
          par <- get_parent node ;;
          successor_climb fuel node par
      end
  end.

(** The upward loop of [predecessor(node)]. *)
Fixpoint predecessor_climb (fuel : nat) (nd par : ptr) : M ptr :=
  match par with
  | None => ret par
  | Some _ =>
      l <- get_left par ;;
      if ptr_eqb nd l then
        match fuel with
        | O => out_of_fuel
        | S fuel =>
            pp <- get_parent par ;;
            predecessor_climb fuel par pp
        end
      else ret par
  end.

Definition predecessor_node (fuel : nat) (node : ptr) : M ptr :=
  match node with
  | None => ret None
  | Some _ =>
      l <- get_left node ;;
      match l with
      | Some _ => maximum_node fuel l
      | None =>
          par <- get_parent node ;;
          predecessor_climb fuel node par
      end
  end.

Definition msg_empty : string := "Empty BinarySearchTree.".
Definition msg_not_in : string := "Input value not in BinarySearchTree.".
Definition msg_no_successor : string := "Successor does not exist.".
Definition msg_no_predecessor : string := "predecessor does not exist.".

(** [minimum()], [maximum()], [successor(x)], [predecessor(x)]. *)
Definition minimum (fuel : nat) : M key :=
  root <- get_root ;;
  match root with
  | None => throw (EmptyTreeError msg_empty)
  | Some _ => nd <- minimum_node fuel root ;; get_key nd
  end.

Definition maximum (fuel : nat) : M key :=
  root <- get_root ;;
  match root with
  | None => throw (EmptyTreeError msg_empty)
  | Some _ => nd <- maximum_node fuel root ;; get_key nd
  end.

Definition successor (fuel : nat) (x : key) : M key :=
  root <- get_root ;;
  match root with
  | None => throw (EmptyTreeError msg_empty)
  | Some _ =>
      x_node <- search fuel root x ;;
      match x_node with
      | None => throw (ValueError msg_not_in)
      | Some _ =>
          node <- successor_node fuel x_node ;;
          match node with
          | None => throw (ValueError msg_no_successor)
          | Some _ => get_key node
          end
      end
  end.

Definition predecessor (fuel : nat) (x : key) : M key :=
  root <- get_root ;;
  match root with
  | None => throw (EmptyTreeError msg_empty)
  | Some _ =>
      x_node <- search fuel root x ;;
      match x_node with
      | None => throw (ValueError msg_not_in)
      | Some _ =>
          node <- predecessor_node fuel x_node ;;
          match node with
          | None => throw (ValueError msg_no_predecessor)
          | Some _ => get_key node
          end
      end
  end.

(** The descent of [_iter_insert]: [while (cur_nd)], returning the last
    value of [par_nd]. *)
Fixpoint insert_descend (fuel : nat) (x : key) (par_nd cur_nd : ptr) : M ptr :=
  match cur_nd with
  | None => ret par_nd
  | Some _ =>
      match fuel with
      | O => out_of_fuel
      | S fuel =>
          let par_nd := cur_nd in
          k <- get_key cur_nd ;;
          if Z.ltb x k then l <- get_left cur_nd ;; insert_descend fuel x par_nd l
          else r <- get_right cur_nd ;; insert_descend fuel x par_nd r
      end
  end.

(** [_iter_insert(x)]: returns the new node. *)
Definition _iter_insert (fuel : nat) (x : key) : M ptr :=
  new_nd <- make_shared x ;;
  cur_nd <- get_root ;;
  par_nd <- insert_descend fuel x None cur_nd ;;
  set_parent new_nd par_nd ;;;
  (match par_nd with
   | None => set_root new_nd
   | Some _ =>
       k <- get_key par_nd ;;
       if Z.ltb x k then set_left par_nd new_nd
       else set_right par_nd new_nd
   end) ;;;
  ret new_nd.

Definition iter_insert (fuel : nat) (x : key) : M unit :=
  _iter_insert fuel x ;;; ret tt.

(** [_rec_insert(node, x)]. *)
Fixpoint _rec_insert (fuel : nat) (node : ptr) (x : key) : M ptr :=
  match node with
  | None => make_shared x
  | Some _ =>
      match fuel with
      | O => out_of_fuel
      | S fuel =>
          k <- get_key node ;;
          (if Z.ltb x k then
             l <- get_left node ;;
             l' <- _rec_insert fuel l x ;;
             set_left node l' ;;;
             l'' <- get_left node ;;
             set_parent l'' node
           else
             r <- get_right node ;;
             r' <- _rec_insert fuel r x ;;
             set_right node r' ;;;
             r'' <- get_right node ;;
             set_parent r'' node) ;;;
          ret node
      end
  end.

(** [insert(x)], the recursive insert. *)
Definition insert (fuel : nat) (x : key) : M unit :=
  root <- get_root ;;
  root' <- _rec_insert fuel root x ;;
  set_root root'.

(** [transplant(u, v)]. *)
Definition transplant (u v : ptr) : M unit :=
  root <- get_root ;;
  if ptr_eqb root u then
    set_root v ;;;
    up <- get_parent u ;;
    set_parent v up
  else
    par <- get_parent u ;;
    pl <- get_left par ;;
    (if ptr_eqb u pl then set_left par v else set_right par v) ;;;
    match v with
    | Some _ => set_parent v par
    | None => ret tt
    end.

(** [remove(const shared_ptr<Node>)]. *)
Definition remove_node (fuel : nat) (node : ptr) : M unit :=
  l <- get_left node ;;
  match l with
  | None => r <- get_right node ;; transplant node r
  | Some _ =>
      r <- get_right node ;;
      match r with
      | None => l <- get_left node ;; transplant node l
      | Some _ =>
          suc <- successor_node fuel node ;;
          r <- get_right node ;;
          (if negb (ptr_eqb r suc) then
             sr <- get_right suc ;;
             transplant suc sr ;;;
             r <- get_right node ;;
             set_right suc r ;;;
             sr' <- get_right suc ;;
             set_parent sr' suc
           else ret tt) ;;;
          transplant node suc ;;;
          l <- get_left node ;;
          set_left suc l ;;;
          sl <- get_left suc ;;
          set_parent sl suc
      end
  end.

(** [remove(const T&)]. *)
Definition remove (fuel : nat) (x : key) : M unit :=
  root <- get_root ;;
  match root with
  | None => throw (EmptyTreeError msg_empty)
  | Some _ =>
      x_node <- search fuel root x ;;
      match x_node with
      | None => throw (ValueError msg_not_in)
      | Some _ => remove_node fuel x_node
      end
  end.

(** ** [AVLTree] *)

(** [left_rotate(x)]. *)
Definition left_rotate (x : ptr) : M unit :=
  y <- get_right x ;;
  match y with
  | None => ret tt
  | Some _ =>
      yl <- get_left y ;;
      set_right x yl ;;;
      yl <- get_left y ;;
      (match yl with
       | Some _ => set_parent yl x
       | None => ret tt
       end) ;;;
      xp <- get_parent x ;;
      set_parent y xp ;;;
      xp <- get_parent x ;;
      (match xp with
       | None => set_root y
       | Some _ =>
           xpl <- get_left xp ;;
           if ptr_eqb x xpl then set_left xp y else set_right xp y
       end) ;;;
      set_left y x ;;;
      set_parent x y
  end.

(** [right_rotate(x)]. *)
Definition right_rotate (x : ptr) : M unit :=
  y <- get_left x ;;
  match y with
  | None => ret tt
  | Some _ =>
      yr <- get_right y ;;
      set_left x yr ;;;
      yr <- get_right y ;;
      (match yr with
       | Some _ => set_parent yr x
       | None => ret tt
       end) ;;;
      xp <- get_parent x ;;
      set_parent y xp ;;;
      xp <- get_parent x ;;
      (match xp with
       | None => set_root y
       | Some _ =>
           xpl <- get_left xp ;;
           if ptr_eqb x xpl then set_left xp y else set_right xp y
       end) ;;;
      set_right y x ;;;
      set_parent x y
  end.

(** A call of a rotation made by [rebalance], with the node it is applied
    to. *)
Inductive rotation :=
| LeftRotate (x : ptr)
| RightRotate (x : ptr).

(** The corrective step of [rebalance] at one node [x].  The value
    returned is the list of rotation calls made, in call order; it is a
    record for the proofs and has no counterpart in the code. *)
Definition rebalance_at (hfuel : nat) (x : ptr) : M (list rotation) :=
  xl <- get_left x ;;
  hl <- height hfuel xl ;;
  xr <- get_right x ;;
  hr <- height hfuel xr ;;
  hr1 <- int_succ hr ;;
  if Z.gtb hl hr1 then
    xl <- get_left x ;;
    xll <- get_left xl ;;
    hll <- height hfuel xll ;;
    xlr <- get_right xl ;;
    hlr <- height hfuel xlr ;;
    if Z.geb hll hlr then
      right_rotate x ;;; ret [RightRotate x]
    else
      xl <- get_left x ;;
      left_rotate xl ;;;
      right_rotate x ;;;
      ret [LeftRotate xl; RightRotate x]
  else
    xr <- get_right x ;;
    hr <- height hfuel xr ;;
    xl <- get_left x ;;
    hl <- height hfuel xl ;;
    hl1 <- int_succ hl ;;
    if Z.gtb hr hl1 then
      xr <- get_right x ;;
      xrr <- get_right xr ;;
      hrr <- height hfuel xrr ;;
      xrl <- get_left xr ;;
      hrl <- height hfuel xrl ;;
      if Z.geb hrr hrl then
        left_rotate x ;;; ret [LeftRotate x]
      else
        xr <- get_right x ;;
        right_rotate xr ;;;
        left_rotate x ;;;
        ret [RightRotate xr; LeftRotate x]
    else ret [].

(** [rebalance(x)]: the [while (x)] loop.  [hfuel] is the fuel of each
    height computation, [fuel] bounds the iterations of the loop. *)
Fixpoint rebalance (hfuel fuel : nat) (x : ptr) : M (list rotation) :=
  match x with
  | None => ret []
  | Some _ =>
      match fuel with
      | O => out_of_fuel
      | S fuel =>
          rots <- rebalance_at hfuel x ;;
          p <- get_parent x ;;
          rest <- rebalance hfuel fuel p ;;
          ret (rots ++ rest)
      end
  end.

(** [AVLTree::insert(e)]; returns the rotations [rebalance] made. *)
Definition AVL_insert (fuel : nat) (e : key) : M (list rotation) :=
  x <- _iter_insert fuel e ;;
  rebalance fuel fuel x.

(** [BinarySearchTree(const vector<T>&)]: [iter_insert] each element. *)
Fixpoint BinarySearchTree_from_vec (fuel : nat) (tree_vec : list key) : M unit :=
  match tree_vec with
  | [] => ret tt
  | x :: rest => iter_insert fuel x ;;; BinarySearchTree_from_vec fuel rest
  end.

(** [AVLTree(const vector<T>&)]: [insert] each element; the rotations of
    all the inserts are returned in order. *)
Fixpoint AVLTree_from_vec (fuel : nat) (tree_vec : list key)
    : M (list rotation) :=
  match tree_vec with
  | [] => ret []
  | e :: rest =>
      rots <- AVL_insert fuel e ;;
      rots' <- AVLTree_from_vec fuel rest ;;
      ret (rots ++ rots')
  end.

(** A sequence of insertions into a [BinarySearchTree], each made by one
    of its two public insertion members. *)
Inductive bst_insertion :=
| ByIterInsert (x : key)     (* [iter_insert(x)] *)
| ByInsert (x : key).        (* [insert(x)] *)

Definition bst_insertion_key (op : bst_insertion) : key :=
  match op with ByIterInsert x | ByInsert x => x end.

Fixpoint run_insertions (fuel : nat) (ops : list bst_insertion) : M unit :=
  match ops with
  | [] => ret tt
  | ByIterInsert x :: rest => iter_insert fuel x ;;; run_insertions fuel rest
  | ByInsert x :: rest => insert fuel x ;;; run_insertions fuel rest
  end.

(** ** Further members of [trees.hh] *)

(** [size_t] arithmetic, on a 64-bit [size_t]: unsigned, wraps around. *)
Definition SIZE_MOD : Z := 2 ^ 64.

(** [size(node)]: number of nodes of the branch under [node]. *)
Fixpoint size_node (fuel : nat) (node : ptr) : M Z :=
  match node with
  | None => ret 0
  | Some _ =>
      match fuel with
      | O => out_of_fuel
      | S fuel =>
          l <- get_left node ;;
          sl <- size_node fuel l ;;
          r <- get_right node ;;
          sr <- size_node fuel r ;;
          ret ((sl + sr + 1) mod SIZE_MOD)
      end
  end.

(** [size()], [height()], [empty()], [root()]. *)
Definition tree_size (fuel : nat) : M Z :=
  root <- get_root ;; size_node fuel root.

Definition tree_height (fuel : nat) : M Z :=
  root <- get_root ;; height fuel root.

Definition is_empty : M bool :=
  root <- get_root ;; ret (negb (bool_decide (is_Some root))).

Definition root_key : M key :=
  root <- get_root ;; get_key root.

(** The [while (!child_queue.empty())] loop of [bfs]; the front of the
    queue is the head of the list. *)
Fixpoint bfs_traversal_loop {V} (fuel : nat) (child_queue : list ptr)
    (cb : Callback V) (v : V) : M V :=
  match child_queue with
  | [] => ret v
  | nd :: child_queue =>
      match fuel with
      | O => out_of_fuel
      | S fuel =>
          k <- get_key nd ;;
          v <- cb k v ;;
          l <- get_left nd ;;
          let child_queue :=
            match l with Some _ => child_queue ++ [l] | None => child_queue end in
          r <- get_right nd ;;
          let child_queue :=
            match r with Some _ => child_queue ++ [r] | None => child_queue end in
          bfs_traversal_loop fuel child_queue cb v
      end
  end.

(** [bfs(node, cb)] and [breadth_first_traversal(cb)]. *)
Definition bfs {V} (fuel : nat) (node : ptr) (cb : Callback V) (v : V) : M V :=
  match node with
  | None => ret v
  | Some _ => bfs_traversal_loop fuel [node] cb v
  end.

Definition breadth_first_traversal {V} (fuel : nat) (cb : Callback V) (v : V)
    : M V :=
  root <- get_root ;; bfs fuel root cb v.

(** [search(const T&)]: whether the key is found. *)
Definition search_key (fuel : nat) (x : key) : M bool :=
  root <- get_root ;;
  nd <- search fuel root x ;;
  ret (bool_decide (is_Some nd)).

(** [iter_search(node, x)]: [while (nd and x != nd -> m_key)]. *)
Fixpoint iter_search (fuel : nat) (nd : ptr) (x : key) : M ptr :=
  match nd with
  | None => ret nd
  | Some _ =>
      k <- get_key nd ;;
      if negb (Z.eqb x k) then
        match fuel with
        | O => out_of_fuel
        | S fuel =>
            if Z.ltb x k then l <- get_left nd ;; iter_search fuel l x
            else r <- get_right nd ;; iter_search fuel r x
        end
      else ret nd
  end.

(** [Node::is_root()] and [Node::is_leaf()], on the node that [p] points
    to. *)
Definition is_root (p : ptr) : M bool :=
  par <- get_parent p ;; ret (negb (bool_decide (is_Some par))).

Definition is_leaf (p : ptr) : M bool :=
  l <- get_left p ;;
  r <- get_right p ;;
  ret (negb (bool_decide (is_Some l)) && negb (bool_decide (is_Some r))).

(** ** Trees as mathematical objects

    A [tree] is the shape the store holds when all is well: every node
    carries its address and its key.  [repr h par t] reads: in store [h]
    the nodes of [t] are laid out as the code expects them, the root of [t]
    having parent back-reference [par]. *)
Inductive tree :=
| E
| N (a : addr) (l : tree) (k : key) (r : tree).

Definition root_of (t : tree) : ptr :=
  match t with E => None | N a _ _ _ => Some a end.

(** Addresses and keys, in in-order. *)
Fixpoint addrs (t : tree) : list addr :=
  match t with
  | E => []
  | N a l _ r => addrs l ++ a :: addrs r
  end.

Fixpoint inorder (t : tree) : list key :=
  match t with
  | E => []
  | N _ l k r => inorder l ++ k :: inorder r
  end.

Fixpoint preorder (t : tree) : list key :=
  match t with
  | E => []
  | N _ l k r => k :: preorder l ++ preorder r
  end.

Fixpoint postorder (t : tree) : list key :=
  match t with
  | E => []
  | N _ l k r => postorder l ++ postorder r ++ [k]
  end.

(** Number of nodes on the longest branch. *)
Fixpoint depth (t : tree) : nat :=
  match t with
  | E => O
  | N _ l _ r => S (Nat.max (depth l) (depth r))
  end.

(** The height as the code defines it: [-1] for the empty tree. *)
Fixpoint theight (t : tree) : Z :=
  match t with
  | E => -1
  | N _ l _ r => Z.max (theight l) (theight r) + 1
  end.

Fixpoint repr (h : gmap addr Node) (par : ptr) (t : tree) : Prop :=
  match t with
  | E => True
  | N a l k r =>
      h !! a = Some (mkNode k (root_of l) (root_of r) par)
      ∧ repr h (Some a) l ∧ repr h (Some a) r
  end.

(** The object [st] holds the tree [t]. *)
Definition holds_tree (st : Tree) (t : tree) : Prop :=
  NoDup (addrs t) ∧ repr (nodes st) None t ∧ m_root st = root_of t.

(** The object is a well-formed binary tree. *)
Definition well_formed (st : Tree) : Prop := ∃ t, holds_tree st t.

(** The object holds [t] and its store has no other node. *)
Definition holds_exactly (st : Tree) (t : tree) : Prop :=
  holds_tree st t ∧ dom (nodes st) = list_to_set (addrs t).

(** The ordering invariant: keys on the left strictly smaller, keys on the
    right greater or equal. *)
Fixpoint bst (t : tree) : Prop :=
  match t with
  | E => True
  | N _ l k r =>
      Forall (fun x => x < k) (inorder l) ∧ Forall (fun x => k <= x) (inorder r)
      ∧ bst l ∧ bst r
  end.

(** The balance invariant. *)
Fixpoint avl (t : tree) : Prop :=
  match t with
  | E => True
  | N _ l _ r => Z.abs (theight l - theight r) <= 1 ∧ avl l ∧ avl r
  end.

(** *** One-hole contexts

    A position inside a tree is a list of frames, innermost first; each
    frame is a node with one child missing. *)
Inductive frame :=
| InL (a : addr) (k : key) (r : tree)    (* the hole is the left child *)
| InR (a : addr) (l : tree) (k : key).   (* the hole is the right child *)

Definition ctx := list frame.

Definition frame_addr (f : frame) : addr :=
  match f with InL a _ _ | InR a _ _ => a end.

Definition fill (f : frame) (t : tree) : tree :=
  match f with
  | InL a k r => N a t k r
  | InR a l k => N a l k t
  end.

Fixpoint plug (c : ctx) (t : tree) : tree :=
  match c with
  | [] => t
  | f :: c' => plug c' (fill f t)
  end.

Definition frame_sibling (f : frame) : tree :=
  match f with InL _ _ r => r | InR _ l _ => l end.

Fixpoint ctx_addrs (c : ctx) : list addr :=
  match c with
  | [] => []
  | f :: c' => frame_addr f :: addrs (frame_sibling f) ++ ctx_addrs c'
  end.

(** The parent of the hole. *)
Definition ctx_par (c : ctx) : ptr :=
  match c with [] => None | f :: _ => Some (frame_addr f) end.

(** The root of the whole tree when the hole holds a tree rooted at
    [hole]. *)
Fixpoint ctx_root (c : ctx) (hole : ptr) : ptr :=
  match c with
  | [] => hole
  | f :: c' => ctx_root c' (Some (frame_addr f))
  end.

Fixpoint repr_ctx (h : gmap addr Node) (c : ctx) (hole : ptr) : Prop :=
  match c with
  | [] => True
  | InL a k r :: c' =>
      h !! a = Some (mkNode k hole (root_of r) (ctx_par c'))
      ∧ repr h (Some a) r ∧ repr_ctx h c' (Some a)
  | InR a l k :: c' =>
      h !! a = Some (mkNode k (root_of l) hole (ctx_par c'))
      ∧ repr h (Some a) l ∧ repr_ctx h c' (Some a)
  end.

(** The object holds [plug c t], seen from the position of [t]. *)
Definition focus (st : Tree) (c : ctx) (t : tree) : Prop :=
  NoDup (addrs t ++ ctx_addrs c)
  ∧ repr_ctx (nodes st) c (root_of t)
  ∧ repr (nodes st) (ctx_par c) t
  ∧ m_root st = ctx_root c (root_of t).

(** *** Pure counterparts of the mutators *)

(** Insertion of key [x] in a new node at address [a0]. *)
Fixpoint ins (a0 : addr) (x : key) (t : tree) : tree :=
  match t with
  | E => N a0 E x E
  | N a l k r =>
      if Z.ltb x k then N a (ins a0 x l) k r else N a l k (ins a0 x r)
  end.

(** The position at which [x] is inserted; [acc] is the context of [t]. *)
Fixpoint ins_ctx (x : key) (t : tree) (acc : ctx) : ctx :=
  match t with
  | E => acc
  | N a l k r =>
      if Z.ltb x k then ins_ctx x l (InL a k r :: acc)
      else ins_ctx x r (InR a l k :: acc)
  end.

Definition rotL (t : tree) : tree :=
  match t with
  | N x a kx (N y b ky g) => N y (N x a kx b) ky g
  | _ => t
  end.

Definition rotR (t : tree) : tree :=
  match t with
  | N x (N y a ky b) kx g => N y a ky (N x b kx g)
  | _ => t
  end.

Definition left_of (t : tree) : tree :=
  match t with E => E | N _ l _ _ => l end.
Definition right_of (t : tree) : tree :=
  match t with E => E | N _ _ _ r => r end.

(** What [rebalance_at] does to the subtree rooted at the node it is
    applied to. *)
Definition rebal_node (t : tree) : tree :=
  match t with
  | E => E
  | N x l k r =>
      if Z.gtb (theight l) (theight r + 1) then
        if Z.geb (theight (left_of l)) (theight (right_of l)) then rotR t
        else rotR (N x (rotL l) k r)
      else if Z.gtb (theight r) (theight l + 1) then
        if Z.geb (theight (right_of r)) (theight (left_of r)) then rotL t
        else rotL (N x l k (rotR r))
      else t
  end.

(** *** Callbacks *)

(** The calls a traversal makes on the keys [ks], in order. *)
Fixpoint visits {V} (cb : Callback V) (ks : list key) (v : V) : M V :=
  match ks with
  | [] => ret v
  | k :: ks => v' <- cb k v ;; visits cb ks v'
  end.

(** A callback that has no handle on the nodes: whatever it does, the store
    and the root are as before (the traversal interface passes keys by
    const reference only). *)
Definition keeps_nodes {V} (cb : Callback V) : Prop :=
  ∀ k v st,
    match cb k v st with
    | Ok _ st' | Throw _ st' => nodes st' = nodes st ∧ m_root st' = m_root st
    | _ => True
    end.

(** Index of the first occurrence of [x] in [ks], or [-1]. *)
Fixpoint rank_from (i : Z) (x : key) (ks : list key) : Z :=
  match ks with
  | [] => -1
  | k :: ks => if Z.eqb k x then i else rank_from (i + 1) x ks
  end.

Definition rank (x : key) (ks : list key) : Z := rank_from 0 x ks.

(** The addresses whose parent back-reference differs between two
    stores. *)
Definition parent_changes (h h' : gmap addr Node) : list addr :=
  filter (fun a => m_parent <$> h !! a ≠ m_parent <$> h' !! a)
         (elements (dom h ∪ dom h')).

(** *** Bookkeeping for the iterative traversals *)

Definition tsize (t : tree) : nat := length (addrs t).

(** The trees whose roots an explicit stack holds: [push_tree] is the
    counterpart of [push_if]. *)
Definition push_tree (t : tree) (ts : list tree) : list tree :=
  match t with E => ts | N _ _ _ _ => t :: ts end.

Definition stack_ok (h : gmap addr Node) (ts : list tree) : Prop :=
  Forall (fun t => t ≠ E ∧ ∃ par, repr h par t) ts.

Definition total_size (ts : list tree) : nat :=
  foldr (fun t n => (tsize t + n)%nat) O ts.

(** What is still to be visited for a node on the stack of
    [in_order_iter]: its own key, then its right subtree. *)
Definition pending_in (t : tree) : list key :=
  match t with E => [] | N _ _ k r => k :: inorder r end.

Definition pending_cost (ts : list tree) : nat :=
  foldr (fun t n => (1 + 2 * tsize (right_of t) + n)%nat) O ts.

(** Node pointers in post-order. *)
Fixpoint post_ptrs (t : tree) : list ptr :=
  match t with
  | E => []
  | N a l _ r => post_ptrs l ++ post_ptrs r ++ [Some a]
  end.

(** Iterations [post_order_iter_onestack] spends on a subtree. *)
Fixpoint onestack_cost (t : tree) : nat :=
  match t with
  | E => O
  | N _ l _ r =>
      (1 + onestack_cost l
       + match r with E => 1 | N _ _ _ _ => 2 + onestack_cost r end)%nat
  end.

(** The record of the innermost frame of a context, for a given content of
    the hole. *)
Definition head_frame_ok (h : gmap addr Node) (c : ctx) (hole : ptr) : Prop :=
  match c with
  | [] => True
  | InL p k s :: c' => h !! p = Some (mkNode k hole (root_of s) (ctx_par c'))
  | InR p s k :: c' => h !! p = Some (mkNode k (root_of s) hole (ctx_par c'))
  end.

(** *** Invariants of the rebalancing walk *)

(** The children are balanced and the node itself is off by at most two:
    the state of a node whose subtree has just grown by an insertion
    below. *)
Definition almost_avl (t : tree) : Prop :=
  match t with
  | E => True
  | N _ l _ r => avl l ∧ avl r ∧ Z.abs (theight l - theight r) <= 2
  end.

Definition balanced (t : tree) : Prop :=
  match t with
  | E => True
  | N _ l _ r => Z.abs (theight l - theight r) <= 1
  end.

(** The context is balanced provided its hole holds a balanced tree of
    height [h0]. *)
Fixpoint avl_ctx (c : ctx) (h0 : Z) : Prop :=
  match c with
  | [] => True
  | f :: c' =>
      avl (frame_sibling f) ∧ Z.abs (h0 - theight (frame_sibling f)) <= 1
      ∧ avl_ctx c' (1 + Z.max h0 (theight (frame_sibling f)))
  end.

(** [t] took the place of a balanced tree of height [h0] and is at most
    one higher; if it is out of balance it is one higher. *)
Definition grown (h0 : Z) (t : tree) : Prop :=
  almost_avl t ∧ h0 <= theight t <= h0 + 1
  ∧ (¬ balanced t → theight t = h0 + 1).

(** The side of a frame agrees with the comparison the insertion of [x]
    makes at its node. *)
Definition frame_dir (x : key) (f : frame) : Prop :=
  match f with
  | InL _ k _ => Z.ltb x k = true
  | InR _ _ k => Z.ltb x k = false
  end.

(** *** Invariants read off the store

    Both are stated with the code's own [in_order] and [height], run on the
    children of each node of the store. *)

(** At every node the keys of the left subtree are below the key of the
    node (strictly so when [strict] is set) and the keys of the right
    subtree are greater or equal. *)
Definition ordered_at_nodes (strict : bool) (fuel : nat) (st : Tree) : Prop :=
  ∀ a n, nodes st !! a = Some n →
    ∃ lks rks,
      in_order fuel (m_left n) record_key [] st = Ok lks st
      ∧ in_order fuel (m_right n) record_key [] st = Ok rks st
      ∧ Forall (fun y => if strict then y < m_key n else y <= m_key n) lks
      ∧ Forall (fun y => m_key n <= y) rks.

(** At every node the heights of the two subtrees differ by at most one. *)
Definition balanced_at_nodes (fuel : nat) (st : Tree) : Prop :=
  ∀ a n, nodes st !! a = Some n →
    ∃ hl hr,
      height fuel (m_left n) st = Ok hl st
      ∧ height fuel (m_right n) st = Ok hr st
      ∧ Z.abs (hl - hr) <= 1.

(** *** Sample objects for the concrete cases *)

(** The object a computation leaves behind. *)
Definition state_after {A} (m : M A) (st : Tree) : Tree :=
  match m st with
  | Ok _ st' | Throw _ st' => st'
  | Fault _ | OutOfFuel => st
  end.

(** The tree of the breadth-first layout [5, 3, 8, absent, 4, absent, 9]. *)
Definition sample_bfs : Tree :=
  state_after
    (BinaryTree_from_bfs [Some 5; Some 3; Some 8; None; Some 4; None; Some 9])
    empty_tree.

(** The right-leaning chain [10 -> 20 -> 30] that plain insertion builds. *)
Definition sample_chain : Tree :=
  state_after (BinarySearchTree_from_vec 3 [10; 20; 30]) empty_tree.

(** A tree with the single key 5. *)
Definition sample_single : Tree :=
  state_after (iter_insert 1 5) empty_tree.

(** The tree of inserting 10, 30, 20: the right child 30 of the root has a
    left child 20. *)
Definition sample_right_left : Tree :=
  state_after (BinarySearchTree_from_vec 3 [10; 30; 20]) empty_tree.

(** The tree of inserting 30, 10, 20: the left child 10 of the root has a
    right child 20. *)
Definition sample_left_right : Tree :=
  state_after (BinarySearchTree_from_vec 3 [30; 10; 20]) empty_tree.

(** The Fibonacci numbers, for the bound on the height of a balanced
    tree. *)
Fixpoint fib (n : nat) : nat :=
  match n with
  | O => O
  | S m => match m with O => 1%nat | S p => (fib m + fib p)%nat end
  end.

(** *** Level order *)

(** Two lists of levels merged level by level. *)
Fixpoint zip_levels (xs ys : list (list key)) : list (list key) :=
  match xs, ys with
  | [], _ => ys
  | _, [] => xs
  | x :: xs, y :: ys => (x ++ y) :: zip_levels xs ys
  end.

(** The keys of a tree by depth, each level from left to right. *)
Fixpoint levels (t : tree) : list (list key) :=
  match t with
  | E => []
  | N _ l k r => [k] :: zip_levels (levels l) (levels r)
  end.

Definition level_order (t : tree) : list key := concat (levels t).

(** The levels of the trees of a queue, front first. *)
Definition forest_levels (ts : list tree) : list (list key) :=
  foldr (fun t acc => zip_levels (levels t) acc) [] ts.

(** The counterpart of [if (p) child_queue.push(p)]. *)
Definition enqueue_tree (t : tree) (ts : list tree) : list tree :=
  match t with E => ts | N _ _ _ _ => ts ++ [t] end.

(** The keys that the in-order sequence of [plug c t] has before and after
    those of [t]. *)
Fixpoint ctx_before (c : ctx) : list key :=
  match c with
  | [] => []
  | InL _ _ _ :: c' => ctx_before c'
  | InR _ l k :: c' => ctx_before c' ++ inorder l ++ [k]
  end.

Fixpoint ctx_after (c : ctx) : list key :=
  match c with
  | [] => []
  | InL _ k r :: c' => k :: inorder r ++ ctx_after c'
  | InR _ _ _ :: c' => ctx_after c'
  end.

(** What a search for a neighbour returns: no node when there is no such
    key, and otherwise a node of the store that holds the key [k]. *)
Definition node_with_key (st : Tree) (p : ptr) (k : option key) : Prop :=
  match p with
  | None => k = None
  | Some q => ∃ n, nodes st !! q = Some n ∧ k = Some (m_key n)
  end.

(** A frame whose hole is the left child: the frames on the path to the
    minimum of a tree. *)
Definition is_InL (f : frame) : Prop :=
  match f with InL _ _ _ => True | InR _ _ _ => False end.

(** *** Breadth-first layouts

    A layout is the vector the breadth-first constructor reads: entry [j]
    is the key of a node, or absent, and the entries [2 j + 1] and
    [2 j + 2] are its children.  [al] lists the pointers made for the
    entries. *)
Definition entry_at (al : list ptr) (m : nat) : ptr :=
  match al !! m with Some p => p | None => None end.

Definition parent_slot (al : list ptr) (j : nat) : ptr :=
  match j with O => None | S _ => entry_at al ((j - 1) / 2) end.

Definition layout (h : gmap addr Node) (al : list ptr)
    (vec : list (option key)) : Prop :=
  length al = length vec
  ∧ (∀ j, vec !! j = Some None → al !! j = Some None)
  ∧ (∀ j k, vec !! j = Some (Some k) →
       ∃ a, al !! j = Some (Some a)
            ∧ h !! a = Some (mkNode k (entry_at al (2 * j + 1))
                               (entry_at al (2 * j + 2)) (parent_slot al j))).

(** No absent entry other than the first has a place for a child within
    the vector. *)
Definition bfs_layout_ok (vec : list (option key)) : Prop :=
  ∀ j, (1 ≤ j)%nat → vec !! j = Some None → (length vec ≤ 2 * j + 1)%nat.

(** No pointer is made twice. *)
Definition distinct_entries (al : list ptr) : Prop :=
  ∀ j1 j2 a, al !! j1 = Some (Some a) → al !! j2 = Some (Some a) → j1 = j2.

(** The pointers of a list that are not null: what the queue of [bfs]
    holds of a run of entries. *)
Definition nonnull (l : list ptr) : list ptr :=
  filter (fun p : ptr => is_Some p) l.

(** A tree in which no node has a left child. *)
Fixpoint right_chain (t : tree) : Prop :=
  match t with
  | E => True
  | N _ l _ r => l = E ∧ right_chain r
  end.

(** * Proofs *)

(** ** The monad and the primitive accesses *)

Lemma bind_Ok {A B} (m : M A) (f : A -> M B) st a st' :
  m st = Ok a st' → bind m f st = f a st'.
Proof. unfold bind. by intros ->. Qed.

Lemma load_eq st a n :
  nodes st !! a = Some n → load (Some a) st = Ok n st.
Proof. unfold load. by intros ->. Qed.

Lemma get_key_eq st a n :
  nodes st !! a = Some n → get_key (Some a) st = Ok (m_key n) st.
Proof. intros H. unfold get_key. by rewrite (bind_Ok _ _ _ _ _ (load_eq _ _ _ H)). Qed.

Lemma get_left_eq st a n :
  nodes st !! a = Some n → get_left (Some a) st = Ok (m_left n) st.
Proof. intros H. unfold get_left. by rewrite (bind_Ok _ _ _ _ _ (load_eq _ _ _ H)). Qed.

Lemma get_right_eq st a n :
  nodes st !! a = Some n → get_right (Some a) st = Ok (m_right n) st.
Proof. intros H. unfold get_right. by rewrite (bind_Ok _ _ _ _ _ (load_eq _ _ _ H)). Qed.

Lemma get_parent_eq st a n :
  nodes st !! a = Some n → get_parent (Some a) st = Ok (m_parent n) st.
Proof. intros H. unfold get_parent. by rewrite (bind_Ok _ _ _ _ _ (load_eq _ _ _ H)). Qed.

Lemma store_eq st a n f :
  nodes st !! a = Some n →
  store (Some a) f st = Ok tt (with_nodes (<[a := f n]> (nodes st)) st).
Proof. unfold store. by intros ->. Qed.

(** ** Callbacks *)

Lemma visits_app {V} (cb : Callback V) ks1 ks2 v st :
  visits cb (ks1 ++ ks2) v st = (v' <- visits cb ks1 v ;; visits cb ks2 v') st.
Proof.
  revert v st. induction ks1 as [|k ks1 IH]; intros v st; simpl; [done|].
  unfold bind. destruct (cb k v st); try done; by rewrite IH.
Qed.

Lemma visits_keeps_nodes {V} (cb : Callback V) ks :
  keeps_nodes cb →
  ∀ v st,
    match visits cb ks v st with
    | Ok _ st' | Throw _ st' => nodes st' = nodes st ∧ m_root st' = m_root st
    | _ => True
    end.
Proof.
  intros Hcb. induction ks as [|k ks IH]; intros v st; simpl; [done|].
  unfold bind. specialize (Hcb k v st).
  destruct (cb k v st) as [v' st'| | |]; try done.
  destruct Hcb as [Hn Hr]. specialize (IH v' st').
  destruct (visits cb ks v' st'); try done; destruct IH; split; congruence.
Qed.

Lemma record_key_keeps_nodes : keeps_nodes record_key.
Proof. intros k v st. by simpl. Qed.

Lemma visits_record_key ks acc st :
  visits record_key ks acc st = Ok (acc ++ ks) st.
Proof.
  revert acc. induction ks as [|k ks IH]; intros acc; simpl.
  - by rewrite app_nil_r.
  - unfold bind, record_key at 1, ret. rewrite IH. by rewrite <- app_assoc.
Qed.

(** ** Recursive traversals *)

Section RecursiveTraversals.
Context {V : Type} (cb : Callback V) (Hcb : keeps_nodes cb).

(** Running a computation that equals a sequence of callback calls, then
    continuing on the same store. *)
Lemma after_visits {B} (m : M V) (k1 k2 : V → M B) ks v st :
  m st = visits cb ks v st →
  (∀ v' st', nodes st' = nodes st → k1 v' st' = k2 v' st') →
  bind m k1 st = bind (visits cb ks v) k2 st.
Proof.
  intros Hm Hk. unfold bind. rewrite Hm.
  pose proof (visits_keeps_nodes cb ks Hcb v st) as Hv.
  destruct (visits cb ks v st); try done. apply Hk. tauto.
Qed.

Lemma after_cb {B} (k1 k2 : V → M B) k v st :
  (∀ v' st', nodes st' = nodes st → k1 v' st' = k2 v' st') →
  bind (cb k v) k1 st = bind (cb k v) k2 st.
Proof.
  intros Hk. unfold bind. pose proof (Hcb k v st) as Hv.
  destruct (cb k v st); try done. apply Hk. tauto.
Qed.

Lemma pre_order_spec t : ∀ par fuel v st,
  repr (nodes st) par t → (depth t ≤ fuel)%nat →
  pre_order fuel (root_of t) cb v st = visits cb (preorder t) v st.
Proof.
  induction t as [|a l IHl k r IHr]; intros par fuel v st Hrep Hfuel;
    [by destruct fuel|].
  destruct fuel as [|fuel]; [simpl in Hfuel; lia|].
  simpl in Hrep, Hfuel. destruct Hrep as (Ha & Hl & Hr).
  cbn [pre_order root_of preorder visits].
  rewrite (bind_Ok _ _ _ _ _ (get_key_eq _ _ _ Ha)). cbn [m_key].
  apply after_cb. intros v1 st1 H1. rewrite <- H1 in Ha, Hl, Hr.
  rewrite (bind_Ok _ _ _ _ _ (get_left_eq _ _ _ Ha)). cbn [m_left].
  rewrite visits_app. apply after_visits.
  { eapply IHl; [done|lia]. }
  intros v2 st2 H2. rewrite <- H2 in Ha, Hr.
  rewrite (bind_Ok _ _ _ _ _ (get_right_eq _ _ _ Ha)). cbn [m_right].
  eapply IHr; [done|lia].
Qed.

Lemma in_order_spec t : ∀ par fuel v st,
  repr (nodes st) par t → (depth t ≤ fuel)%nat →
  in_order fuel (root_of t) cb v st = visits cb (inorder t) v st.
Proof.
  induction t as [|a l IHl k r IHr]; intros par fuel v st Hrep Hfuel;
    [by destruct fuel|].
  destruct fuel as [|fuel]; [simpl in Hfuel; lia|].
  simpl in Hrep, Hfuel. destruct Hrep as (Ha & Hl & Hr).
  cbn [in_order root_of inorder].
  rewrite (bind_Ok _ _ _ _ _ (get_left_eq _ _ _ Ha)). cbn [m_left].
  rewrite visits_app. apply after_visits.
  { eapply IHl; [done|lia]. }
  intros v1 st1 H1. rewrite <- H1 in Ha, Hr.
  rewrite (bind_Ok _ _ _ _ _ (get_key_eq _ _ _ Ha)). cbn [m_key visits].
  apply after_cb. intros v2 st2 H2. rewrite <- H2 in Ha, Hr.
  rewrite (bind_Ok _ _ _ _ _ (get_right_eq _ _ _ Ha)). cbn [m_right].
  eapply IHr; [done|lia].
Qed.

Lemma post_order_spec t : ∀ par fuel v st,
  repr (nodes st) par t → (depth t ≤ fuel)%nat →
  post_order fuel (root_of t) cb v st = visits cb (postorder t) v st.
Proof.
  induction t as [|a l IHl k r IHr]; intros par fuel v st Hrep Hfuel;
    [by destruct fuel|].
  destruct fuel as [|fuel]; [simpl in Hfuel; lia|].
  simpl in Hrep, Hfuel. destruct Hrep as (Ha & Hl & Hr).
  cbn [post_order root_of postorder].
  rewrite (bind_Ok _ _ _ _ _ (get_left_eq _ _ _ Ha)). cbn [m_left].
  rewrite visits_app. apply after_visits.
  { eapply IHl; [done|lia]. }
  intros v1 st1 H1. rewrite <- H1 in Ha, Hr.
  rewrite (bind_Ok _ _ _ _ _ (get_right_eq _ _ _ Ha)). cbn [m_right].
  rewrite visits_app. apply after_visits.
  { eapply IHr; [done|lia]. }
  intros v2 st2 H2. rewrite <- H2 in Ha.
  rewrite (bind_Ok _ _ _ _ _ (get_key_eq _ _ _ Ha)). cbn [m_key visits].
  unfold bind. destruct (cb k v2 st2); done.
Qed.

End RecursiveTraversals.

(** ** Iterative traversals *)

Lemma stack_ok_push h t ts par :
  repr h par t → stack_ok h ts → stack_ok h (push_tree t ts).
Proof.
  intros Ht Hts. destruct t; [done|]. constructor; [|done].
  split; [done|]. by exists par.
Qed.

Lemma map_root_push t ts :
  map root_of (push_tree t ts) = push_if (root_of t) (map root_of ts).
Proof. by destruct t. Qed.

Lemma total_size_push t ts :
  total_size (push_tree t ts) = (tsize t + total_size ts)%nat.
Proof. by destruct t. Qed.

Lemma concat_preorder_push t ts :
  concat (map preorder (push_tree t ts)) = preorder t ++ concat (map preorder ts).
Proof. by destruct t. Qed.

Lemma tsize_N a l k r : tsize (N a l k r) = S (tsize l + tsize r).
Proof. unfold tsize. simpl. rewrite length_app. simpl. lia. Qed.

Lemma stack_ok_nodes h h' ts : h' = h → stack_ok h ts → stack_ok h' ts.
Proof. by intros ->. Qed.

Section IterativeTraversals.
Context {V : Type} (cb : Callback V) (Hcb : keeps_nodes cb).

Lemma pre_order_iter_loop_spec fuel : ∀ ts v st,
  stack_ok (nodes st) ts → (total_size ts ≤ fuel)%nat →
  pre_order_iter_loop fuel (map root_of ts) cb v st
  = visits cb (concat (map preorder ts)) v st.
Proof.
  induction fuel as [|fuel IH]; intros ts v st Hts Hfuel.
  - destruct ts as [|t ts]; [done|]. apply Forall_cons in Hts as [[Hne _] _].
    destruct t; [done|]. simpl in Hfuel. rewrite tsize_N in Hfuel. lia.
  - destruct ts as [|t ts]; [done|].
    apply Forall_cons in Hts as [[Hne [par Hrep]] Hts].
    destruct t as [|a l k r]; [done|]. destruct Hrep as (Ha & Hl & Hr).
    simpl in Hfuel. rewrite tsize_N in Hfuel.
    cbn [map root_of pre_order_iter_loop concat preorder visits].
    rewrite (bind_Ok _ _ _ _ _ (get_key_eq _ _ _ Ha)). cbn [m_key].
    apply (after_cb cb Hcb). intros v1 st1 H1. rewrite <- H1 in Ha, Hl, Hr, Hts.
    rewrite (bind_Ok _ _ _ _ _ (get_right_eq _ _ _ Ha)). cbn [m_right].
    rewrite (bind_Ok _ _ _ _ _ (get_left_eq _ _ _ Ha)). cbn [m_left].
    rewrite <- !map_root_push. rewrite IH.
    + by rewrite !concat_preorder_push, app_assoc.
    + eauto using stack_ok_push.
    + rewrite !total_size_push. lia.
Qed.

Lemma pre_order_iter_spec t par fuel v st :
  repr (nodes st) par t → (tsize t ≤ fuel)%nat →
  pre_order_iter fuel (root_of t) cb v st = visits cb (preorder t) v st.
Proof.
  intros Hrep Hfuel. destruct t as [|a l k r]; [done|].
  change (pre_order_iter fuel (root_of (N a l k r)) cb v st)
    with (pre_order_iter_loop fuel (map root_of [N a l k r]) cb v st).
  rewrite pre_order_iter_loop_spec.
  - simpl. by rewrite app_nil_r.
  - constructor; [|constructor]. split; [done|]. by exists par.
  - simpl. lia.
Qed.

Lemma in_order_iter_loop_push fuel stk a v :
  in_order_iter_loop (S fuel) stk (Some a) cb v
  = (l <- get_left (Some a) ;; in_order_iter_loop fuel (Some a :: stk) l cb v).
Proof. by destruct stk. Qed.

Lemma in_order_iter_loop_spec fuel : ∀ ts t par v st,
  stack_ok (nodes st) ts → repr (nodes st) par t →
  (2 * tsize t + pending_cost ts ≤ fuel)%nat →
  in_order_iter_loop fuel (map root_of ts) (root_of t) cb v st
  = visits cb (inorder t ++ concat (map pending_in ts)) v st.
Proof.
  induction fuel as [|fuel IH]; intros ts t par v st Hts Hrep Hfuel.
  - destruct t as [|a l k r]; [|rewrite tsize_N in Hfuel; lia].
    destruct ts as [|s ts]; [done|]. simpl in Hfuel. lia.
  - destruct t as [|a l k r].
    + destruct ts as [|s ts]; [done|].
      apply Forall_cons in Hts as [[Hne [pars Hs]] Hts].
      destruct s as [|a l k r]; [done|]. destruct Hs as (Ha & Hl & Hr).
      simpl in Hfuel.
      cbn [map root_of in_order_iter_loop inorder concat pending_in app visits].
      rewrite (bind_Ok _ _ _ _ _ (get_key_eq _ _ _ Ha)). cbn [m_key].
      apply (after_cb cb Hcb). intros v1 st1 H1. rewrite <- H1 in Ha, Hr, Hts.
      rewrite (bind_Ok _ _ _ _ _ (get_right_eq _ _ _ Ha)). cbn [m_right].
      eapply IH; [done|done|]. unfold tsize in *. lia.
    + destruct Hrep as (Ha & Hl & Hr). rewrite tsize_N in Hfuel.
      cbn [root_of]. rewrite in_order_iter_loop_push.
      rewrite (bind_Ok _ _ _ _ _ (get_left_eq _ _ _ Ha)). cbn [m_left].
      change (Some a :: map root_of ts) with (map root_of (N a l k r :: ts)).
      erewrite IH; [| |done|].
      * simpl. by rewrite <- app_assoc.
      * constructor; [|done]. split; [done|]. exists par. by repeat split.
      * simpl. unfold tsize in *. lia.
Qed.

Lemma in_order_iter_spec t par fuel v st :
  repr (nodes st) par t → (2 * tsize t ≤ fuel)%nat →
  in_order_iter fuel (root_of t) cb v st = visits cb (inorder t) v st.
Proof.
  intros Hrep Hfuel. destruct t as [|a l k r]; [done|].
  change (in_order_iter fuel (root_of (N a l k r)) cb v st)
    with (in_order_iter_loop fuel (map root_of []) (root_of (N a l k r)) cb v st).
  erewrite in_order_iter_loop_spec; [|constructor|done|simpl; lia].
  simpl. by rewrite app_nil_r.
Qed.

End IterativeTraversals.

Lemma concat_post_ptrs_push t ts :
  concat (map post_ptrs (rev (push_tree t ts)))
  = concat (map post_ptrs (rev ts)) ++ post_ptrs t.
Proof.
  destruct t as [|a l k r]; [by rewrite app_nil_r|].
  cbn [push_tree rev]. rewrite map_app, concat_app. simpl. by rewrite app_nil_r.
Qed.

Lemma bind_visits_app {V B} (cb : Callback V) (K : V → M B) ks1 ks2 v st :
  (v' <- visits cb (ks1 ++ ks2) v ;; K v') st
  = (v1 <- visits cb ks1 v ;; v2 <- visits cb ks2 v1 ;; K v2) st.
Proof.
  unfold bind at 1. rewrite visits_app. unfold bind.
  by destruct (visits cb ks1 v st).
Qed.

(** Membership in the address lists of trees. *)
Ltac list_mem :=
  cbn [addrs ctx_addrs frame_addr frame_sibling] in *;
  repeat first [rewrite elem_of_app in * | rewrite elem_of_cons in * ];
  solve [intuition (subst; auto)].

Lemma twostacks_fill_spec fuel : ∀ ts stk2 st,
  stack_ok (nodes st) ts → (total_size ts ≤ fuel)%nat →
  twostacks_fill fuel (map root_of ts) stk2 st
  = Ok (concat (map post_ptrs (rev ts)) ++ stk2) st.
Proof.
  induction fuel as [|fuel IH]; intros ts stk2 st Hts Hfuel.
  - destruct ts as [|t ts]; [done|]. apply Forall_cons in Hts as [[Hne _] _].
    destruct t; [done|]. simpl in Hfuel. rewrite tsize_N in Hfuel. lia.
  - destruct ts as [|t ts]; [done|].
    apply Forall_cons in Hts as [[Hne [par Hrep]] Hts].
    destruct t as [|a l k r]; [done|]. destruct Hrep as (Ha & Hl & Hr).
    simpl in Hfuel. rewrite tsize_N in Hfuel.
    cbn [map root_of twostacks_fill].
    rewrite (bind_Ok _ _ _ _ _ (get_left_eq _ _ _ Ha)). cbn [m_left].
    rewrite (bind_Ok _ _ _ _ _ (get_right_eq _ _ _ Ha)). cbn [m_right].
    rewrite <- !map_root_push. rewrite IH.
    + rewrite !concat_post_ptrs_push. cbn [rev]. rewrite map_app, concat_app.
      simpl. by rewrite app_nil_r, <- !app_assoc.
    + eauto using stack_ok_push.
    + rewrite !total_size_push. lia.
Qed.

Section PostOrderIterative.
Context {V : Type} (cb : Callback V) (Hcb : keeps_nodes cb).

Lemma twostacks_drain_app stk stk' v st :
  twostacks_drain (stk ++ stk') cb v st
  = (v' <- twostacks_drain stk cb v ;; twostacks_drain stk' cb v') st.
Proof.
  revert v st. induction stk as [|p stk IH]; intros v st; [done|].
  cbn [app twostacks_drain]. unfold bind.
  destruct (get_key p st) as [k st1| | |]; try done.
  destruct (cb k v st1) as [v2 st2| | |]; try done; by rewrite IH.
Qed.

Lemma twostacks_drain_spec t : ∀ par v st,
  repr (nodes st) par t →
  twostacks_drain (post_ptrs t) cb v st = visits cb (postorder t) v st.
Proof.
  induction t as [|a l IHl k r IHr]; intros par v st Hrep; [done|].
  destruct Hrep as (Ha & Hl & Hr). cbn [post_ptrs postorder].
  rewrite twostacks_drain_app, visits_app. apply (after_visits cb Hcb).
  { by eapply IHl. }
  intros v1 st1 H1. rewrite <- H1 in Ha, Hr.
  rewrite twostacks_drain_app, visits_app. apply (after_visits cb Hcb).
  { by eapply IHr. }
  intros v2 st2 H2. rewrite <- H2 in Ha.
  cbn [twostacks_drain visits].
  rewrite (bind_Ok _ _ _ _ _ (get_key_eq _ _ _ Ha)). cbn [m_key].
  unfold bind. by destruct (cb k v2 st2).
Qed.

Lemma post_order_iter_twostacks_spec t par fuel v st :
  repr (nodes st) par t → (tsize t ≤ fuel)%nat →
  post_order_iter_twostacks fuel (root_of t) cb v st
  = visits cb (postorder t) v st.
Proof.
  intros Hrep Hfuel. destruct t as [|a l k r]; [done|].
  change (post_order_iter_twostacks fuel (root_of (N a l k r)) cb v st)
    with ((stk2 <- twostacks_fill fuel (map root_of [N a l k r]) [] ;;
           twostacks_drain stk2 cb v) st).
  erewrite bind_Ok; cycle 1.
  { apply twostacks_fill_spec; [|simpl; lia].
    constructor; [|constructor]. split; [done|]. by exists par. }
  cbn [rev app map concat]. rewrite !app_nil_r. by eapply twostacks_drain_spec.
Qed.

Lemma onestack_loop_push fuel stk a last v :
  onestack_loop (S fuel) stk (Some a) last cb v
  = (l <- get_left (Some a) ;; onestack_loop fuel (Some a :: stk) l last cb v).
Proof. by destruct stk. Qed.

Lemma onestack_descend t : ∀ par stk last fuel v st,
  repr (nodes st) par t → NoDup (addrs t) →
  (∀ a, last = Some a → a ∉ addrs t) →
  onestack_loop (onestack_cost t + fuel) stk (root_of t) last cb v st
  = (v' <- visits cb (postorder t) v ;;
     onestack_loop fuel stk None
       (match t with E => last | N _ _ _ _ => root_of t end) cb v') st.
Proof.
  induction t as [|a l IHl k r IHr]; intros par stk last fuel v st Hrep Hnd Hlast;
    [done|].
  destruct Hrep as (Ha & Hl & Hr). cbn [addrs] in Hnd, Hlast.
  apply NoDup_app in Hnd as (Hndl & Hla & Hnd).
  apply NoDup_cons in Hnd as (Har & Hndr).
  cbn [onestack_cost root_of postorder].
  replace (1 + onestack_cost l
           + match r with E => 1 | N _ _ _ _ => 2 + onestack_cost r end + fuel)%nat
    with (S (onestack_cost l
           + (match r with E => 1 | N _ _ _ _ => 2 + onestack_cost r end + fuel)))
    by lia.
  rewrite onestack_loop_push.
  rewrite (bind_Ok _ _ _ _ _ (get_left_eq _ _ _ Ha)). cbn [m_left].
  rewrite bind_visits_app. rewrite (IHl (Some a)); [|done|done|]; cycle 1.
  { intros b Hb Hin. apply (Hlast b Hb). list_mem. }
  apply (after_visits cb Hcb); [done|]. intros v1 st1 H1.
  rewrite <- H1 in Ha, Hr.
  match goal with
  | |- context [onestack_loop _ _ None ?x] => set (last1 := x)
  end.
  assert (Hlast1 : ∀ b, last1 = Some b → b ∉ addrs r).
  { intros b Hb Hin. unfold last1 in Hb. destruct l as [|al ll kl rl].
    - apply (Hlast b Hb). list_mem.
    - simpl in Hb. injection Hb as <-. apply (Hla al); list_mem. }
  destruct r as [|ar lr kr rr].
  - cbn [Nat.add onestack_loop postorder app visits].
    rewrite (bind_Ok _ _ _ _ _ (get_right_eq _ _ _ Ha)).
    cbn [m_right root_of negb orb bool_decide]. simpl.
    rewrite (bind_Ok _ _ _ _ _ (get_key_eq _ _ _ Ha)). cbn [m_key].
    unfold bind. by destruct (cb k v1 st1).
  - replace (2 + onestack_cost (N ar lr kr rr) + fuel)%nat
      with (S (onestack_cost (N ar lr kr rr) + S fuel)) by lia.
    cbn [onestack_loop].
    rewrite (bind_Ok _ _ _ _ _ (get_right_eq _ _ _ Ha)). cbn [m_right root_of].
    assert (Hne : ptr_eqb last1 (Some ar) = false).
    { unfold ptr_eqb. apply bool_decide_eq_false. intros Heq.
      apply (Hlast1 ar Heq). list_mem. }
    rewrite Hne. rewrite bool_decide_eq_true_2 by eauto. cbn [negb orb].
    change (Some ar) with (root_of (N ar lr kr rr)).
    rewrite bind_visits_app. rewrite (IHr (Some a)); [|done|done|done].
    apply (after_visits cb Hcb); [done|]. intros v2 st2 H2.
    rewrite <- H2 in Ha.
    cbn [onestack_loop].
    rewrite (bind_Ok _ _ _ _ _ (get_right_eq _ _ _ Ha)). cbn [m_right root_of].
    unfold ptr_eqb at 1. rewrite (bool_decide_eq_true_2 (Some ar = Some ar)) by done.
    rewrite orb_true_r.
    rewrite (bind_Ok _ _ _ _ _ (get_key_eq _ _ _ Ha)). cbn [m_key visits].
    unfold bind. by destruct (cb k v2 st2).
Qed.

Lemma onestack_cost_bound t : (onestack_cost t ≤ 3 * tsize t)%nat.
Proof.
  induction t as [|a l IHl k r IHr]; [done|]. rewrite tsize_N.
  cbn [onestack_cost]. destruct r; [|lia]. simpl in *. lia.
Qed.

Lemma post_order_iter_onestack_spec t par fuel v st :
  repr (nodes st) par t → NoDup (addrs t) → (3 * tsize t ≤ fuel)%nat →
  post_order_iter_onestack fuel (root_of t) cb v st
  = visits cb (postorder t) v st.
Proof.
  intros Hrep Hnd Hfuel. destruct t as [|a l k r]; [done|].
  pose proof (onestack_cost_bound (N a l k r)) as Hc.
  replace fuel with (onestack_cost (N a l k r) + (fuel - onestack_cost (N a l k r)))%nat
    by lia.
  change (post_order_iter_onestack ?f (root_of (N a l k r)) cb v st)
    with (onestack_loop f [] (root_of (N a l k r)) None cb v st).
  erewrite onestack_descend; [|done|done|done].
  unfold bind. destruct (visits cb (postorder (N a l k r)) v st); try done.
  by destruct (fuel - _)%nat.
Qed.

End PostOrderIterative.

(** ** Size bounds *)

Lemma repr_lookup h par t a :
  repr h par t → a ∈ addrs t → is_Some (h !! a).
Proof.
  revert par. induction t as [|b l IHl k r IHr]; intros par Hrep Hin.
  - by apply elem_of_nil in Hin.
  - destruct Hrep as (Hb & Hl & Hr). cbn [addrs] in Hin.
    apply elem_of_app in Hin as [Hin|Hin]; [by eapply IHl|].
    apply elem_of_cons in Hin as [->|Hin]; [eauto|by eapply IHr].
Qed.

Lemma tsize_le_store st t : holds_tree st t → (tsize t ≤ size (nodes st))%nat.
Proof.
  intros (Hnd & Hrep & _). unfold tsize.
  rewrite <- (size_list_to_set (C := gset addr)) by done.
  rewrite <- size_dom. apply subseteq_size. intros a Ha.
  apply elem_of_list_to_set in Ha. apply elem_of_dom. by eapply repr_lookup.
Qed.

Lemma depth_le_tsize t : (depth t ≤ tsize t)%nat.
Proof.
  induction t as [|a l IHl k r IHr]; [done|]. rewrite tsize_N. simpl. lia.
Qed.

Lemma theight_depth t : theight t = Z.of_nat (depth t) - 1.
Proof. induction t as [|a l IHl k r IHr]; simpl; lia. Qed.

(** ** Agreement of the traversal variants *)

Lemma traversals_spec {V} (cb : Callback V) st t fuel v :
  keeps_nodes cb → holds_tree st t → (3 * tsize t ≤ fuel)%nat →
  pre_order_traversal fuel cb v st = visits cb (preorder t) v st
  ∧ pre_order_iter_traversal fuel cb v st = visits cb (preorder t) v st
  ∧ in_order_traversal fuel cb v st = visits cb (inorder t) v st
  ∧ in_order_iter_traversal fuel cb v st = visits cb (inorder t) v st
  ∧ post_order_traversal fuel cb v st = visits cb (postorder t) v st
  ∧ post_order_iter_traversal_twostacks fuel cb v st
    = visits cb (postorder t) v st
  ∧ post_order_iter_traversal_onestack fuel cb v st
    = visits cb (postorder t) v st.
Proof.
  intros Hcb (Hnd & Hrep & Hroot) Hfuel.
  pose proof (depth_le_tsize t) as Hd.
  unfold pre_order_traversal, pre_order_iter_traversal, in_order_traversal,
    in_order_iter_traversal, post_order_traversal,
    post_order_iter_traversal_twostacks, post_order_iter_traversal_onestack.
  unfold bind, get_root. rewrite Hroot.
  repeat split.
  - eapply pre_order_spec; [done|done|lia].
  - eapply pre_order_iter_spec; [done|done|lia].
  - eapply in_order_spec; [done|done|lia].
  - eapply in_order_iter_spec; [done|done|lia].
  - eapply post_order_spec; [done|done|lia].
  - eapply post_order_iter_twostacks_spec; [done|done|lia].
  - eapply post_order_iter_onestack_spec; [done|done|done|lia].
Qed.

(** C6.  On every well-formed tree and with fuel three times the number of
    nodes, the seven traversal entry points make the same calls as a
    fixed key sequence per order: recursive and iterative pre-order call
    the visitor on the same sequence [pre], recursive and iterative
    in-order on the same sequence [ino], and recursive, two-stack and
    one-stack post-order on the same sequence [post].  This holds for every
    visitor that has no handle on the nodes, and in particular for the
    visitor that records the keys it receives. *)
Theorem C6_traversal_variants_agree st fuel :
  well_formed st → (3 * size (nodes st) ≤ fuel)%nat →
  ∃ pre ino post : list key,
    (pre_order_traversal fuel record_key [] st = Ok pre st
     ∧ pre_order_iter_traversal fuel record_key [] st = Ok pre st
     ∧ in_order_traversal fuel record_key [] st = Ok ino st
     ∧ in_order_iter_traversal fuel record_key [] st = Ok ino st
     ∧ post_order_traversal fuel record_key [] st = Ok post st
     ∧ post_order_iter_traversal_twostacks fuel record_key [] st = Ok post st
     ∧ post_order_iter_traversal_onestack fuel record_key [] st = Ok post st)
    ∧ ∀ (V : Type) (cb : Callback V) (v : V), keeps_nodes cb →
        pre_order_traversal fuel cb v st = visits cb pre v st
        ∧ pre_order_iter_traversal fuel cb v st = visits cb pre v st
        ∧ in_order_traversal fuel cb v st = visits cb ino v st
        ∧ in_order_iter_traversal fuel cb v st = visits cb ino v st
        ∧ post_order_traversal fuel cb v st = visits cb post v st
        ∧ post_order_iter_traversal_twostacks fuel cb v st
          = visits cb post v st
        ∧ post_order_iter_traversal_onestack fuel cb v st
          = visits cb post v st.
Proof.
  intros [t Ht] Hfuel. pose proof (tsize_le_store st t Ht) as Hsz.
  exists (preorder t), (inorder t), (postorder t). split.
  - pose proof (traversals_spec record_key st t fuel []
                  record_key_keeps_nodes Ht ltac:(lia)) as H.
    rewrite !visits_record_key in H. exact H.
  - intros V cb v Hcb. apply traversals_spec; [done|done|lia].
Qed.

(** ** [find] *)

Lemma in_order_find_keeps_nodes : keeps_nodes find_cb.
Proof.
  intros k v st. unfold find_cb, in_order_find.
  destruct (is_found st); [done|].
  unfold bind, int_succ. destruct (find_count st <? INT_MAX); done.
Qed.

Lemma visits_find_found ks st :
  is_found st = true → visits find_cb ks tt st = Ok tt st.
Proof.
  intros Hf. induction ks as [|k ks IH]; [done|].
  cbn [visits]. unfold bind, find_cb at 1, in_order_find. by rewrite Hf.
Qed.

(** The counter after the traversal is the rank when the key was met, and
    the flag tells whether it was. *)
Lemma visits_find_spec ks : ∀ h root x c,
  -1 <= c → c + Z.of_nat (length ks) <= INT_MAX →
  ∃ c' f,
    visits find_cb ks tt (mkTree h root x c false) = Ok tt (mkTree h root x c' f)
    ∧ (f = true → c' = rank_from (c + 1) x ks)
    ∧ (f = false → rank_from (c + 1) x ks = -1).
Proof.
  induction ks as [|k ks IH]; intros h root x c Hc Hlen.
  - exists c, false. by repeat split.
  - cbn [length] in Hlen. cbn [visits rank_from].
    unfold bind, find_cb at 1, in_order_find. cbn [is_found find_count].
    unfold bind, int_succ. replace (c <? INT_MAX) with true by lia.
    cbn [ret set_find_state find_target_key nodes m_root is_found].
    destruct (k =? x) eqn:Hk.
    + exists (c + 1), true. rewrite visits_find_found by done. by repeat split.
    + destruct (IH h root x (c + 1)) as (c' & f & Hv & Ht & Hf); [lia|lia|].
      exists c', f. by repeat split.
Qed.

Lemma find_spec st t fuel x :
  holds_tree st t → (depth t ≤ fuel)%nat → Z.of_nat (tsize t) <= INT_MAX →
  ∃ st', find fuel x st = Ok (rank x (inorder t)) st'
         ∧ nodes st' = nodes st ∧ m_root st' = m_root st.
Proof.
  intros (Hnd & Hrep & Hroot) Hfuel Hmax.
  unfold find. unfold bind at 1. cbn [set_find_state].
  unfold bind at 1.
  unfold in_order_traversal. unfold bind at 1, get_root. cbn [m_root].
  rewrite Hroot.
  rewrite (in_order_spec find_cb in_order_find_keeps_nodes t None); [|done|done].
  destruct (visits_find_spec (inorder t) (nodes st) (root_of t) x (-1))
    as (c' & f & Hv & Ht & Hf); [lia| |].
  { assert (length (inorder t) = tsize t) as ->; [|lia].
    unfold tsize. clear. induction t as [|a l IHl k r IHr]; [done|].
    simpl. rewrite !length_app. simpl. lia. }
  rewrite Hv. cbn [is_found find_count]. destruct f.
  - specialize (Ht eq_refl). subst c'. eexists.
    split; [reflexivity|]. by cbn.
  - specialize (Hf eq_refl). eexists. unfold bind, set_find_state, ret. cbn.
    split; [unfold rank; rewrite <- Hf; reflexivity|]. by cbn.
Qed.

Lemma rank_from_absent x ks i : x ∉ ks → rank_from i x ks = -1.
Proof.
  revert i. induction ks as [|k ks IH]; intros i Hx; [done|].
  cbn [rank_from]. apply not_elem_of_cons in Hx as [Hne Hx].
  destruct (Z.eqb_spec k x); [congruence|]. by apply IH.
Qed.

Lemma rank_from_present x ks : ∀ i,
  x ∈ ks →
  ∃ n : nat, rank_from i x ks = i + Z.of_nat n ∧ ks !! n = Some x
             ∧ ∀ j, (j < n)%nat → ks !! j ≠ Some x.
Proof.
  induction ks as [|k ks IH]; intros i Hx; [by apply elem_of_nil in Hx|].
  cbn [rank_from]. destruct (Z.eqb_spec k x) as [->|Hne].
  - exists O. repeat split; [lia|]. intros j Hj. lia.
  - apply elem_of_cons in Hx as [->|Hx]; [done|].
    destruct (IH (i + 1) Hx) as (n & Hr & Hl & Hmin).
    exists (S n). repeat split; [lia|done|].
    intros [|j] Hj; simpl; [congruence|]. apply Hmin. lia.
Qed.

(** C8.  On every object that holds a tree [t] whose node count fits an
    [int], [find(x)] returns the index of the first occurrence of [x] in
    the in-order key sequence of [t] when [x] is a key of [t] and [-1] when
    it is not, and leaves the nodes and the root as they were.  The
    sequence is that of the tree itself ([inorder]); it is also what the
    in-order traversal records. *)
Theorem C8_find_rank st t fuel x :
  holds_tree st t → Z.of_nat (tsize t) <= INT_MAX → (tsize t ≤ fuel)%nat →
  ∃ (r : Z) (st' : Tree),
    find fuel x st = Ok r st'
    ∧ nodes st' = nodes st ∧ m_root st' = m_root st
    ∧ (x ∉ inorder t → r = -1)
    ∧ (x ∈ inorder t →
       ∃ i : nat, r = Z.of_nat i ∧ inorder t !! i = Some x
                  ∧ ∀ j, (j < i)%nat → inorder t !! j ≠ Some x)
    ∧ in_order_traversal fuel record_key [] st = Ok (inorder t) st.
Proof.
  intros Ht Hmax Hfuel. pose proof (depth_le_tsize t) as Hd.
  destruct (find_spec st t fuel x Ht) as (st' & Hfind & Hn & Hr); [lia|lia|].
  exists (rank x (inorder t)), st'.
  destruct Ht as (Hnd & Hrep & Hroot).
  split; [done|]. split; [done|]. split; [done|].
  split; [|split].
  - intros Hx. by apply rank_from_absent.
  - intros Hx.
    destruct (rank_from_present x (inorder t) 0 Hx) as (n & H1 & H2 & H3).
    exists n. repeat split; [unfold rank; lia|done|done].
  - unfold in_order_traversal, bind, get_root. rewrite Hroot.
    rewrite (in_order_spec record_key record_key_keeps_nodes t None);
      [|done|lia].
    apply visits_record_key.
Qed.

(** ** Representation lemmas *)

Lemma repr_frame h h' par t :
  (∀ a, a ∈ addrs t → h' !! a = h !! a) → repr h par t → repr h' par t.
Proof.
  revert par. induction t as [|a l IHl k r IHr]; intros par Hsame Hrep; [done|].
  destruct Hrep as (Ha & Hl & Hr). cbn [addrs] in Hsame. repeat split.
  - rewrite Hsame; [done|list_mem].
  - apply IHl; [|done]. intros b Hb. apply Hsame. list_mem.
  - apply IHr; [|done]. intros b Hb. apply Hsame. list_mem.
Qed.

Lemma repr_insert_notin h par t a n :
  a ∉ addrs t → repr h par t → repr (<[a := n]> h) par t.
Proof.
  intros Ha. apply repr_frame. intros b Hb. apply lookup_insert_ne. congruence.
Qed.

Lemma repr_ctx_frame h h' c : ∀ hole,
  (∀ a, a ∈ ctx_addrs c → h' !! a = h !! a) →
  repr_ctx h c hole → repr_ctx h' c hole.
Proof.
  induction c as [|f c IH]; intros hole Hsame Hrep; [done|].
  destruct f as [a k r|a l k]; destruct Hrep as (Ha & Hs & Hc);
    cbn [ctx_addrs frame_addr frame_sibling] in Hsame; repeat split.
  - rewrite Hsame; [done|list_mem].
  - eapply repr_frame; [|done]. intros b Hb. apply Hsame. list_mem.
  - apply IH; [|done]. intros b Hb. apply Hsame. list_mem.
  - rewrite Hsame; [done|list_mem].
  - eapply repr_frame; [|done]. intros b Hb. apply Hsame. list_mem.
  - apply IH; [|done]. intros b Hb. apply Hsame. list_mem.
Qed.

Lemma repr_ctx_insert_notin h c hole a n :
  a ∉ ctx_addrs c → repr_ctx h c hole → repr_ctx (<[a := n]> h) c hole.
Proof.
  intros Ha. apply repr_ctx_frame. intros b Hb. apply lookup_insert_ne. congruence.
Qed.

Lemma root_of_fill f t : root_of (fill f t) = Some (frame_addr f).
Proof. by destruct f. Qed.

Lemma addrs_fill f t :
  addrs (fill f t) ≡ₚ addrs t ++ frame_addr f :: addrs (frame_sibling f).
Proof.
  destruct f as [a k r|a l k]; cbn [fill addrs frame_addr frame_sibling]; [done|].
  rewrite (Permutation_app_comm (addrs l)). simpl.
  by rewrite Permutation_middle.
Qed.

Lemma addrs_plug c : ∀ t, addrs (plug c t) ≡ₚ addrs t ++ ctx_addrs c.
Proof.
  induction c as [|f c IH]; intros t; cbn [plug ctx_addrs].
  - by rewrite app_nil_r.
  - rewrite IH, addrs_fill. by rewrite <- !app_assoc.
Qed.

Lemma root_of_plug c : ∀ t, root_of (plug c t) = ctx_root c (root_of t).
Proof.
  induction c as [|f c IH]; intros t; cbn [plug ctx_root]; [done|].
  by rewrite IH, root_of_fill.
Qed.

Lemma repr_plug h c : ∀ t,
  repr h None (plug c t) ↔ repr_ctx h c (root_of t) ∧ repr h (ctx_par c) t.
Proof.
  induction c as [|f c IH]; intros t; cbn [plug repr_ctx ctx_par].
  - tauto.
  - rewrite IH. rewrite root_of_fill.
    destruct f as [a k r|a l k]; cbn [fill repr frame_addr]; tauto.
Qed.

Lemma holds_tree_focus st c t : holds_tree st (plug c t) ↔ focus st c t.
Proof.
  unfold holds_tree, focus. rewrite repr_plug, root_of_plug, addrs_plug. tauto.
Qed.

Lemma inorder_plug_ext c : ∀ t t',
  inorder t = inorder t' → inorder (plug c t) = inorder (plug c t').
Proof.
  induction c as [|f c IH]; intros t t' Heq; cbn [plug]; [done|].
  apply IH. destruct f; cbn [fill inorder]; by rewrite Heq.
Qed.

(** Every node of a tree is the root of a subtree in some context. *)
Lemma subtree_at t : ∀ a,
  a ∈ addrs t → ∃ c l k r, t = plug c (N a l k r).
Proof.
  induction t as [|b l IHl k r IHr]; intros a Ha.
  - by apply elem_of_nil in Ha.
  - cbn [addrs] in Ha. apply elem_of_app in Ha as [Ha|Ha].
    + destruct (IHl a Ha) as (c & l' & k' & r' & ->).
      exists (c ++ [InL b k r]), l', k', r'.
      clear. generalize (N a l' k' r'). induction c as [|f c IH]; intros t; [done|].
      cbn [app plug]. apply IH.
    + apply elem_of_cons in Ha as [->|Ha].
      * by exists [], l, k, r.
      * destruct (IHr a Ha) as (c & l' & k' & r' & ->).
        exists (c ++ [InR b l k]), l', k', r'.
        clear. generalize (N a l' k' r'). induction c as [|f c IH]; intros t; [done|].
        cbn [app plug]. apply IH.
Qed.

(** ** Symbolic execution of the primitive accesses *)

Lemma set_left_eq st a n v :
  nodes st !! a = Some n →
  set_left (Some a) v st
  = Ok tt (with_nodes (<[a := mkNode (m_key n) v (m_right n) (m_parent n)]> (nodes st)) st).
Proof. apply store_eq. Qed.

Lemma set_right_eq st a n v :
  nodes st !! a = Some n →
  set_right (Some a) v st
  = Ok tt (with_nodes (<[a := mkNode (m_key n) (m_left n) v (m_parent n)]> (nodes st)) st).
Proof. apply store_eq. Qed.

Lemma set_parent_eq st a n v :
  nodes st !! a = Some n →
  set_parent (Some a) v st
  = Ok tt (with_nodes (<[a := mkNode (m_key n) (m_left n) (m_right n) v]> (nodes st)) st).
Proof. apply store_eq. Qed.

(** Solves a lookup in a store built by insertions, given the needed
    disequalities as hypotheses. *)
Ltac lk :=
  cbn [nodes with_nodes with_root m_root];
  repeat first [rewrite lookup_insert_eq
               | rewrite lookup_insert_ne by congruence];
  first [eassumption | reflexivity].

Lemma bind_assoc {A B C} (m : M A) (f : A → M B) (g : B → M C) st :
  bind (bind m f) g st = bind m (fun a => bind (f a) g) st.
Proof. unfold bind. by destruct (m st). Qed.

Ltac run lem :=
  rewrite ?bind_assoc; erewrite bind_Ok; [|apply lem; lk];
  cbn [m_key m_left m_right m_parent].

Ltac nodup_split :=
  repeat match goal with
    | H : NoDup (_ ++ _) |- _ =>
        let H1 := fresh "Hnd" in let H2 := fresh "Hnd" in
        let H3 := fresh "Hnd" in apply NoDup_app in H as (H1 & H2 & H3)
    | H : NoDup (_ :: _) |- _ =>
        let H1 := fresh "Hnd" in let H2 := fresh "Hnd" in
        apply NoDup_cons in H as (H1 & H2)
    end.

(** Replacing the subtree in focus. *)
Lemma focus_graft st st' c t t' :
  focus st c t →
  NoDup (addrs t' ++ ctx_addrs c) →
  (∀ z, z ∈ ctx_addrs c → ctx_par c ≠ Some z →
        nodes st' !! z = nodes st !! z) →
  head_frame_ok (nodes st') c (root_of t') →
  repr (nodes st') (ctx_par c) t' →
  m_root st' = match c with [] => root_of t' | _ :: _ => m_root st end →
  focus st' c t'.
Proof.
  intros (Hnd & Hc & Ht & Hroot) Hnd' Hsame Hhead Ht' Hroot'.
  repeat split; [done| |done|].
  - destruct c as [|f c]; [done|].
    apply NoDup_app in Hnd as (_ & _ & Hnd).
    destruct f as [p k s|p s k]; cbn [ctx_addrs frame_addr frame_sibling] in *;
      apply NoDup_cons in Hnd as (Hp & Hnd);
      destruct Hc as (_ & Hs & Hc); cbn [repr_ctx head_frame_ok] in *;
      (repeat split; [done| |]);
      [eapply repr_frame; [|done] | eapply repr_ctx_frame; [|done]
      |eapply repr_frame; [|done] | eapply repr_ctx_frame; [|done] ];
      intros z Hz; (apply Hsame; [list_mem|]); intros [= ->]; apply Hp; list_mem.
  - rewrite Hroot'. destruct c; [done|]. by rewrite Hroot.
Qed.

Lemma focus_replace st st' c t t' :
  focus st c t →
  addrs t' ≡ₚ addrs t →
  (∀ z, z ∈ ctx_addrs c → ctx_par c ≠ Some z →
        nodes st' !! z = nodes st !! z) →
  head_frame_ok (nodes st') c (root_of t') →
  repr (nodes st') (ctx_par c) t' →
  m_root st' = match c with [] => root_of t' | _ :: _ => m_root st end →
  focus st' c t'.
Proof.
  intros Hf Hperm. eapply focus_graft; [done|].
  destruct Hf as (Hnd & _). by rewrite Hperm.
Qed.

(** ** Rotations *)

Lemma dom_same_lookup (h h' : gmap addr Node) :
  (∀ z, is_Some (h' !! z) ↔ is_Some (h !! z)) → dom h' = dom h.
Proof. intros H. apply set_eq. intros z. by rewrite !elem_of_dom. Qed.

Ltac dom_solve :=
  apply dom_same_lookup; intros ?; cbn [nodes with_nodes with_root];
  rewrite ?lookup_insert_is_Some'; intuition (subst; eauto).

Lemma addrs_rotL x a kx y b ky g :
  addrs (N y (N x a kx b) ky g) = addrs (N x a kx (N y b ky g)).
Proof. simpl. by rewrite <- app_assoc. Qed.

Lemma addrs_rotR x a kx y b ky g :
  addrs (N y a ky (N x b kx g)) = addrs (N x (N y a ky b) kx g).
Proof. simpl. by rewrite <- app_assoc. Qed.

Lemma ptr_eqb_refl p : ptr_eqb p p = true.
Proof. unfold ptr_eqb. by apply bool_decide_eq_true_2. Qed.

Lemma ptr_eqb_root_notin a t : a ∉ addrs t → ptr_eqb (Some a) (root_of t) = false.
Proof.
  intros Ha. unfold ptr_eqb. apply bool_decide_eq_false_2.
  destruct t as [|b l k r]; [done|]. intros [= ->]. apply Ha. list_mem.
Qed.

Lemma mem_here {A} (x : A) l : x ∈ x :: l.
Proof. by left. Qed.
Lemma mem_further {A} (x y : A) l : x ∈ l → x ∈ y :: l.
Proof. by right. Qed.
Lemma mem_app_l {A} (x : A) l1 l2 : x ∈ l1 → x ∈ l1 ++ l2.
Proof. intros. apply elem_of_app. by left. Qed.
Lemma mem_app_r {A} (x : A) l1 l2 : x ∈ l2 → x ∈ l1 ++ l2.
Proof. intros. apply elem_of_app. by right. Qed.

(** Membership in a list written with [++] and [::]. *)
Ltac mem :=
  solve [repeat first [assumption | apply mem_here | apply mem_app_l; mem
                      | apply mem_app_r | apply mem_further]].

(** Distinctness from the facts [nodup_split] leaves in the context. *)
Ltac nd_false :=
  match goal with
  | H : ?u ∉ _ |- False => apply H; mem
  | H : ∀ z, z ∈ _ → z ∉ _, u : addr |- False => apply (H u); mem
  end.

Ltac nd_solve :=
  lazymatch goal with
  | |- _ ≠ _ => intros ->; nd_false
  | |- _ ∉ _ => intros ?; nd_false
  | |- False => nd_false
  end.

(** After the code of a rotation has run: the store is the old one with a
    few records replaced; what is left is to show that it holds the rotated
    tree. *)
Ltac rotation_done Hf Hperm :=
  eexists; split; [reflexivity|];
  cbn [nodes with_nodes with_root m_key m_left m_right m_parent];
  split; [|split];
  [ eapply focus_replace;
    [ exact Hf | by rewrite Hperm
    | intros ? ? ?; cbn [nodes with_nodes with_root];
      cbn [ctx_par frame_addr ctx_addrs frame_sibling] in *;
      rewrite !lookup_insert_ne; [done|first [congruence|nd_solve]..]
    | cbn [head_frame_ok root_of]; lk
    | cbn [repr nodes with_nodes with_root root_of ctx_par frame_addr];
      repeat split; try lk;
      repeat apply repr_insert_notin; try done; nd_solve
    | done ]
  | dom_solve
  | intros ? ? ? ? ?; rewrite !lookup_insert_ne; congruence ].

Lemma left_rotate_focus st c x a kx y b ky g :
  focus st c (N x a kx (N y b ky g)) →
  ∃ st',
    left_rotate (Some x) st = Ok tt st'
    ∧ focus st' c (N y (N x a kx b) ky g)
    ∧ dom (nodes st') = dom (nodes st)
    ∧ (∀ z, z ≠ x → z ≠ y → root_of b ≠ Some z → ctx_par c ≠ Some z →
            nodes st' !! z = nodes st !! z).
Proof.
  intros Hf. pose proof Hf as (Hnd & Hc & (Hx & Ha & Hy & Hb & Hg) & Hroot).
  cbn [root_of] in *.
  destruct b as [|b0 bl kb br]; destruct c as [|[p kp s|p s kp] c];
    cbn [root_of ctx_par ctx_addrs frame_addr frame_sibling repr repr_ctx addrs]
      in *;
    nodup_split;
    assert (Hxy : x ≠ y) by nd_solve;
    try assert (Hpx : p ≠ x) by nd_solve;
    try assert (Hpy : p ≠ y) by nd_solve;
    try assert (Hbx : b0 ≠ x) by nd_solve;
    try assert (Hby : b0 ≠ y) by nd_solve;
    try assert (Hpb : p ≠ b0) by nd_solve;
    try assert (Hxs : x ∉ addrs s) by nd_solve;
    unfold left_rotate;
    run get_right_eq; run get_left_eq; run set_right_eq; run get_left_eq.
  - unfold bind at 1. cbn [ret].
    run get_parent_eq. run set_parent_eq. run get_parent_eq.
    unfold bind at 1. cbn [set_root with_root nodes m_root find_target_key find_count is_found].
    run set_left_eq. erewrite set_parent_eq; [|lk].
    rotation_done Hf addrs_rotL.
  - unfold bind at 1. cbn [ret]. destruct Hc as (Hp & Hs & Hc).
    run get_parent_eq. run set_parent_eq. run get_parent_eq.
    run get_left_eq. rewrite ptr_eqb_refl. run set_left_eq.
    run set_left_eq. erewrite set_parent_eq; [|lk].
    rotation_done Hf addrs_rotL.
  - unfold bind at 1. cbn [ret]. destruct Hc as (Hp & Hs & Hc).
    run get_parent_eq. run set_parent_eq. run get_parent_eq.
    run get_left_eq. rewrite (ptr_eqb_root_notin x s Hxs). run set_right_eq.
    run set_left_eq. erewrite set_parent_eq; [|lk].
    rotation_done Hf addrs_rotL.
  - destruct Hb as (Hb0 & Hbl & Hbr). run set_parent_eq.
    run get_parent_eq. run set_parent_eq. run get_parent_eq.
    unfold bind at 1. cbn [set_root with_root nodes m_root find_target_key find_count is_found].
    run set_left_eq. erewrite set_parent_eq; [|lk].
    rotation_done Hf addrs_rotL.
  - destruct Hb as (Hb0 & Hbl & Hbr). destruct Hc as (Hp & Hs & Hc).
    run set_parent_eq.
    run get_parent_eq. run set_parent_eq. run get_parent_eq.
    run get_left_eq. rewrite ptr_eqb_refl. run set_left_eq.
    run set_left_eq. erewrite set_parent_eq; [|lk].
    rotation_done Hf addrs_rotL.
  - destruct Hb as (Hb0 & Hbl & Hbr). destruct Hc as (Hp & Hs & Hc).
    run set_parent_eq.
    run get_parent_eq. run set_parent_eq. run get_parent_eq.
    run get_left_eq. rewrite (ptr_eqb_root_notin x s Hxs). run set_right_eq.
    run set_left_eq. erewrite set_parent_eq; [|lk].
    rotation_done Hf addrs_rotL.
Qed.

Lemma right_rotate_focus st c x a kx y b ky g :
  focus st c (N x (N y a ky b) kx g) →
  ∃ st',
    right_rotate (Some x) st = Ok tt st'
    ∧ focus st' c (N y a ky (N x b kx g))
    ∧ dom (nodes st') = dom (nodes st)
    ∧ (∀ z, z ≠ x → z ≠ y → root_of b ≠ Some z → ctx_par c ≠ Some z →
            nodes st' !! z = nodes st !! z).
Proof.
  intros Hf. pose proof Hf as (Hnd & Hc & (Hx & (Hy & Ha & Hb) & Hg) & Hroot).
  cbn [root_of] in *.
  destruct b as [|b0 bl kb br]; destruct c as [|[p kp s|p s kp] c];
    cbn [root_of ctx_par ctx_addrs frame_addr frame_sibling repr repr_ctx addrs]
      in *;
    nodup_split;
    assert (Hxy : x ≠ y) by nd_solve;
    try assert (Hpx : p ≠ x) by nd_solve;
    try assert (Hpy : p ≠ y) by nd_solve;
    try assert (Hbx : b0 ≠ x) by nd_solve;
    try assert (Hby : b0 ≠ y) by nd_solve;
    try assert (Hpb : p ≠ b0) by nd_solve;
    try assert (Hxs : x ∉ addrs s) by nd_solve;
    unfold right_rotate;
    run get_left_eq; run get_right_eq; run set_left_eq; run get_right_eq.
  - unfold bind at 1. cbn [ret].
    run get_parent_eq. run set_parent_eq. run get_parent_eq.
    unfold bind at 1. cbn [set_root with_root nodes m_root find_target_key find_count is_found].
    run set_right_eq. erewrite set_parent_eq; [|lk].
    rotation_done Hf addrs_rotR.
  - unfold bind at 1. cbn [ret]. destruct Hc as (Hp & Hs & Hc).
    run get_parent_eq. run set_parent_eq. run get_parent_eq.
    run get_left_eq. rewrite ptr_eqb_refl. run set_left_eq.
    run set_right_eq. erewrite set_parent_eq; [|lk].
    rotation_done Hf addrs_rotR.
  - unfold bind at 1. cbn [ret]. destruct Hc as (Hp & Hs & Hc).
    run get_parent_eq. run set_parent_eq. run get_parent_eq.
    run get_left_eq. rewrite (ptr_eqb_root_notin x s Hxs). run set_right_eq.
    run set_right_eq. erewrite set_parent_eq; [|lk].
    rotation_done Hf addrs_rotR.
  - destruct Hb as (Hb0 & Hbl & Hbr). run set_parent_eq.
    run get_parent_eq. run set_parent_eq. run get_parent_eq.
    unfold bind at 1. cbn [set_root with_root nodes m_root find_target_key find_count is_found].
    run set_right_eq. erewrite set_parent_eq; [|lk].
    rotation_done Hf addrs_rotR.
  - destruct Hb as (Hb0 & Hbl & Hbr). destruct Hc as (Hp & Hs & Hc).
    run set_parent_eq.
    run get_parent_eq. run set_parent_eq. run get_parent_eq.
    run get_left_eq. rewrite ptr_eqb_refl. run set_left_eq.
    run set_right_eq. erewrite set_parent_eq; [|lk].
    rotation_done Hf addrs_rotR.
  - destruct Hb as (Hb0 & Hbl & Hbr). destruct Hc as (Hp & Hs & Hc).
    run set_parent_eq.
    run get_parent_eq. run set_parent_eq. run get_parent_eq.
    run get_left_eq. rewrite (ptr_eqb_root_notin x s Hxs). run set_right_eq.
    run set_right_eq. erewrite set_parent_eq; [|lk].
    rotation_done Hf addrs_rotR.
Qed.

(** ** Pure facts about balance *)

Lemma theight_ge t : -1 <= theight t.
Proof. induction t; simpl; lia. Qed.

Lemma theight_N_nonneg a l k r : 0 <= theight (N a l k r).
Proof. pose proof (theight_ge l). pose proof (theight_ge r). simpl. lia. Qed.

Lemma theight_neg_E t : theight t < 0 → t = E.
Proof. destruct t as [|a l k r]; [done|]. pose proof (theight_N_nonneg a l k r). lia. Qed.

Lemma avl_plug c : ∀ t, avl (plug c t) ↔ avl t ∧ avl_ctx c (theight t).
Proof.
  induction c as [|f c IH]; intros t; cbn [plug avl_ctx]; [tauto|].
  rewrite IH. destruct f as [a k r|a l k]; cbn [fill avl theight frame_sibling].
  - replace (Z.max (theight t) (theight r) + 1)
      with (1 + Z.max (theight t) (theight r)) by lia. tauto.
  - replace (Z.max (theight l) (theight t) + 1)
      with (1 + Z.max (theight t) (theight l)) by lia.
    replace (Z.abs (theight l - theight t)) with (Z.abs (theight t - theight l))
      by lia. tauto.
Qed.

Lemma inorder_rotL t : inorder (rotL t) = inorder t.
Proof.
  destruct t as [|x a kx [|y b ky g]]; try done. simpl. by rewrite <- app_assoc.
Qed.

Lemma inorder_rotR t : inorder (rotR t) = inorder t.
Proof.
  destruct t as [|x [|y a ky b] kx g]; try done. simpl. by rewrite <- app_assoc.
Qed.

Lemma addrs_rotL_eq t : addrs (rotL t) = addrs t.
Proof.
  destruct t as [|x a kx [|y b ky g]]; try done. simpl. by rewrite <- app_assoc.
Qed.

Lemma addrs_rotR_eq t : addrs (rotR t) = addrs t.
Proof.
  destruct t as [|x [|y a ky b] kx g]; try done. simpl. by rewrite <- app_assoc.
Qed.

Lemma inorder_rebal_node t : inorder (rebal_node t) = inorder t.
Proof.
  destruct t as [|x l k r]; [done|]. unfold rebal_node.
  repeat case_match; rewrite ?inorder_rotL, ?inorder_rotR; try done;
    cbn [inorder]; by rewrite ?inorder_rotL, ?inorder_rotR.
Qed.

Lemma addrs_rebal_node t : addrs (rebal_node t) = addrs t.
Proof.
  destruct t as [|x l k r]; [done|]. unfold rebal_node.
  repeat case_match; rewrite ?addrs_rotL_eq, ?addrs_rotR_eq; try done;
    cbn [addrs]; by rewrite ?addrs_rotL_eq, ?addrs_rotR_eq.
Qed.

Lemma rebal_node_balanced t : balanced t → rebal_node t = t.
Proof.
  destruct t as [|x l k r]; [done|]. cbn [balanced rebal_node]. intros Hb.
  destruct (Z.gtb_spec (theight l) (theight r + 1)); [lia|].
  destruct (Z.gtb_spec (theight r) (theight l + 1)); [lia|]. done.
Qed.

(** The corrective step restores balance and keeps the height within the
    bounds of [grown]. *)
Lemma rebal_node_grown h0 t :
  grown h0 t →
  avl (rebal_node t) ∧ h0 <= theight (rebal_node t) <= h0 + 1.
Proof.
  destruct t as [|x l k r]; [cbn; intros (_ & H & _); done|].
  intros ((Hl & Hr & Hd) & Hh & Hunb). cbn [balanced] in Hunb.
  cbn [rebal_node].
  destruct (Z.gtb_spec (theight l) (theight r + 1)) as [Hlh|Hlh].
  - destruct l as [|y ll ky lr];
      [pose proof (theight_ge r); simpl in Hlh; lia|].
    cbn [left_of right_of]. destruct Hl as (Hdl & Hll & Hlr).
    specialize (Hunb ltac:(lia)).
    destruct (Z.geb_spec (theight ll) (theight lr)) as [Hs|Hs].
    + cbn [rotR avl theight] in *. repeat split; try done; lia.
    + destruct lr as [|z lrl kz lrr];
        [pose proof (theight_ge ll); simpl in Hs; lia|].
      destruct Hlr as (Hdz & Hlrl & Hlrr).
      cbn [rotL rotR avl theight] in *. repeat split; try done; lia.
  - destruct (Z.gtb_spec (theight r) (theight l + 1)) as [Hrh|Hrh].
    + destruct r as [|y rl ky rr];
        [pose proof (theight_ge l); simpl in Hrh; lia|].
      cbn [left_of right_of]. destruct Hr as (Hdr & Hrl & Hrr).
      specialize (Hunb ltac:(lia)).
      destruct (Z.geb_spec (theight rr) (theight rl)) as [Hs|Hs].
      * cbn [rotL avl theight] in *. repeat split; try done; lia.
      * destruct rl as [|z rll kz rlr];
          [pose proof (theight_ge rr); simpl in Hs; lia|].
        destruct Hrl as (Hdz & Hrll & Hrlr).
        cbn [rotL rotR avl theight] in *. repeat split; try done; lia.
    + cbn [avl]. repeat split; try done; lia.
Qed.

(** Moving one frame up after the subtree below has been dealt with. *)
Lemma fill_grown h0 f c t :
  avl t → h0 <= theight t <= h0 + 1 → avl_ctx (f :: c) h0 →
  grown (1 + Z.max h0 (theight (frame_sibling f))) (fill f t)
  ∧ avl_ctx c (1 + Z.max h0 (theight (frame_sibling f))).
Proof.
  intros Ht Hh (Hs & Hd & Hc). split; [|done].
  destruct f as [a k r|a l k]; cbn [fill frame_sibling] in *;
    unfold grown; cbn [almost_avl balanced theight];
    repeat split; try done; lia.
Qed.

(** ** [height] and [rebalance] *)

Lemma int_succ_eq a st : a < INT_MAX → int_succ a st = Ok (a + 1) st.
Proof. intros Ha. unfold int_succ. by replace (a <? INT_MAX) with true by lia. Qed.

Lemma height_spec t : ∀ par hfuel st,
  repr (nodes st) par t → (depth t ≤ hfuel)%nat → theight t <= INT_MAX →
  height hfuel (root_of t) st = Ok (theight t) st.
Proof.
  induction t as [|a l IHl k r IHr]; intros par hfuel st Hrep Hfuel Hmax;
    [by destruct hfuel|].
  destruct hfuel as [|hfuel]; [simpl in Hfuel; lia|].
  destruct Hrep as (Ha & Hl & Hr). cbn [depth theight] in *.
  pose proof (theight_ge l). pose proof (theight_ge r).
  cbn [height root_of].
  run get_left_eq. erewrite bind_Ok; [|eapply IHl; [done|lia|lia] ].
  run get_right_eq. erewrite bind_Ok; [|eapply IHr; [done|lia|lia] ].
  apply int_succ_eq. lia.
Qed.

Lemma focus_down st c f t : focus st c (fill f t) ↔ focus st (f :: c) t.
Proof. by rewrite <- !holds_tree_focus. Qed.

Lemma tsize_plug c t : tsize (plug c t) = (tsize t + length (ctx_addrs c))%nat.
Proof. unfold tsize. by rewrite addrs_plug, length_app. Qed.

Lemma theight_lt_tsize t : theight t < Z.of_nat (tsize t).
Proof. rewrite theight_depth. pose proof (depth_le_tsize t). lia. Qed.

Lemma rebalance_at_spec st c x l k r hfuel :
  focus st c (N x l k r) →
  (tsize (N x l k r) ≤ hfuel)%nat → Z.of_nat (tsize (N x l k r)) <= INT_MAX →
  ∃ rots st',
    rebalance_at hfuel (Some x) st = Ok rots st'
    ∧ focus st' c (rebal_node (N x l k r))
    ∧ dom (nodes st') = dom (nodes st).
Proof.
  intros Hf Hfuel Hmax.
  pose proof Hf as (Hnd & Hc & (Hx & Hl & Hr) & Hroot).
  rewrite tsize_N in Hfuel, Hmax.
  pose proof (depth_le_tsize l). pose proof (depth_le_tsize r).
  pose proof (theight_lt_tsize l). pose proof (theight_lt_tsize r).
  pose proof (theight_ge l). pose proof (theight_ge r).
  unfold rebalance_at. cbn [rebal_node].
  run get_left_eq. erewrite bind_Ok; [|eapply height_spec; [done|lia|lia] ].
  run get_right_eq. erewrite bind_Ok; [|eapply height_spec; [done|lia|lia] ].
  erewrite bind_Ok; [|apply int_succ_eq; lia].
  destruct (Z.gtb_spec (theight l) (theight r + 1)) as [Hlh|Hlh].
  - destruct l as [|y ll ky lr]; [simpl in Hlh; lia|].
    destruct Hl as (Hy & Hll & Hlr). cbn [left_of right_of root_of] in *.
    rewrite tsize_N in *.
    pose proof (depth_le_tsize ll). pose proof (depth_le_tsize lr).
    pose proof (theight_lt_tsize ll). pose proof (theight_lt_tsize lr).
    run get_left_eq. run get_left_eq.
    erewrite bind_Ok; [|eapply height_spec; [done|lia|lia] ].
    run get_right_eq.
    erewrite bind_Ok; [|eapply height_spec; [done|lia|lia] ].
    destruct (Z.geb_spec (theight ll) (theight lr)) as [Hs|Hs].
    + destruct (right_rotate_focus st c x ll k y lr ky r Hf)
        as (st' & Hrun & Hf' & Hdom & _).
      erewrite bind_Ok; [|exact Hrun]. by eexists _, _.
    + destruct lr as [|z lrl kz lrr];
        [pose proof (theight_ge ll); simpl in Hs; lia|].
      run get_left_eq.
      change (N x (N y ll ky (N z lrl kz lrr)) k r)
        with (fill (InL x k r) (N y ll ky (N z lrl kz lrr))) in Hf.
      apply focus_down in Hf.
      destruct (left_rotate_focus st _ y ll ky z lrl kz lrr Hf)
        as (st1 & Hrun1 & Hf1 & Hdom1 & _).
      erewrite bind_Ok; [|exact Hrun1].
      apply focus_down in Hf1. cbn [fill] in Hf1.
      destruct (right_rotate_focus st1 c x _ k z _ kz r Hf1)
        as (st2 & Hrun2 & Hf2 & Hdom2 & _).
      erewrite bind_Ok; [|exact Hrun2].
      eexists _, _. split; [reflexivity|]. split; [done|congruence].
  - run get_right_eq. erewrite bind_Ok; [|eapply height_spec; [done|lia|lia] ].
    run get_left_eq. erewrite bind_Ok; [|eapply height_spec; [done|lia|lia] ].
    erewrite bind_Ok; [|apply int_succ_eq; lia].
    destruct (Z.gtb_spec (theight r) (theight l + 1)) as [Hrh|Hrh].
    + destruct r as [|y rl ky rr]; [simpl in Hrh; lia|].
      destruct Hr as (Hy & Hrl & Hrr). cbn [left_of right_of root_of] in *.
      rewrite tsize_N in *.
      pose proof (depth_le_tsize rl). pose proof (depth_le_tsize rr).
      pose proof (theight_lt_tsize rl). pose proof (theight_lt_tsize rr).
      run get_right_eq. run get_right_eq.
      erewrite bind_Ok; [|eapply height_spec; [done|lia|lia] ].
      run get_left_eq.
      erewrite bind_Ok; [|eapply height_spec; [done|lia|lia] ].
      destruct (Z.geb_spec (theight rr) (theight rl)) as [Hs|Hs].
      * destruct (left_rotate_focus st c x l k y rl ky rr Hf)
          as (st' & Hrun & Hf' & Hdom & _).
        erewrite bind_Ok; [|exact Hrun]. by eexists _, _.
      * destruct rl as [|z rll kz rlr];
          [pose proof (theight_ge rr); simpl in Hs; lia|].
        run get_right_eq.
        change (N x l k (N y (N z rll kz rlr) ky rr))
          with (fill (InR x l k) (N y (N z rll kz rlr) ky rr)) in Hf.
        apply focus_down in Hf.
        destruct (right_rotate_focus st _ y rll ky z rlr kz rr Hf)
          as (st1 & Hrun1 & Hf1 & Hdom1 & _).
        erewrite bind_Ok; [|exact Hrun1].
        apply focus_down in Hf1. cbn [fill] in Hf1.
        destruct (left_rotate_focus st1 c x l k z _ kz _ Hf1)
          as (st2 & Hrun2 & Hf2 & Hdom2 & _).
        erewrite bind_Ok; [|exact Hrun2].
        eexists _, _. split; [reflexivity|]. split; [done|congruence].
    + by eexists _, _.
Qed.

Lemma rebal_node_unbalanced x l k r :
  ¬ balanced (N x l k r) →
  ∃ w kw a b g,
    rebal_node (N x l k r) = N w (N x a k b) kw g
    ∨ rebal_node (N x l k r) = N w g kw (N x a k b).
Proof.
  cbn [balanced rebal_node]. intros Hunb.
  pose proof (theight_ge l). pose proof (theight_ge r).
  destruct (Z.gtb_spec (theight l) (theight r + 1)) as [Hlh|Hlh].
  - destruct l as [|y ll ky lr]; [simpl in Hlh; lia|].
    cbn [left_of right_of].
    destruct (Z.geb_spec (theight ll) (theight lr)) as [Hs|Hs].
    + cbn [rotR]. eexists _, _, _, _, _. by right.
    + destruct lr as [|z lrl kz lrr];
        [pose proof (theight_ge ll); simpl in Hs; lia|].
      cbn [rotL rotR]. eexists _, _, _, _, _. by right.
  - destruct (Z.gtb_spec (theight r) (theight l + 1)) as [Hrh|Hrh]; [|lia].
    destruct r as [|y rl ky rr]; [simpl in Hrh; lia|].
    cbn [left_of right_of].
    destruct (Z.geb_spec (theight rr) (theight rl)) as [Hs|Hs].
    + cbn [rotL]. eexists _, _, _, _, _. by left.
    + destruct rl as [|z rll kz rlr];
        [pose proof (theight_ge rr); simpl in Hs; lia|].
      cbn [rotL rotR]. eexists _, _, _, _, _. by left.
Qed.

Lemma balanced_dec t : balanced t ∨ ¬ balanced t.
Proof. destruct t as [|x l k r]; [by left|]. cbn [balanced]. lia. Qed.

(** The walk of [rebalance] from a grown subtree up to the root. *)
Lemma rebalance_spec c : ∀ t st fuel hfuel h0,
  focus st c t → t ≠ E → grown h0 t → avl_ctx c h0 →
  (2 * length c + 2 ≤ fuel)%nat →
  (tsize (plug c t) ≤ hfuel)%nat → Z.of_nat (tsize (plug c t)) <= INT_MAX →
  ∃ rots st' T',
    rebalance hfuel fuel (root_of t) st = Ok rots st'
    ∧ holds_tree st' T' ∧ avl T'
    ∧ inorder T' = inorder (plug c t)
    ∧ addrs T' ≡ₚ addrs (plug c t)
    ∧ dom (nodes st') = dom (nodes st).
Proof.
  induction c as [|f0 c IH].
  - (* at the root *)
    assert (B : ∀ t st fuel hfuel,
      focus st [] t → t ≠ E → avl t →
      (1 ≤ fuel)%nat → (tsize t ≤ hfuel)%nat → Z.of_nat (tsize t) <= INT_MAX →
      ∃ rots st' T',
        rebalance hfuel fuel (root_of t) st = Ok rots st'
        ∧ holds_tree st' T' ∧ avl T' ∧ inorder T' = inorder t
        ∧ addrs T' ≡ₚ addrs t ∧ dom (nodes st') = dom (nodes st)).
    { intros t st fuel hfuel Hf Hne Havl Hfuel Hhf Hmax.
      destruct t as [|x l k r]; [done|]. destruct fuel as [|fuel]; [lia|].
      destruct (rebalance_at_spec st [] x l k r hfuel Hf Hhf Hmax)
        as (rots & st' & Hrun & Hf' & Hdom).
      rewrite rebal_node_balanced in Hf' by (destruct Havl; done).
      cbn [rebalance root_of]. erewrite bind_Ok; [|exact Hrun].
      pose proof Hf' as (_ & _ & (Hx' & _) & _).
      run get_parent_eq. cbn [ctx_par].
      apply (holds_tree_focus _ []) in Hf'. cbn [plug] in Hf'.
      destruct fuel; cbn [rebalance bind ret];
        (eexists _, _, (N x l k r); split; [reflexivity|]);
        (split; [done|]); (split; [done|]); by repeat split. }
    intros t st fuel hfuel h0 Hf Hne Hg _ Hfuel Hhf Hmax. cbn [plug] in *.
    destruct (balanced_dec t) as [Hb|Hunb].
    + apply B; try done; [|lia].
      destruct t as [|x l k r]; [done|]. destruct Hg as ((? & ? & ?) & _).
      by repeat split.
    + destruct t as [|x l k r]; [done|]. destruct fuel as [|fuel]; [lia|].
      destruct (rebalance_at_spec st [] x l k r hfuel Hf Hhf Hmax)
        as (rots & st' & Hrun & Hf' & Hdom).
      destruct (rebal_node_grown h0 _ Hg) as (Havl2 & Hh2).
      cbn [rebalance root_of]. erewrite bind_Ok; [|exact Hrun].
      assert (Hpar : get_parent (Some x) st'
                     = Ok (root_of (rebal_node (N x l k r))) st').
      { destruct (rebal_node_unbalanced x l k r Hunb)
          as (w & kw & a & b & g & [Heq|Heq]); rewrite Heq in Hf' |- *;
          destruct Hf' as (_ & _ & Hrep & _); cbn [repr root_of] in *.
        - destruct Hrep as (_ & (Hx' & _) & _). by rewrite (get_parent_eq _ _ _ Hx').
        - destruct Hrep as (_ & _ & (Hx' & _)). by rewrite (get_parent_eq _ _ _ Hx'). }
      erewrite bind_Ok; [|exact Hpar].
      destruct (B (rebal_node (N x l k r)) st' fuel hfuel)
        as (rots' & st2 & T' & Hrun' & HT' & Havl' & Hin' & Hperm' & Hdom');
        try done.
      { intros Heq. destruct (rebal_node_unbalanced x l k r Hunb)
          as (w & kw & a & b & g & [Heq'|Heq']); congruence. }
      { lia. }
      { unfold tsize in *. by rewrite addrs_rebal_node. }
      { unfold tsize in *. by rewrite addrs_rebal_node. }
      erewrite bind_Ok; [|exact Hrun'].
      eexists _, _, T'. split; [reflexivity|].
      rewrite inorder_rebal_node in Hin'. rewrite addrs_rebal_node in Hperm'.
      split; [done|]. split; [done|]. split; [done|]. split; [done|].
      congruence.
  - (* below the root *)
    assert (B : ∀ t st fuel hfuel h0,
      focus st (f0 :: c) t → t ≠ E → avl t → h0 <= theight t <= h0 + 1 →
      avl_ctx (f0 :: c) h0 →
      (2 * length (f0 :: c) + 1 ≤ fuel)%nat →
      (tsize (plug (f0 :: c) t) ≤ hfuel)%nat →
      Z.of_nat (tsize (plug (f0 :: c) t)) <= INT_MAX →
      ∃ rots st' T',
        rebalance hfuel fuel (root_of t) st = Ok rots st'
        ∧ holds_tree st' T' ∧ avl T'
        ∧ inorder T' = inorder (plug (f0 :: c) t)
        ∧ addrs T' ≡ₚ addrs (plug (f0 :: c) t)
        ∧ dom (nodes st') = dom (nodes st)).
    { intros t st fuel hfuel h0 Hf Hne Havl Hh Hctx Hfuel Hhf Hmax.
      destruct t as [|x l k r]; [done|].
      destruct fuel as [|fuel]; [cbn [length] in Hfuel; lia|].
      assert (Hsz : (tsize (N x l k r) ≤ tsize (plug (f0 :: c) (N x l k r)))%nat)
        by (rewrite tsize_plug; lia).
      destruct (rebalance_at_spec st (f0 :: c) x l k r hfuel Hf)
        as (rots & st' & Hrun & Hf' & Hdom); [lia|lia|].
      rewrite rebal_node_balanced in Hf' by (destruct Havl; done).
      cbn [rebalance root_of]. erewrite bind_Ok; [|exact Hrun].
      pose proof Hf' as (_ & _ & (Hx' & _) & _).
      run get_parent_eq. cbn [ctx_par].
      apply focus_down in Hf'.
      destruct (fill_grown h0 f0 c (N x l k r) Havl Hh Hctx) as (Hg1 & Hctx1).
      destruct (IH (fill f0 (N x l k r)) st' fuel hfuel
                  (1 + Z.max h0 (theight (frame_sibling f0))) Hf')
        as (rots' & st2 & T' & Hrun' & HT' & Havl' & Hin' & Hperm' & Hdom');
        try done.
      { by destruct f0. }
      { cbn [length] in Hfuel. lia. }
      rewrite root_of_fill in Hrun'.
      erewrite bind_Ok; [|exact Hrun'].
      eexists _, _, T'. split; [reflexivity|].
      split; [done|]. split; [done|]. split; [done|]. split; [done|].
      congruence. }
    intros t st fuel hfuel h0 Hf Hne Hg Hctx Hfuel Hhf Hmax.
    destruct (balanced_dec t) as [Hb|Hunb].
    + eapply B; try done; [| |lia].
      * destruct t as [|x l k r]; [done|]. destruct Hg as ((? & ? & ?) & _).
        by repeat split.
      * by destruct Hg as (_ & ? & _).
    + destruct t as [|x l k r]; [done|].
      destruct fuel as [|fuel]; [cbn [length] in Hfuel; lia|].
      assert (Hsz : (tsize (N x l k r) ≤ tsize (plug (f0 :: c) (N x l k r)))%nat)
        by (rewrite tsize_plug; lia).
      destruct (rebalance_at_spec st (f0 :: c) x l k r hfuel Hf)
        as (rots & st' & Hrun & Hf' & Hdom); [lia|lia|].
      destruct (rebal_node_grown h0 _ Hg) as (Havl2 & Hh2).
      cbn [rebalance root_of]. erewrite bind_Ok; [|exact Hrun].
      assert (Hpar : get_parent (Some x) st'
                     = Ok (root_of (rebal_node (N x l k r))) st').
      { destruct (rebal_node_unbalanced x l k r Hunb)
          as (w & kw & a & b & g & [Heq|Heq]); rewrite Heq in Hf' |- *;
          destruct Hf' as (_ & _ & Hrep & _); cbn [repr root_of] in *.
        - destruct Hrep as (_ & (Hx' & _) & _). by rewrite (get_parent_eq _ _ _ Hx').
        - destruct Hrep as (_ & _ & (Hx' & _)). by rewrite (get_parent_eq _ _ _ Hx'). }
      erewrite bind_Ok; [|exact Hpar].
      assert (Hts : tsize (plug (f0 :: c) (rebal_node (N x l k r)))
                    = tsize (plug (f0 :: c) (N x l k r))).
      { rewrite !tsize_plug. unfold tsize. by rewrite addrs_rebal_node. }
      destruct (B (rebal_node (N x l k r)) st' fuel hfuel h0)
        as (rots' & st2 & T' & Hrun' & HT' & Havl' & Hin' & Hperm' & Hdom');
        try done.
      { intros Heq. destruct (rebal_node_unbalanced x l k r Hunb)
          as (w & kw & a & b & g & [Heq'|Heq']); congruence. }
      { lia. }
      { lia. }
      { lia. }
      erewrite bind_Ok; [|exact Hrun'].
      eexists _, _, T'. split; [reflexivity|].
      split; [done|]. split; [done|]. split; [|split].
      * rewrite Hin'. apply inorder_plug_ext, inorder_rebal_node.
      * rewrite Hperm'. rewrite !addrs_plug. by rewrite addrs_rebal_node.
      * congruence.
Qed.

(** ** Iterative insertion *)

Lemma plug_ins_ctx x t : ∀ c s,
  plug (ins_ctx x t c) s
  = plug c (match t with E => s | N _ _ _ _ =>
              plug (ins_ctx x t []) s end).
Proof.
  induction t as [|a l IHl k r IHr]; intros c s; [done|].
  cbn [ins_ctx]. destruct (x <? k).
  - rewrite IHl. rewrite (IHl [InL a k r]). by destruct l.
  - rewrite IHr. rewrite (IHr [InR a l k]). by destruct r.
Qed.

Lemma plug_ins_ctx_E x t : plug (ins_ctx x t []) E = t.
Proof.
  induction t as [|a l IHl k r IHr]; [done|]. cbn [ins_ctx].
  destruct (x <? k); rewrite plug_ins_ctx.
  - destruct l; [done|]. cbn [plug fill]. by rewrite IHl.
  - destruct r; [done|]. cbn [plug fill]. by rewrite IHr.
Qed.

Lemma plug_ins_ctx_leaf a0 x t :
  plug (ins_ctx x t []) (N a0 E x E) = ins a0 x t.
Proof.
  induction t as [|a l IHl k r IHr]; [done|]. cbn [ins_ctx ins].
  destruct (x <? k); rewrite plug_ins_ctx.
  - destruct l; [done|]. cbn [plug fill]. by rewrite IHl.
  - destruct r; [done|]. cbn [plug fill]. by rewrite IHr.
Qed.

Lemma ins_ctx_dir x t : ∀ c,
  Forall (frame_dir x) c → Forall (frame_dir x) (ins_ctx x t c).
Proof.
  induction t as [|a l IHl k r IHr]; intros c Hc; [done|].
  cbn [ins_ctx]. destruct (x <? k) eqn:Hk.
  - apply IHl. by constructor.
  - apply IHr. by constructor.
Qed.

Lemma length_ins_ctx x t : ∀ c,
  (length (ins_ctx x t c) ≤ depth t + length c)%nat.
Proof.
  induction t as [|a l IHl k r IHr]; intros c; [done|].
  cbn [ins_ctx depth]. destruct (x <? k).
  - etrans; [apply IHl|]. cbn [length]. lia.
  - etrans; [apply IHr|]. cbn [length]. lia.
Qed.

Lemma insert_descend_spec x t : ∀ c st fuel,
  focus st c t → (depth t ≤ fuel)%nat →
  insert_descend fuel x (ctx_par c) (root_of t) st
  = Ok (ctx_par (ins_ctx x t c)) st
  ∧ focus st (ins_ctx x t c) E.
Proof.
  induction t as [|a l IHl k r IHr]; intros c st fuel Hf Hfuel.
  - by destruct fuel.
  - destruct fuel as [|fuel]; [simpl in Hfuel; lia|].
    pose proof Hf as (_ & _ & (Ha & _) & _). cbn [depth] in Hfuel.
    cbn [insert_descend root_of ins_ctx]. run get_key_eq.
    destruct (x <? k).
    + run get_left_eq.
      change (N a l k r) with (fill (InL a k r) l) in Hf.
      apply focus_down in Hf. apply (IHl _ _ fuel) in Hf; [|lia]. done.
    + run get_right_eq.
      change (N a l k r) with (fill (InR a l k) r) in Hf.
      apply focus_down in Hf. apply (IHr _ _ fuel) in Hf; [|lia]. done.
Qed.

(** Hooking a new leaf into the hole of a context: the tail of
    [_iter_insert] after the descent. *)
Lemma attach_leaf st c a0 x :
  focus st c E → Forall (frame_dir x) c →
  nodes st !! a0 = Some (mkNode x None None None) → a0 ∉ ctx_addrs c →
  ∃ st',
    (set_parent (Some a0) (ctx_par c) ;;;
     (match ctx_par c with
      | None => set_root (Some a0)
      | Some _ =>
          k <- get_key (ctx_par c) ;;
          if Z.ltb x k then set_left (ctx_par c) (Some a0)
          else set_right (ctx_par c) (Some a0)
      end) ;;;
     ret (Some a0)) st = Ok (Some a0) st'
    ∧ focus st' c (N a0 E x E)
    ∧ dom (nodes st') = dom (nodes st).
Proof.
  intros Hf Hdir Ha0 Hfresh.
  pose proof Hf as (Hnd & Hc & _ & Hroot). cbn [addrs app] in Hnd.
  destruct c as [|[p kp s|p s kp] c];
    cbn [ctx_par frame_addr ctx_addrs frame_sibling repr_ctx] in *.
  - run set_parent_eq. unfold bind, set_root, ret.
    eexists. split; [reflexivity|].
    cbn [nodes with_nodes with_root m_key m_left m_right m_parent].
    split; [|dom_solve].
    eapply focus_graft; [exact Hf| | | | |]; cbn [addrs app ctx_addrs].
    + apply NoDup_singleton.
    + intros z Hz. by apply elem_of_nil in Hz.
    + done.
    + cbn [repr nodes with_nodes with_root root_of ctx_par]. repeat split. lk.
    + done.
  - destruct Hc as (Hp & Hs & Hc). apply Forall_cons in Hdir as [Hdir _].
    cbn [frame_dir] in Hdir.
    assert (Hpa : p ≠ a0) by (intros ->; apply Hfresh; list_mem).
    run set_parent_eq. run get_key_eq. rewrite Hdir. run set_left_eq.
    unfold ret. eexists. split; [reflexivity|].
    cbn [nodes with_nodes with_root m_key m_left m_right m_parent].
    split; [|dom_solve].
    eapply focus_graft; [exact Hf| | | | |];
      cbn [addrs app ctx_addrs frame_addr frame_sibling ctx_par].
    + apply NoDup_cons. split; [done|done].
    + intros z Hz Hzp. cbn [nodes with_nodes].
      rewrite !lookup_insert_ne; [done|..].
      * intros ->. by apply Hfresh.
      * congruence.
    + cbn [head_frame_ok root_of]. lk.
    + cbn [repr nodes with_nodes root_of]. repeat split. lk.
    + done.
  - destruct Hc as (Hp & Hs & Hc). apply Forall_cons in Hdir as [Hdir _].
    cbn [frame_dir] in Hdir.
    assert (Hpa : p ≠ a0) by (intros ->; apply Hfresh; list_mem).
    run set_parent_eq. run get_key_eq. rewrite Hdir. run set_right_eq.
    unfold ret. eexists. split; [reflexivity|].
    cbn [nodes with_nodes with_root m_key m_left m_right m_parent].
    split; [|dom_solve].
    eapply focus_graft; [exact Hf| | | | |];
      cbn [addrs app ctx_addrs frame_addr frame_sibling ctx_par].
    + apply NoDup_cons. split; [done|done].
    + intros z Hz Hzp. cbn [nodes with_nodes].
      rewrite !lookup_insert_ne; [done|..].
      * intros ->. by apply Hfresh.
      * congruence.
    + cbn [head_frame_ok root_of]. lk.
    + cbn [repr nodes with_nodes root_of]. repeat split. lk.
    + done.
Qed.

Lemma fresh_not_in_tree st t :
  holds_tree st t → fresh (dom (nodes st)) ∉ addrs t.
Proof.
  intros (_ & Hrep & _) Hin. apply (repr_lookup _ _ _ _ Hrep) in Hin.
  apply elem_of_dom in Hin. by apply is_fresh in Hin.
Qed.

Lemma holds_tree_alloc st t a n :
  holds_tree st t → a ∉ addrs t →
  holds_tree (with_nodes (<[a := n]> (nodes st)) st) t.
Proof.
  intros (Hnd & Hrep & Hroot) Ha. repeat split; [done| |done].
  by apply repr_insert_notin.
Qed.

Lemma _iter_insert_spec st t fuel x :
  holds_tree st t → (depth t ≤ fuel)%nat →
  ∃ st',
    _iter_insert fuel x st = Ok (Some (fresh (dom (nodes st)))) st'
    ∧ focus st' (ins_ctx x t []) (N (fresh (dom (nodes st))) E x E)
    ∧ dom (nodes st') = {[fresh (dom (nodes st))]} ∪ dom (nodes st).
Proof.
  intros Ht Hfuel. pose proof (fresh_not_in_tree st t Ht) as Hfresh.
  set (a0 := fresh (dom (nodes st))) in *.
  unfold _iter_insert. unfold bind at 1, make_shared. fold a0.
  set (st1 := with_nodes (<[a0 := mkNode x None None None]> (nodes st)) st).
  assert (Ht1 : holds_tree st1 t) by by apply holds_tree_alloc.
  unfold bind at 1, get_root. replace (m_root st1) with (root_of t)
    by (by destruct Ht1 as (_ & _ & ->)).
  apply (holds_tree_focus st1 []) in Ht1.
  destruct (insert_descend_spec x t [] st1 fuel Ht1 Hfuel) as (Hrun & Hf).
  cbn [ctx_par] in Hrun. erewrite bind_Ok; [|exact Hrun].
  destruct (attach_leaf st1 (ins_ctx x t []) a0 x Hf) as (st' & Hrun' & Hf' & Hdom).
  - apply ins_ctx_dir. constructor.
  - unfold st1. cbn [nodes with_nodes]. apply lookup_insert_eq.
  - intros Hin. apply Hfresh. rewrite <- (plug_ins_ctx_E x t) at 1.
    rewrite addrs_plug. list_mem.
  - exists st'. split; [exact Hrun'|]. split; [done|].
    rewrite Hdom. unfold st1. cbn [nodes with_nodes]. apply dom_insert_L.
Qed.

Lemma addrs_ins a0 x t : addrs (ins a0 x t) ≡ₚ a0 :: addrs t.
Proof.
  induction t as [|a l IHl k r IHr]; [done|]. cbn [ins].
  destruct (x <? k); cbn [addrs].
  - by rewrite IHl.
  - rewrite IHr. symmetry. etrans; [apply Permutation_middle|].
    apply Permutation_app_head, perm_swap.
Qed.

Lemma inorder_ins a0 x t : inorder (ins a0 x t) ≡ₚ x :: inorder t.
Proof.
  induction t as [|a l IHl k r IHr]; [done|]. cbn [ins].
  destruct (x <? k); cbn [inorder].
  - by rewrite IHl.
  - rewrite IHr. symmetry. etrans; [apply Permutation_middle|].
    apply Permutation_app_head, perm_swap.
Qed.

Lemma holds_exactly_intro st t :
  holds_tree st t → dom (nodes st) = list_to_set (addrs t) → holds_exactly st t.
Proof. by split. Qed.

Lemma tsize_ins a0 x t : tsize (ins a0 x t) = S (tsize t).
Proof. unfold tsize. by rewrite addrs_ins. Qed.

(** [iter_insert] on a tree object. *)
Lemma iter_insert_spec st t fuel x :
  holds_exactly st t → (depth t ≤ fuel)%nat →
  ∃ st' a0,
    iter_insert fuel x st = Ok tt st'
    ∧ holds_exactly st' (ins a0 x t).
Proof.
  intros (Ht & Hdom) Hfuel.
  destruct (_iter_insert_spec st t fuel x Ht Hfuel) as (st' & Hrun & Hf & Hdom').
  exists st', (fresh (dom (nodes st))). unfold iter_insert.
  erewrite bind_Ok; [|exact Hrun]. split; [done|].
  apply holds_tree_focus in Hf. rewrite plug_ins_ctx_leaf in Hf.
  split; [done|]. rewrite Hdom', Hdom.
  apply set_eq. intros z. rewrite elem_of_union, elem_of_singleton,
    !elem_of_list_to_set, addrs_ins, elem_of_cons. done.
Qed.

(** [AVLTree::insert] on a balanced tree. *)
Lemma AVL_insert_spec st t fuel x :
  holds_exactly st t → avl t →
  (2 * tsize t + 2 ≤ fuel)%nat → Z.of_nat (tsize t) < INT_MAX →
  ∃ rots st' t',
    AVL_insert fuel x st = Ok rots st'
    ∧ holds_exactly st' t' ∧ avl t'
    ∧ inorder t' = inorder (ins (fresh (dom (nodes st))) x t)
    ∧ tsize t' = S (tsize t).
Proof.
  intros (Ht & Hdom) Havl Hfuel Hmax.
  pose proof (depth_le_tsize t) as Hd.
  destruct (_iter_insert_spec st t fuel x Ht) as (st1 & Hrun & Hf & Hdom1); [lia|].
  set (a0 := fresh (dom (nodes st))) in *.
  assert (Hplug : plug (ins_ctx x t []) (N a0 E x E) = ins a0 x t)
    by apply plug_ins_ctx_leaf.
  destruct (rebalance_spec (ins_ctx x t []) (N a0 E x E) st1 fuel fuel (-1) Hf)
    as (rots & st2 & t' & Hrun2 & Ht' & Havl' & Hin & Hperm & Hdom2).
  - done.
  - unfold grown. cbn. repeat split; lia.
  - rewrite <- (plug_ins_ctx_E x t) in Havl. by apply avl_plug in Havl as [_ ?].
  - pose proof (length_ins_ctx x t []). cbn [length] in *. lia.
  - rewrite Hplug, tsize_ins. lia.
  - rewrite Hplug, tsize_ins. lia.
  - exists rots, st2, t'. unfold AVL_insert. erewrite bind_Ok; [|exact Hrun].
    split; [exact Hrun2|]. rewrite Hplug in Hin, Hperm.
    split; [|split; [done|split; [done|] ] ].
    + split; [done|]. rewrite Hdom2, Hdom1, Hdom.
      apply set_eq. intros z. rewrite elem_of_union, elem_of_singleton,
        !elem_of_list_to_set, Hperm, addrs_ins, elem_of_cons. done.
    + unfold tsize. by rewrite Hperm, addrs_ins.
Qed.

(** ** Recursive insertion *)

Lemma ins_not_E a0 x t : ins a0 x t ≠ E.
Proof. destruct t as [|a l k r]; [done|]. cbn [ins]. by destruct (x <? k). Qed.

Lemma NoDup_addrs_ins a0 x t :
  NoDup (addrs t) → a0 ∉ addrs t → NoDup (addrs (ins a0 x t)).
Proof. intros Hnd Ha. rewrite addrs_ins. by apply NoDup_cons. Qed.

Lemma elem_of_addrs_ins a0 x t z :
  z ∈ addrs (ins a0 x t) ↔ z = a0 ∨ z ∈ addrs t.
Proof. by rewrite addrs_ins, elem_of_cons. Qed.

Lemma _rec_insert_spec x a0 t : ∀ par fuel st,
  repr (nodes st) par t → NoDup (addrs t) →
  a0 = fresh (dom (nodes st)) → a0 ∉ addrs t → (depth t ≤ fuel)%nat →
  ∃ st',
    _rec_insert fuel (root_of t) x st = Ok (root_of (ins a0 x t)) st'
    ∧ repr (nodes st') (match t with E => None | N _ _ _ _ => par end)
        (ins a0 x t)
    ∧ (∀ z, z ≠ a0 → z ∉ addrs t → nodes st' !! z = nodes st !! z)
    ∧ dom (nodes st') = {[a0]} ∪ dom (nodes st)
    ∧ m_root st' = m_root st.
Proof.
  induction t as [|a l IHl k r IHr]; intros par fuel st Hrep Hnd Ha0 Hfresh Hfuel.
  - exists (with_nodes (<[a0 := mkNode x None None None]> (nodes st)) st).
    split; [destruct fuel; cbn; unfold make_shared; by rewrite <- Ha0|].
    cbn [nodes with_nodes ins repr root_of]. repeat split.
    + apply lookup_insert_eq.
    + intros z Hz _. by apply lookup_insert_ne.
    + apply dom_insert_L.
  - destruct fuel as [|fuel]; [simpl in Hfuel; lia|]. cbn [depth] in Hfuel.
    destruct Hrep as (Ha & Hl & Hr). cbn [addrs] in Hnd, Hfresh.
    nodup_split.
    assert (Haa0 : a ≠ a0) by (intros ->; apply Hfresh; list_mem).
    cbn [_rec_insert root_of ins]. run get_key_eq.
    destruct (x <? k).
    + run get_left_eq.
      destruct (IHl (Some a) fuel st Hl) as (st1 & Hrun & Hrep1 & Hsame1 & Hdom1 & Hroot1);
        [done|done|intros ?; apply Hfresh; list_mem|lia|].
      assert (Ha1 : nodes st1 !! a = Some (mkNode k (root_of l) (root_of r) par)).
      { rewrite Hsame1; [done|done|]. intros ?. nd_solve. }
      rewrite ?bind_assoc. erewrite bind_Ok; [|exact Hrun].
      assert (Hnd' : NoDup (addrs (ins a0 x l))).
      { apply NoDup_addrs_ins; [done|]. intros ?. apply Hfresh. list_mem. }
      assert (Hain : a ∉ addrs (ins a0 x l)).
      { rewrite elem_of_addrs_ins. intros [?|?]; [done|]. nd_solve. }
      pose proof (ins_not_E a0 x l) as Hne.
      destruct (ins a0 x l) as [|l0 ll kl lr] eqn:Hins; [done|].
      cbn [root_of addrs] in *. destruct Hrep1 as (Hl0 & Hll & Hlr).
      nodup_split.
      assert (Hl0a : l0 ≠ a) by (intros ->; apply Hain; list_mem).
      run set_left_eq. run get_left_eq. run set_parent_eq.
      unfold ret. eexists. split; [reflexivity|].
      cbn [nodes with_nodes with_root m_root m_key m_left m_right m_parent repr].
      repeat split.
      * lk.
      * lk.
      * repeat apply repr_insert_notin;
          first [done | nd_solve | intros ?; apply Hain; list_mem].
      * repeat apply repr_insert_notin;
          first [done | nd_solve | intros ?; apply Hain; list_mem].
      * repeat apply repr_insert_notin.
        -- intros Hin. assert (l0 ∈ addrs (ins a0 x l)) as Hl0in
             by (rewrite Hins; list_mem).
           apply elem_of_addrs_ins in Hl0in as [->|Hl0in].
           ++ apply Hfresh. list_mem.
           ++ nd_solve.
        -- done.
        -- eapply repr_frame; [|exact Hr]. intros z Hz. apply Hsame1.
           ++ intros ->. apply Hfresh. list_mem.
           ++ intros ?. nd_solve.
      * intros z Hz Hzn. rewrite !lookup_insert_ne.
        -- apply Hsame1; [done|]. intros ?. apply Hzn. list_mem.
        -- intros ->. apply Hzn. list_mem.
        -- intros ->. assert (z ∈ addrs (ins a0 x l)) as Hzin
             by (rewrite Hins; list_mem).
           apply elem_of_addrs_ins in Hzin as [->|Hzin]; [done|].
           apply Hzn. list_mem.
      * rewrite <- Hdom1. dom_solve.
      * done.
    + run get_right_eq.
      destruct (IHr (Some a) fuel st Hr) as (st1 & Hrun & Hrep1 & Hsame1 & Hdom1 & Hroot1);
        [done|done|intros ?; apply Hfresh; list_mem|lia|].
      assert (Ha1 : nodes st1 !! a = Some (mkNode k (root_of l) (root_of r) par)).
      { rewrite Hsame1; [done|done|]. done. }
      rewrite ?bind_assoc. erewrite bind_Ok; [|exact Hrun].
      assert (Hnd' : NoDup (addrs (ins a0 x r))).
      { apply NoDup_addrs_ins; [done|]. intros ?. apply Hfresh. list_mem. }
      assert (Hain : a ∉ addrs (ins a0 x r)).
      { rewrite elem_of_addrs_ins. intros [?|?]; done. }
      pose proof (ins_not_E a0 x r) as Hne.
      destruct (ins a0 x r) as [|r0 rl kr rr] eqn:Hins; [done|].
      cbn [root_of addrs] in *. destruct Hrep1 as (Hr0 & Hrl & Hrr).
      nodup_split.
      assert (Hr0a : r0 ≠ a) by (intros ->; apply Hain; list_mem).
      run set_right_eq. run get_right_eq. run set_parent_eq.
      unfold ret. eexists. split; [reflexivity|].
      cbn [nodes with_nodes with_root m_root m_key m_left m_right m_parent repr].
      repeat split.
      * lk.
      * repeat apply repr_insert_notin.
        -- intros Hin. assert (r0 ∈ addrs (ins a0 x r)) as Hr0in
             by (rewrite Hins; list_mem).
           apply elem_of_addrs_ins in Hr0in as [->|Hr0in].
           ++ apply Hfresh. list_mem.
           ++ nd_solve.
        -- nd_solve.
        -- eapply repr_frame; [|exact Hl]. intros z Hz. apply Hsame1.
           ++ intros ->. apply Hfresh. list_mem.
           ++ intros ?. nd_solve.
      * lk.
      * repeat apply repr_insert_notin;
          first [done | nd_solve | intros ?; apply Hain; list_mem].
      * repeat apply repr_insert_notin;
          first [done | nd_solve | intros ?; apply Hain; list_mem].
      * intros z Hz Hzn. rewrite !lookup_insert_ne.
        -- apply Hsame1; [done|]. intros ?. apply Hzn. list_mem.
        -- intros ->. apply Hzn. list_mem.
        -- intros ->. assert (z ∈ addrs (ins a0 x r)) as Hzin
             by (rewrite Hins; list_mem).
           apply elem_of_addrs_ins in Hzin as [->|Hzin]; [done|].
           apply Hzn. list_mem.
      * rewrite <- Hdom1. dom_solve.
      * done.
Qed.

Lemma insert_spec st t fuel x :
  holds_exactly st t → (depth t ≤ fuel)%nat →
  ∃ st' a0,
    insert fuel x st = Ok tt st'
    ∧ holds_exactly st' (ins a0 x t).
Proof.
  intros (Ht & Hdom) Hfuel. pose proof (fresh_not_in_tree st t Ht) as Hfresh.
  destruct Ht as (Hnd & Hrep & Hroot).
  destruct (_rec_insert_spec x (fresh (dom (nodes st))) t None fuel st)
    as (st1 & Hrun & Hrep1 & Hsame1 & Hdom1 & Hroot1); try done.
  exists (with_root (root_of (ins (fresh (dom (nodes st))) x t)) st1),
    (fresh (dom (nodes st))).
  unfold insert. unfold bind at 1, get_root. rewrite Hroot.
  erewrite bind_Ok; [|exact Hrun]. split; [done|].
  split; [split; [|split] |].
  - by apply NoDup_addrs_ins.
  - cbn [nodes with_root]. by destruct t.
  - done.
  - cbn [nodes with_root]. rewrite Hdom1, Hdom.
    apply set_eq. intros z. rewrite elem_of_union, elem_of_singleton,
      !elem_of_list_to_set, addrs_ins, elem_of_cons. done.
Qed.

(** ** Ordering *)

Lemma bst_ins a0 x t : bst t → bst (ins a0 x t).
Proof.
  induction t as [|a l IHl k r IHr]; intros Hb; [by cbn|].
  destruct Hb as (Hl & Hr & Hbl & Hbr). cbn [ins].
  destruct (Z.ltb_spec x k); cbn [bst]; repeat split; auto.
  - rewrite inorder_ins. by constructor.
  - rewrite inorder_ins. by constructor.
Qed.

Lemma bst_sorted t : bst t → StronglySorted Z.le (inorder t).
Proof.
  induction t as [|a l IHl k r IHr]; intros Hb; [constructor|].
  destruct Hb as (Hl & Hr & Hbl & Hbr). cbn [inorder].
  apply StronglySorted_app. repeat split; auto.
  - intros x1 x2 H1 H2. rewrite Forall_forall in Hl, Hr.
    apply elem_of_cons in H2 as [->|H2].
    + specialize (Hl x1 H1). lia.
    + specialize (Hl x1 H1). specialize (Hr x2 H2). lia.
  - apply StronglySorted_cons. auto.
Qed.

Lemma sorted_ins a0 x t :
  StronglySorted Z.le (inorder t) → StronglySorted Z.le (inorder (ins a0 x t)).
Proof.
  induction t as [|a l IHl k r IHr]; intros Hs.
  - cbn. repeat constructor.
  - cbn [inorder ins] in *. apply StronglySorted_app in Hs as (Hlr & Hsl & Hsr).
    apply StronglySorted_cons in Hsr as (Hkr & Hsr).
    rewrite Forall_forall in Hkr.
    destruct (Z.ltb_spec x k); cbn [inorder]; apply StronglySorted_app.
    + split; [|split; [auto|apply StronglySorted_cons; by rewrite Forall_forall] ].
      intros x1 x2 H1 H2. rewrite inorder_ins in H1.
      apply elem_of_cons in H1 as [->|H1]; [|by apply Hlr].
      apply elem_of_cons in H2 as [->|H2]; [lia|]. specialize (Hkr x2 H2). lia.
    + split; [|split; [auto|] ].
      * intros x1 x2 H1 H2. apply elem_of_cons in H2 as [->|H2];
          [apply Hlr; [done|by left]|].
        rewrite inorder_ins in H2. apply elem_of_cons in H2 as [->|H2].
        -- specialize (Hlr x1 k H1 ltac:(by left)). lia.
        -- apply Hlr; [done|by right].
      * apply StronglySorted_cons. split; [|auto].
        rewrite Forall_forall. intros y Hy. rewrite inorder_ins in Hy.
        apply elem_of_cons in Hy as [->|Hy]; [lia|auto].
Qed.

Lemma inorder_plug c :
  ∃ L R, ∀ s, inorder (plug c s) = L ++ inorder s ++ R.
Proof.
  induction c as [|f c (L & R & IH)]; [exists [], []; intros s; cbn; by rewrite app_nil_r|].
  destruct f as [a k r|a l k].
  - exists L, (k :: inorder r ++ R). intros s. cbn [plug fill]. rewrite IH.
    cbn [inorder]. by rewrite <- !app_assoc.
  - exists (L ++ inorder l ++ [k]), R. intros s. cbn [plug fill]. rewrite IH.
    cbn [inorder]. rewrite <- !app_assoc. by cbn.
Qed.

Lemma sorted_plug c s :
  StronglySorted Z.le (inorder (plug c s)) → StronglySorted Z.le (inorder s).
Proof.
  destruct (inorder_plug c) as (L & R & ->). intros H.
  apply StronglySorted_app in H as (_ & _ & H).
  by apply StronglySorted_app in H as (_ & H & _).
Qed.

Lemma bst_plug c : ∀ s, bst (plug c s) → bst s.
Proof.
  induction c as [|f c IH]; intros s Hb; [done|]. cbn [plug] in Hb.
  apply IH in Hb. destruct f; cbn [fill bst] in Hb; tauto.
Qed.

(** The record of a node of the store, and the subtree rooted there. *)
Lemma node_subtree st t a n :
  holds_exactly st t → nodes st !! a = Some n →
  ∃ c l k r,
    t = plug c (N a l k r)
    ∧ n = mkNode k (root_of l) (root_of r) (ctx_par c)
    ∧ repr (nodes st) (Some a) l ∧ repr (nodes st) (Some a) r.
Proof.
  intros (Ht & Hdom) Hn.
  assert (Hin : a ∈ addrs t).
  { apply (elem_of_list_to_set (C := gset addr)). rewrite <- Hdom.
    apply elem_of_dom. eauto. }
  destruct (subtree_at t a Hin) as (c & l & k & r & ->).
  apply holds_tree_focus in Ht as (_ & _ & (Ha & Hl & Hr) & _).
  exists c, l, k, r. split; [done|]. split; [congruence|done].
Qed.

Lemma depth_plug c : ∀ s, (depth s ≤ depth (plug c s))%nat.
Proof.
  induction c as [|f c IH]; intros s; [done|]. cbn [plug].
  etrans; [|apply IH]. destruct f; cbn [fill depth]; lia.
Qed.

Lemma in_order_record st par t fuel :
  repr (nodes st) par t → (depth t ≤ fuel)%nat →
  in_order fuel (root_of t) record_key [] st = Ok (inorder t) st.
Proof.
  intros Hrep Hfuel.
  rewrite (in_order_spec record_key record_key_keeps_nodes t par); [|done|done].
  apply visits_record_key.
Qed.

Lemma ordered_at_nodes_strict st t fuel :
  holds_exactly st t → bst t → (depth t ≤ fuel)%nat →
  ordered_at_nodes true fuel st.
Proof.
  intros Ht Hb Hfuel a n Hn.
  destruct (node_subtree st t a n Ht Hn) as (c & l & k & r & -> & -> & Hl & Hr).
  apply bst_plug in Hb as (Hbl & Hbr & _).
  pose proof (depth_plug c (N a l k r)) as Hd. cbn [depth] in Hd.
  exists (inorder l), (inorder r). cbn [m_left m_right m_key].
  split; [eapply in_order_record; [done|lia]|].
  split; [eapply in_order_record; [done|lia]|]. done.
Qed.

Lemma ordered_at_nodes_weak st t fuel :
  holds_exactly st t → StronglySorted Z.le (inorder t) → (depth t ≤ fuel)%nat →
  ordered_at_nodes false fuel st.
Proof.
  intros Ht Hs Hfuel a n Hn.
  destruct (node_subtree st t a n Ht Hn) as (c & l & k & r & -> & -> & Hl & Hr).
  apply sorted_plug in Hs. cbn [inorder] in Hs.
  apply StronglySorted_app in Hs as (Hlr & _ & Hsr).
  apply StronglySorted_cons in Hsr as (Hkr & _).
  pose proof (depth_plug c (N a l k r)) as Hd. cbn [depth] in Hd.
  exists (inorder l), (inorder r). cbn [m_left m_right m_key].
  split; [eapply in_order_record; [done|lia]|].
  split; [eapply in_order_record; [done|lia]|]. split; [|done].
  rewrite Forall_forall. intros y Hy. apply Hlr; [done|by left].
Qed.

Lemma NoDup_inorder_plug c s : NoDup (inorder (plug c s)) → NoDup (inorder s).
Proof.
  destruct (inorder_plug c) as (L & R & ->). intros H.
  apply NoDup_app in H as (_ & _ & H). by apply NoDup_app in H as (H & _ & _).
Qed.

Lemma ordered_at_nodes_distinct st t fuel :
  holds_exactly st t → StronglySorted Z.le (inorder t) → NoDup (inorder t) →
  (depth t ≤ fuel)%nat →
  ordered_at_nodes true fuel st.
Proof.
  intros Ht Hs Hnd Hfuel a n Hn.
  destruct (node_subtree st t a n Ht Hn) as (c & l & k & r & -> & -> & Hl & Hr).
  apply sorted_plug in Hs. apply NoDup_inorder_plug in Hnd.
  cbn [inorder] in Hs, Hnd.
  apply StronglySorted_app in Hs as (Hlr & _ & Hsr).
  apply StronglySorted_cons in Hsr as (Hkr & _).
  apply NoDup_app in Hnd as (_ & Hdis & _).
  pose proof (depth_plug c (N a l k r)) as Hd. cbn [depth] in Hd.
  exists (inorder l), (inorder r). cbn [m_left m_right m_key].
  split; [eapply in_order_record; [done|lia]|].
  split; [eapply in_order_record; [done|lia]|]. split; [|done].
  rewrite Forall_forall. intros y Hy.
  assert (y <= k) by (apply Hlr; [done|by left]).
  assert (y ≠ k) by (intros ->; apply (Hdis k Hy); by left).
  lia.
Qed.

Lemma balanced_at_nodes_avl st t fuel :
  holds_exactly st t → avl t → (depth t ≤ fuel)%nat →
  Z.of_nat (tsize t) <= INT_MAX →
  balanced_at_nodes fuel st.
Proof.
  intros Ht Ha Hfuel Hmax a n Hn.
  destruct (node_subtree st t a n Ht Hn) as (c & l & k & r & -> & -> & Hl & Hr).
  apply avl_plug in Ha as ((Hd & _) & _).
  pose proof (depth_plug c (N a l k r)) as Hdp. cbn [depth] in Hdp.
  rewrite tsize_plug, tsize_N in Hmax.
  pose proof (theight_lt_tsize l). pose proof (theight_lt_tsize r).
  exists (theight l), (theight r). cbn [m_left m_right].
  split; [eapply height_spec; [done|lia|lia]|].
  split; [eapply height_spec; [done|lia|lia]|]. done.
Qed.

(** ** Sequences of insertions *)

Lemma holds_exactly_empty : holds_exactly empty_tree E.
Proof.
  split; [repeat split; constructor|]. cbn. by rewrite dom_empty_L.
Qed.

Lemma run_insertions_spec ops : ∀ st t fuel,
  holds_exactly st t → bst t → (tsize t + length ops ≤ fuel)%nat →
  ∃ st' t',
    run_insertions fuel ops st = Ok tt st'
    ∧ holds_exactly st' t' ∧ bst t'
    ∧ inorder t' ≡ₚ map bst_insertion_key ops ++ inorder t
    ∧ tsize t' = (tsize t + length ops)%nat.
Proof.
  induction ops as [|op ops IH]; intros st t fuel Ht Hb Hfuel.
  - exists st, t. cbn [run_insertions map app length ret].
    split; [done|]. split; [done|]. split; [done|]. split; [done|lia].
  - cbn [length] in Hfuel. pose proof (depth_le_tsize t) as Hd.
    assert (∃ st1 a0, (match op with
                       | ByIterInsert x => iter_insert fuel x
                       | ByInsert x => insert fuel x
                       end) st = Ok tt st1
                      ∧ holds_exactly st1 (ins a0 (bst_insertion_key op) t))
      as (st1 & a0 & Hrun & Ht1).
    { destruct op as [x|x]; [apply iter_insert_spec|apply insert_spec];
        try done; lia. }
    destruct (IH st1 (ins a0 (bst_insertion_key op) t) fuel Ht1)
      as (st' & t' & Hrun' & Ht' & Hb' & Hin' & Hsz').
    { by apply bst_ins. }
    { rewrite tsize_ins. lia. }
    exists st', t'. split.
    { destruct op; cbn [run_insertions]; (erewrite bind_Ok; [|exact Hrun]);
        exact Hrun'. }
    split; [done|]. split; [done|]. split.
    + rewrite Hin', inorder_ins. cbn [map bst_insertion_key].
      by rewrite <- Permutation_middle.
    + rewrite Hsz', tsize_ins. cbn [length]. lia.
Qed.

Lemma AVLTree_from_vec_spec ks : ∀ st t fuel,
  holds_exactly st t → avl t → StronglySorted Z.le (inorder t) →
  (2 * (tsize t + length ks) ≤ fuel)%nat →
  Z.of_nat (tsize t + length ks) <= INT_MAX →
  ∃ rots st' t',
    AVLTree_from_vec fuel ks st = Ok rots st'
    ∧ holds_exactly st' t' ∧ avl t'
    ∧ StronglySorted Z.le (inorder t')
    ∧ inorder t' ≡ₚ ks ++ inorder t
    ∧ tsize t' = (tsize t + length ks)%nat.
Proof.
  induction ks as [|e ks IH]; intros st t fuel Ht Ha Hs Hfuel Hmax.
  - exists [], st, t. cbn [AVLTree_from_vec app length ret].
    split; [done|]. split; [done|]. split; [done|]. split; [done|].
    split; [done|lia].
  - cbn [length] in Hfuel, Hmax.
    destruct (AVL_insert_spec st t fuel e Ht Ha) as
      (rots1 & st1 & t1 & Hrun1 & Ht1 & Ha1 & Hin1 & Hsz1); [lia|lia|].
    destruct (IH st1 t1 fuel Ht1 Ha1) as
      (rots' & st' & t' & Hrun' & Ht' & Ha' & Hs' & Hin' & Hsz').
    { rewrite Hin1. by apply sorted_ins. }
    { lia. }
    { lia. }
    exists (rots1 ++ rots'), st', t'. split.
    { cbn [AVLTree_from_vec]. erewrite bind_Ok; [|exact Hrun1].
      erewrite bind_Ok; [|exact Hrun']. done. }
    split; [done|]. split; [done|]. split; [done|]. split.
    + rewrite Hin', Hin1, inorder_ins. by rewrite <- Permutation_middle.
    + rewrite Hsz', Hsz1. cbn [length]. lia.
Qed.

Lemma in_order_traversal_record st t fuel :
  holds_exactly st t → (depth t ≤ fuel)%nat →
  in_order_traversal fuel record_key [] st = Ok (inorder t) st.
Proof.
  intros ((Hnd & Hrep & Hroot) & _) Hfuel.
  unfold in_order_traversal, bind, get_root. rewrite Hroot.
  by eapply in_order_record.
Qed.

(** C1, as the code has it.  Any sequence of insertions into an empty
    [BinarySearchTree], each by [iter_insert] or by the recursive
    [insert], runs to completion; the in-order traversal of the result
    yields the inserted keys in non-decreasing order, and at every node the
    keys of the left subtree are strictly smaller than the key of the node
    and those of the right subtree are greater or equal.  Any sequence of
    [AVLTree::insert] into an empty [AVLTree] runs to completion as well
    and its in-order traversal yields the inserted keys in non-decreasing
    order; at every node the keys of the left subtree are smaller than or
    equal to the key of the node (a rotation can move an equal key to the
    left) and those of the right subtree are greater or equal, and when the
    inserted keys are pairwise distinct the keys of the left subtree are
    strictly smaller. *)
Theorem C1_insertions_keep_order (ops : list bst_insertion) (keys : list key)
    (fuel : nat) :
  (length ops ≤ fuel)%nat → (2 * length keys ≤ fuel)%nat →
  Z.of_nat (length keys) <= INT_MAX →
  (∃ st ks,
     run_insertions fuel ops empty_tree = Ok tt st
     ∧ in_order_traversal fuel record_key [] st = Ok ks st
     ∧ ks ≡ₚ map bst_insertion_key ops
     ∧ Sorted Z.le ks
     ∧ ordered_at_nodes true fuel st)
  ∧ (∃ rots st ks,
       AVLTree_from_vec fuel keys empty_tree = Ok rots st
       ∧ in_order_traversal fuel record_key [] st = Ok ks st
       ∧ ks ≡ₚ keys
       ∧ Sorted Z.le ks
       ∧ ordered_at_nodes false fuel st
       ∧ (NoDup keys → ordered_at_nodes true fuel st)).
Proof.
  intros Hf1 Hf2 Hmax. split.
  - destruct (run_insertions_spec ops empty_tree E fuel holds_exactly_empty)
      as (st & t & Hrun & Ht & Hb & Hin & Hsz); [done|cbn; lia|].
    cbn in Hsz. pose proof (depth_le_tsize t) as Hd.
    exists st, (inorder t). split; [done|].
    split; [apply in_order_traversal_record; [done|lia]|].
    split; [by rewrite Hin, app_nil_r|].
    split; [by apply StronglySorted_Sorted, bst_sorted|].
    eapply ordered_at_nodes_strict; [done|done|lia].
  - destruct (AVLTree_from_vec_spec keys empty_tree E fuel holds_exactly_empty)
      as (rots & st & t & Hrun & Ht & Ha & Hs & Hin & Hsz);
      [done|constructor|cbn; lia|cbn; lia|].
    cbn in Hsz. pose proof (depth_le_tsize t) as Hd.
    exists rots, st, (inorder t). split; [done|].
    split; [apply in_order_traversal_record; [done|lia]|].
    split; [by rewrite Hin, app_nil_r|].
    split; [by apply StronglySorted_Sorted|].
    split; [eapply ordered_at_nodes_weak; [done|done|lia]|].
    intros Hnd. eapply ordered_at_nodes_distinct; [done|done| |lia].
    by rewrite Hin, app_nil_r.
Qed.

(** C2.  Any sequence of [AVLTree::insert] into an empty [AVLTree] runs to
    completion and leaves an object that holds a tree [t], and no node
    besides, whose keys are the inserted keys and in which, at every node,
    the heights of the left and right subtree ([-1] for an absent subtree)
    differ by at most one.  The heights are those of the tree itself
    ([theight]); [height], the member that [rebalance] calls, computes the
    same difference at every node of the object. *)
Theorem C2_avl_insertions_balanced (keys : list key) (fuel : nat) :
  (2 * length keys ≤ fuel)%nat → Z.of_nat (length keys) <= INT_MAX →
  ∃ rots st t,
    AVLTree_from_vec fuel keys empty_tree = Ok rots st
    ∧ holds_exactly st t
    ∧ inorder t ≡ₚ keys
    ∧ avl t
    ∧ balanced_at_nodes fuel st.
Proof.
  intros Hfuel Hmax.
  destruct (AVLTree_from_vec_spec keys empty_tree E fuel holds_exactly_empty)
    as (rots & st & t & Hrun & Ht & Ha & Hs & Hin & Hsz);
    [done|constructor|cbn; lia|cbn; lia|].
  cbn in Hsz. pose proof (depth_le_tsize t) as Hd.
  exists rots, st, t. split; [done|]. split; [done|].
  split; [by rewrite Hin, app_nil_r|]. split; [done|].
  eapply balanced_at_nodes_avl; [done|done|lia|lia].
Qed.

(** ** Rotations without a child to rotate with *)

(** C10.  [left_rotate(x)] on a node without right child, and
    [right_rotate(x)] on a node without left child, return normally and
    leave the whole tree object as it was. *)
Theorem C10_rotation_without_child_is_identity (st : Tree) (x : addr) (n : Node) :
  nodes st !! x = Some n →
  (m_right n = None → left_rotate (Some x) st = Ok tt st)
  ∧ (m_left n = None → right_rotate (Some x) st = Ok tt st).
Proof.
  intros Hx. split; intros Hnone.
  - unfold left_rotate. run get_right_eq. by rewrite Hnone.
  - unfold right_rotate. run get_left_eq. by rewrite Hnone.
Qed.

(** ** Searching for an absent key *)

Lemma search_absent x t : ∀ par fuel st,
  repr (nodes st) par t → (depth t ≤ fuel)%nat → x ∉ inorder t →
  search fuel (root_of t) x st = Ok None st.
Proof.
  induction t as [|a l IHl k r IHr]; intros par fuel st Hrep Hfuel Hx;
    [by destruct fuel|].
  destruct fuel as [|fuel]; [simpl in Hfuel; lia|]. cbn [depth] in Hfuel.
  destruct Hrep as (Ha & Hl & Hr). cbn [inorder] in Hx.
  cbn [search root_of]. run get_key_eq.
  destruct (Z.eqb_spec x k) as [->|Hne]; [exfalso; apply Hx; list_mem|].
  destruct (x <? k).
  - run get_left_eq. eapply IHl; [done|lia|]. intros ?. apply Hx. list_mem.
  - run get_right_eq. eapply IHr; [done|lia|]. intros ?. apply Hx. list_mem.
Qed.

(** C5, as the code has it.  On an empty tree [minimum()], [maximum()],
    [successor(x)], [predecessor(x)] and also [remove(x)] throw
    [EmptyTreeError] and leave the object unchanged.  On a non-empty
    well-formed tree that does not contain [x], the calls [remove(x)],
    [successor(x)] and [predecessor(x)] throw [ValueError] and leave the
    object unchanged. *)
Theorem C5_failures_on_empty_and_absent (st : Tree) (fuel : nat) (x : key)
    (ks : list key) :
  (m_root st = None →
     minimum fuel st = Throw (EmptyTreeError msg_empty) st
     ∧ maximum fuel st = Throw (EmptyTreeError msg_empty) st
     ∧ successor fuel x st = Throw (EmptyTreeError msg_empty) st
     ∧ predecessor fuel x st = Throw (EmptyTreeError msg_empty) st
     ∧ remove fuel x st = Throw (EmptyTreeError msg_empty) st)
  ∧ (well_formed st → m_root st ≠ None → (size (nodes st) ≤ fuel)%nat →
     in_order_traversal fuel record_key [] st = Ok ks st → x ∉ ks →
     remove fuel x st = Throw (ValueError msg_not_in) st
     ∧ successor fuel x st = Throw (ValueError msg_not_in) st
     ∧ predecessor fuel x st = Throw (ValueError msg_not_in) st).
Proof.
  split.
  - intros Hroot. unfold minimum, maximum, successor, predecessor, remove,
      bind, get_root. by rewrite Hroot.
  - intros [t Ht] Hne Hfuel Hks Hx.
    pose proof (tsize_le_store st t Ht) as Hsz.
    pose proof (depth_le_tsize t) as Hd.
    destruct Ht as (Hnd & Hrep & Hroot).
    assert (ks = inorder t) as ->.
    { unfold in_order_traversal, bind, get_root in Hks. rewrite Hroot in Hks.
      erewrite in_order_record in Hks; [|done|lia]. congruence. }
    assert (Hs : search fuel (m_root st) x st = Ok None st).
    { rewrite Hroot. eapply search_absent; [done|lia|done]. }
    unfold successor, predecessor, remove, bind, get_root.
    destruct (m_root st) eqn:Hr; [|done]. by rewrite Hs.
Qed.

(** ** What a rotation changes *)

Lemma parent_changes_perm (h h' : gmap addr Node) (L : list addr) :
  NoDup L →
  (∀ z, z ∈ L → is_Some (h !! z)
               ∧ m_parent <$> h !! z ≠ m_parent <$> h' !! z) →
  (∀ z, z ∉ L → m_parent <$> h !! z = m_parent <$> h' !! z) →
  parent_changes h h' ≡ₚ L.
Proof.
  intros HL Hin Hout. unfold parent_changes. apply NoDup_Permutation.
  - apply NoDup_filter, NoDup_elements.
  - done.
  - intros z. rewrite list_elem_of_filter, elem_of_elements, elem_of_union,
      !elem_of_dom. split.
    + intros [Hne _]. destruct (decide (z ∈ L)) as [|Hz]; [done|].
      by apply Hout in Hz.
    + intros Hz. destruct (Hin z Hz) as [Hs Hne]. auto.
Qed.

Lemma repr_ctx_head h c hole : repr_ctx h c hole → head_frame_ok h c hole.
Proof. destruct c as [|[p k s|p s k] c]; cbn; tauto. Qed.

Lemma ctx_par_not_in_tree c t z :
  NoDup (addrs t ++ ctx_addrs c) → z ∈ addrs t → ctx_par c ≠ Some z.
Proof.
  intros Hnd Hz. destruct c as [|f c]; [done|]. cbn [ctx_par ctx_addrs] in *.
  intros [= <-]. apply NoDup_app in Hnd as (_ & Hd & _).
  apply (Hd _ Hz). list_mem.
Qed.

(** The parent back-references a rotation changes, from the trees held
    before and after. *)
Lemma rotation_parent_changes st st' c x y kx ky (b : tree)
    (t t' : tree) (lx rx lx' rx' ly ry ly' ry' : ptr) :
  focus st c t → focus st' c t' →
  x ≠ y → x ∈ addrs t → y ∈ addrs t →
  (∀ b0, root_of b = Some b0 → b0 ≠ x ∧ b0 ≠ y ∧ b0 ∈ addrs t) →
  nodes st !! x = Some (mkNode kx lx rx (ctx_par c)) →
  nodes st !! y = Some (mkNode ky ly ry (Some x)) →
  nodes st' !! x = Some (mkNode kx lx' rx' (Some y)) →
  nodes st' !! y = Some (mkNode ky ly' ry' (ctx_par c)) →
  (∀ b0, root_of b = Some b0 →
     ∃ nb nb', nodes st !! b0 = Some nb ∧ nodes st' !! b0 = Some nb'
               ∧ m_parent nb = Some y ∧ m_parent nb' = Some x) →
  (∀ z, z ≠ x → z ≠ y → root_of b ≠ Some z → ctx_par c ≠ Some z →
        nodes st' !! z = nodes st !! z) →
  parent_changes (nodes st) (nodes st') ≡ₚ x :: y :: option_list (root_of b).
Proof.
  intros Hf Hf' Hxy Hxin Hyin Hb Hx Hy Hx' Hy' Hb' Hsame.
  pose proof Hf as (Hnd & Hc & _). pose proof Hf' as (_ & Hc' & _).
  pose proof (ctx_par_not_in_tree c t x Hnd Hxin) as Hpx.
  pose proof (ctx_par_not_in_tree c t y Hnd Hyin) as Hpy.
  apply parent_changes_perm.
  - destruct (root_of b) as [b0|] eqn:Hrb; simpl.
    + destruct (Hb b0 eq_refl) as (? & ? & ?).
      rewrite !NoDup_cons, !not_elem_of_cons.
      repeat split; try apply not_elem_of_nil; try apply NoDup_nil_2;
        congruence.
    + rewrite !NoDup_cons, !not_elem_of_cons.
      repeat split; try apply not_elem_of_nil; try apply NoDup_nil_2;
        congruence.
  - intros z Hz. apply elem_of_cons in Hz as [->|Hz];
      [|apply elem_of_cons in Hz as [->|Hz] ].
    + rewrite Hx, Hx'. split; [eauto|]. cbn. congruence.
    + rewrite Hy, Hy'. split; [eauto|]. cbn. congruence.
    + destruct (root_of b) as [b0|] eqn:Hrb; simpl in Hz;
        [|by apply elem_of_nil in Hz].
      apply list_elem_of_singleton in Hz as ->.
      destruct (Hb' b0 eq_refl) as (nb & nb' & -> & -> & Hp & Hp').
      split; [eauto|]. cbn. congruence.
  - intros z Hz.
    assert (z ≠ x) by (intros ->; apply Hz; list_mem).
    assert (z ≠ y) by (intros ->; apply Hz; list_mem).
    assert (root_of b ≠ Some z).
    { intros Heq. apply Hz. rewrite Heq. simpl. list_mem. }
    destruct (decide (ctx_par c = Some z)) as [Hp|Hp];
      [|by rewrite Hsame].
    destruct c as [|[p k s|p s k] c]; [done| |];
      cbn [ctx_par frame_addr] in Hp; injection Hp as ->;
      destruct Hc as (-> & _); destruct Hc' as (-> & _); done.
Qed.

(** C9, as the code has it.  [left_rotate(x)] on a node [x] with right child
    [y] (and [right_rotate(x)] on a node with left child [y]) hands the
    inner subtree [b] of [y] over to [x], puts [y] in the slot [x] had (the
    child slot of the former parent of [x], or the root), and makes [x] a
    child of [y].  The parent back-references that change are those of [x],
    of [y], and of the root of [b] when [b] is present: three when [b] is
    present, two when it is absent. *)
Theorem C9_rotation_effect st c x a kx y b ky g :
  (focus st c (N x a kx (N y b ky g)) →
   ∃ st',
     left_rotate (Some x) st = Ok tt st'
     ∧ focus st' c (N y (N x a kx b) ky g)
     ∧ nodes st' !! x = Some (mkNode kx (root_of a) (root_of b) (Some y))
     ∧ nodes st' !! y = Some (mkNode ky (Some x) (root_of g) (ctx_par c))
     ∧ head_frame_ok (nodes st') c (Some y)
     ∧ (c = [] → m_root st' = Some y)
     ∧ parent_changes (nodes st) (nodes st')
       ≡ₚ x :: y :: option_list (root_of b))
  ∧ (focus st c (N x (N y a ky b) kx g) →
     ∃ st',
       right_rotate (Some x) st = Ok tt st'
       ∧ focus st' c (N y a ky (N x b kx g))
       ∧ nodes st' !! x = Some (mkNode kx (root_of b) (root_of g) (Some y))
       ∧ nodes st' !! y = Some (mkNode ky (root_of a) (Some x) (ctx_par c))
       ∧ head_frame_ok (nodes st') c (Some y)
       ∧ (c = [] → m_root st' = Some y)
       ∧ parent_changes (nodes st) (nodes st')
         ≡ₚ x :: y :: option_list (root_of b)).
Proof.
  split; intros Hf.
  - destruct (left_rotate_focus st c x a kx y b ky g Hf)
      as (st' & Hrun & Hf' & Hdom & Hsame).
    exists st'. split; [done|]. split; [done|].
    pose proof Hf as (Hnd & _ & (Hx & _ & Hy & Hb & _) & _).
    pose proof Hf' as (_ & Hc' & (Hy' & (Hx' & _ & Hb') & _) & Hroot').
    split; [done|]. split; [done|].
    split; [by apply repr_ctx_head|]. split; [by intros ->|].
    cbn [addrs] in Hnd. pose proof Hnd as Hnd2. nodup_split.
    eapply (rotation_parent_changes st st' c x y kx ky b); try done.
    + nd_solve.
    + list_mem.
    + list_mem.
    + intros b0 Hb0. destruct b as [|b1 bl kb br]; [done|].
      injection Hb0 as ->. cbn [addrs] in *. nodup_split.
      split; [nd_solve|]. split; [nd_solve|list_mem].
    + intros b0 Hb0. destruct b as [|b1 bl kb br]; [done|].
      injection Hb0 as ->. destruct Hb as (Hb0 & _). destruct Hb' as (Hb0' & _).
      eexists _, _. by repeat split.
  - destruct (right_rotate_focus st c x a kx y b ky g Hf)
      as (st' & Hrun & Hf' & Hdom & Hsame).
    exists st'. split; [done|]. split; [done|].
    pose proof Hf as (Hnd & _ & (Hx & (Hy & _ & Hb) & _) & _).
    pose proof Hf' as (_ & Hc' & (Hy' & _ & (Hx' & Hb' & _)) & Hroot').
    split; [done|]. split; [done|].
    split; [by apply repr_ctx_head|]. split; [by intros ->|].
    cbn [addrs] in Hnd. pose proof Hnd as Hnd2. nodup_split.
    eapply (rotation_parent_changes st st' c x y kx ky b); try done.
    + nd_solve.
    + list_mem.
    + list_mem.
    + intros b0 Hb0. destruct b as [|b1 bl kb br]; [done|].
      injection Hb0 as ->. cbn [addrs] in *. nodup_split.
      split; [nd_solve|]. split; [nd_solve|list_mem].
    + intros b0 Hb0. destruct b as [|b1 bl kb br]; [done|].
      injection Hb0 as ->. destruct Hb as (Hb0 & _). destruct Hb' as (Hb0' & _).
      eexists _, _. by repeat split.
Qed.

(** ** Concrete cases *)

(** C7.  Inserting 10, 20, 30 into an empty AVL tree: the first two
    insertions rotate nothing and leave 10 at the root with 20 to its right;
    the third makes exactly one rotation call, a left rotation at the node
    holding 10, and the result has 20 at the root with children 10 and
    30. *)
Theorem C7_avl_insert_10_20_30 (n : nat) :
  ∃ st2 st3 : Tree,
    AVLTree_from_vec (6 + n) [10; 20] empty_tree = Ok [] st2
    ∧ nodes st2 !! 1%positive = Some (mkNode 10 None (Some 2%positive) None)
    ∧ AVL_insert (6 + n) 30 st2 = Ok [LeftRotate (Some 1%positive)] st3
    ∧ AVLTree_from_vec (6 + n) [10; 20; 30] empty_tree
      = Ok [LeftRotate (Some 1%positive)] st3
    ∧ m_root st3 = Some 2%positive
    ∧ nodes st3 !! 2%positive
      = Some (mkNode 20 (Some 1%positive) (Some 3%positive) None)
    ∧ nodes st3 !! 1%positive = Some (mkNode 10 None None (Some 2%positive))
    ∧ nodes st3 !! 3%positive = Some (mkNode 30 None None (Some 2%positive)).
Proof.
  eexists _, _. split; [vm_compute; reflexivity|].
  split; [vm_compute; reflexivity|].
  split; [vm_compute; reflexivity|].
  repeat split; vm_compute; reflexivity.
Qed.

(** Well-formedness of a concrete object, by evaluation. *)
Ltac holds_concrete :=
  repeat split;
  first [ by apply (bool_decide_unpack _); vm_compute
        | vm_compute; reflexivity ].

(** C3 (the code departs from it).  On the layout [5, absent, 8, 1] the
    constructor dequeues the absent left child of the root at index 3 and
    reads [node -> m_left] through it: a null dereference, not an error
    the caller can catch.  A layout that never dequeues an absent entry,
    such as [5, 3, 8, absent, 4, absent, 9], is built as expected. *)
Theorem C3_bfs_constructor_null_dereference :
  BinaryTree_from_bfs [Some 5; None; Some 8; Some 1] empty_tree
  = Fault NullDeref
  ∧ ∃ st,
      BinaryTree_from_bfs
        [Some 5; Some 3; Some 8; None; Some 4; None; Some 9] empty_tree
      = Ok tt st
      ∧ holds_exactly st
          (N 1%positive (N 2%positive E 3 (N 4%positive E 4 E)) 5 (N 3%positive E 8 (N 5%positive E 9 E))).
Proof.
  split; [vm_compute; reflexivity|].
  eexists. split; [vm_compute; reflexivity|].
  split; [split; [|split] |].
  - by apply (bool_decide_unpack _); vm_compute.
  - repeat split; vm_compute; reflexivity.
  - vm_compute. reflexivity.
  - by apply (bool_decide_unpack _); vm_compute.
Qed.

(** C4 (the code departs from it).  [remove(5)] on the tree whose only node
    holds 5 reaches [transplant(u, nullptr)] with [u] the root; the root
    branch of [transplant] writes [v -> m_parent] without the test for
    [v != nullptr] that the other branch has: a null dereference. *)
Theorem C4_remove_last_node_null_dereference (n : nat) :
  holds_exactly sample_single (N 1%positive E 5 E)
  ∧ transplant (Some 1%positive) None sample_single = Fault NullDeref
  ∧ remove (S n) 5 sample_single = Fault NullDeref.
Proof.
  split; [|split; vm_compute; reflexivity].
  split; [split; [|split] |].
  - by apply (bool_decide_unpack _); vm_compute.
  - repeat split; vm_compute; reflexivity.
  - vm_compute. reflexivity.
  - by apply (bool_decide_unpack _); vm_compute.
Qed.

(** Counterexample to C1 as stated: inserting 10, 10, 10 with
    [AVLTree::insert] rotates the first 10 into the left subtree of the
    second, so the strict ordering at every node fails. *)
Lemma C1_counterexample_avl_duplicates :
  ∃ rots st,
    AVLTree_from_vec 6 [10; 10; 10] empty_tree = Ok rots st
    ∧ nodes st !! 2%positive
      = Some (mkNode 10 (Some 1%positive) (Some 3%positive) None)
    ∧ nodes st !! 1%positive = Some (mkNode 10 None None (Some 2%positive))
    ∧ ¬ ordered_at_nodes true 6 st.
Proof.
  eexists _, _. split; [vm_compute; reflexivity|].
  split; [vm_compute; reflexivity|]. split; [vm_compute; reflexivity|].
  intros H.
  destruct (H 2%positive (mkNode 10 (Some 1%positive) (Some 3%positive) None))
    as (lks & rks & Hl & _ & Hlt & _); [vm_compute; reflexivity|].
  vm_compute in Hl. injection Hl as <-.
  apply Forall_cons in Hlt as [Hlt _]. cbn in Hlt. lia.
Qed.

(** Counterexample to C5 as stated: on the empty tree [remove(42)] throws
    [EmptyTreeError], not the error for an absent key. *)
Lemma C5_counterexample_remove_on_empty :
  (42 ∉ @nil key)
  ∧ in_order_traversal 1 record_key [] empty_tree = Ok [] empty_tree
  ∧ remove 1 42 empty_tree = Throw (EmptyTreeError msg_empty) empty_tree
  ∧ ∀ msg st, remove 1 42 empty_tree ≠ Throw (ValueError msg) st.
Proof.
  split; [apply not_elem_of_nil|]. split; [reflexivity|].
  split; [reflexivity|]. intros msg st. vm_compute. discriminate.
Qed.

(** Counterexample to C9 as stated: the left rotation at the root of the
    chain 10 -> 20 -> 30 (20 has no left subtree) changes two parent
    back-references, not three. *)
Lemma C9_counterexample_two_parents_change :
  focus sample_chain [] (N 1%positive E 10 (N 2%positive E 20 (N 3%positive E 30 E)))
  ∧ ∃ st',
      left_rotate (Some 1%positive) sample_chain = Ok tt st'
      ∧ parent_changes (nodes sample_chain) (nodes st')
        ≡ₚ [1%positive; 2%positive]
      ∧ length (parent_changes (nodes sample_chain) (nodes st')) ≠ 3%nat.
Proof.
  split.
  - split; [|split; [|split] ].
    + by apply (bool_decide_unpack _); vm_compute.
    + done.
    + repeat split; vm_compute; reflexivity.
    + vm_compute. reflexivity.
  - eexists. split; [vm_compute; reflexivity|].
    split; [vm_compute; apply perm_swap|]. vm_compute. discriminate.
Qed.

(** ** The theorems at concrete inputs *)

Lemma C1_witness :
  (∃ st ks,
     run_insertions 6 [ByIterInsert 5; ByInsert 3; ByIterInsert 8] empty_tree
     = Ok tt st
     ∧ in_order_traversal 6 record_key [] st = Ok ks st
     ∧ ks ≡ₚ map bst_insertion_key [ByIterInsert 5; ByInsert 3; ByIterInsert 8]
     ∧ Sorted Z.le ks
     ∧ ordered_at_nodes true 6 st)
  ∧ (∃ rots st ks,
       AVLTree_from_vec 6 [10; 10; 10] empty_tree = Ok rots st
       ∧ in_order_traversal 6 record_key [] st = Ok ks st
       ∧ ks ≡ₚ [10; 10; 10]
       ∧ Sorted Z.le ks
       ∧ ordered_at_nodes false 6 st
       ∧ (NoDup [10; 10; 10] → ordered_at_nodes true 6 st)).
Proof.
  apply (C1_insertions_keep_order
           [ByIterInsert 5; ByInsert 3; ByIterInsert 8] [10; 10; 10] 6).
  - simpl. lia.
  - simpl. lia.
  - vm_compute. discriminate.
Defined.

Lemma C2_witness :
  ∃ rots st t,
    AVLTree_from_vec 6 [10; 20; 30] empty_tree = Ok rots st
    ∧ holds_exactly st t
    ∧ inorder t ≡ₚ [10; 20; 30]
    ∧ avl t
    ∧ balanced_at_nodes 6 st.
Proof.
  apply (C2_avl_insertions_balanced [10; 20; 30] 6).
  - simpl. lia.
  - vm_compute. discriminate.
Defined.

Lemma sample_chain_well_formed : well_formed sample_chain.
Proof.
  exists (N 1%positive E 10 (N 2%positive E 20 (N 3%positive E 30 E))).
  holds_concrete.
Defined.

Lemma sample_bfs_well_formed : well_formed sample_bfs.
Proof.
  exists (N 1%positive (N 2%positive E 3 (N 4%positive E 4 E)) 5
            (N 3%positive E 8 (N 5%positive E 9 E))).
  holds_concrete.
Defined.

Lemma C5_witness :
  (minimum 1 empty_tree = Throw (EmptyTreeError msg_empty) empty_tree
   ∧ maximum 1 empty_tree = Throw (EmptyTreeError msg_empty) empty_tree
   ∧ successor 1 42 empty_tree = Throw (EmptyTreeError msg_empty) empty_tree
   ∧ predecessor 1 42 empty_tree = Throw (EmptyTreeError msg_empty) empty_tree
   ∧ remove 1 42 empty_tree = Throw (EmptyTreeError msg_empty) empty_tree)
  ∧ (remove 3 42 sample_chain = Throw (ValueError msg_not_in) sample_chain
     ∧ successor 3 42 sample_chain = Throw (ValueError msg_not_in) sample_chain
     ∧ predecessor 3 42 sample_chain
       = Throw (ValueError msg_not_in) sample_chain).
Proof.
  split.
  - apply (C5_failures_on_empty_and_absent empty_tree 1 42 []). reflexivity.
  - apply (C5_failures_on_empty_and_absent sample_chain 3 42 [10; 20; 30]).
    + exact sample_chain_well_formed.
    + vm_compute. discriminate.
    + vm_compute. lia.
    + vm_compute. reflexivity.
    + intros H. repeat (apply elem_of_cons in H as [H|H]; [discriminate H|]).
      by apply elem_of_nil in H.
Defined.

Lemma C6_witness :
  ∃ pre ino post : list key,
    (pre_order_traversal 15 record_key [] sample_bfs = Ok pre sample_bfs
     ∧ pre_order_iter_traversal 15 record_key [] sample_bfs = Ok pre sample_bfs
     ∧ in_order_traversal 15 record_key [] sample_bfs = Ok ino sample_bfs
     ∧ in_order_iter_traversal 15 record_key [] sample_bfs = Ok ino sample_bfs
     ∧ post_order_traversal 15 record_key [] sample_bfs = Ok post sample_bfs
     ∧ post_order_iter_traversal_twostacks 15 record_key [] sample_bfs
       = Ok post sample_bfs
     ∧ post_order_iter_traversal_onestack 15 record_key [] sample_bfs
       = Ok post sample_bfs)
    ∧ ∀ (V : Type) (cb : Callback V) (v : V), keeps_nodes cb →
        pre_order_traversal 15 cb v sample_bfs = visits cb pre v sample_bfs
        ∧ pre_order_iter_traversal 15 cb v sample_bfs
          = visits cb pre v sample_bfs
        ∧ in_order_traversal 15 cb v sample_bfs = visits cb ino v sample_bfs
        ∧ in_order_iter_traversal 15 cb v sample_bfs
          = visits cb ino v sample_bfs
        ∧ post_order_traversal 15 cb v sample_bfs = visits cb post v sample_bfs
        ∧ post_order_iter_traversal_twostacks 15 cb v sample_bfs
          = visits cb post v sample_bfs
        ∧ post_order_iter_traversal_onestack 15 cb v sample_bfs
          = visits cb post v sample_bfs.
Proof.
  apply (C6_traversal_variants_agree sample_bfs 15).
  - exact sample_bfs_well_formed.
  - vm_compute. lia.
Defined.

Lemma C8_witness :
  ∃ (r : Z) (st' : Tree),
    find 5 4 sample_bfs = Ok r st'
    ∧ nodes st' = nodes sample_bfs ∧ m_root st' = m_root sample_bfs
    ∧ (4 ∉ [3; 4; 5; 8; 9] → r = -1)
    ∧ (4 ∈ [3; 4; 5; 8; 9] →
       ∃ i : nat, r = Z.of_nat i ∧ [3; 4; 5; 8; 9] !! i = Some 4
                  ∧ ∀ j, (j < i)%nat → [3; 4; 5; 8; 9] !! j ≠ Some 4)
    ∧ in_order_traversal 5 record_key [] sample_bfs
      = Ok [3; 4; 5; 8; 9] sample_bfs.
Proof.
  apply (C8_find_rank sample_bfs
           (N 1%positive (N 2%positive E 3 (N 4%positive E 4 E)) 5
              (N 3%positive E 8 (N 5%positive E 9 E))) 5 4).
  - holds_concrete.
  - vm_compute. discriminate.
  - vm_compute. lia.
Defined.

Lemma C9_witness :
  (∃ st',
     left_rotate (Some 1%positive) sample_right_left = Ok tt st'
     ∧ focus st' []
         (N 2%positive (N 1%positive E 10 (N 3%positive E 20 E)) 30 E)
     ∧ nodes st' !! 1%positive
       = Some (mkNode 10 (root_of E) (root_of (N 3%positive E 20 E))
                 (Some 2%positive))
     ∧ nodes st' !! 2%positive
       = Some (mkNode 30 (Some 1%positive) (root_of E) (ctx_par []))
     ∧ head_frame_ok (nodes st') [] (Some 2%positive)
     ∧ (@nil frame = [] → m_root st' = Some 2%positive)
     ∧ parent_changes (nodes sample_right_left) (nodes st')
       ≡ₚ 1%positive :: 2%positive
          :: option_list (root_of (N 3%positive E 20 E)))
  ∧ (∃ st',
       right_rotate (Some 1%positive) sample_left_right = Ok tt st'
       ∧ focus st' []
           (N 2%positive E 10 (N 1%positive (N 3%positive E 20 E) 30 E))
       ∧ nodes st' !! 1%positive
         = Some (mkNode 30 (root_of (N 3%positive E 20 E)) (root_of E)
                   (Some 2%positive))
       ∧ nodes st' !! 2%positive
         = Some (mkNode 10 (root_of E) (Some 1%positive) (ctx_par []))
       ∧ head_frame_ok (nodes st') [] (Some 2%positive)
       ∧ (@nil frame = [] → m_root st' = Some 2%positive)
       ∧ parent_changes (nodes sample_left_right) (nodes st')
         ≡ₚ 1%positive :: 2%positive
            :: option_list (root_of (N 3%positive E 20 E))).
Proof.
  split.
  - apply (C9_rotation_effect sample_right_left [] 1%positive E 10 2%positive
             (N 3%positive E 20 E) 30 E).
    holds_concrete.
  - apply (C9_rotation_effect sample_left_right [] 1%positive E 30 2%positive
             (N 3%positive E 20 E) 10 E).
    holds_concrete.
Defined.

Lemma C10_witness :
  (left_rotate (Some 3%positive) sample_chain = Ok tt sample_chain)
  ∧ (right_rotate (Some 3%positive) sample_chain = Ok tt sample_chain).
Proof.
  split.
  - apply (C10_rotation_without_child_is_identity sample_chain 3%positive
             (mkNode 30 None None (Some 2%positive))).
    + vm_compute. reflexivity.
    + reflexivity.
  - apply (C10_rotation_without_child_is_identity sample_chain 3%positive
             (mkNode 30 None None (Some 2%positive))).
    + vm_compute. reflexivity.
    + reflexivity.
Defined.

(** * Further properties of the code *)

(** ** [size] *)

Lemma length_inorder t : length (inorder t) = tsize t.
Proof.
  unfold tsize. induction t as [|a l IHl k r IHr]; [done|].
  simpl. rewrite !length_app. simpl. lia.
Qed.

Lemma size_node_spec t : ∀ par fuel st,
  repr (nodes st) par t → (depth t ≤ fuel)%nat →
  Z.of_nat (tsize t) < SIZE_MOD →
  size_node fuel (root_of t) st = Ok (Z.of_nat (tsize t)) st.
Proof.
  induction t as [|a l IHl k r IHr]; intros par fuel st Hrep Hfuel Hmax;
    [by destruct fuel|].
  destruct fuel as [|fuel]; [simpl in Hfuel; lia|].
  destruct Hrep as (Ha & Hl & Hr). cbn [depth] in Hfuel.
  rewrite tsize_N in Hmax |- *.
  cbn [size_node root_of].
  run get_left_eq. erewrite bind_Ok; [|eapply IHl; [done|lia|lia] ].
  run get_right_eq. erewrite bind_Ok; [|eapply IHr; [done|lia|lia] ].
  unfold ret. f_equal. rewrite Z.mod_small; lia.
Qed.

(** X1.  On a well-formed tree with fewer than [2^64] nodes, [size()] is the
    number of keys the in-order traversal visits. *)
Theorem size_counts_visited_keys st fuel :
  well_formed st → (size (nodes st) ≤ fuel)%nat →
  Z.of_nat (size (nodes st)) < SIZE_MOD →
  ∃ ks,
    in_order_traversal fuel record_key [] st = Ok ks st
    ∧ tree_size fuel st = Ok (Z.of_nat (length ks)) st.
Proof.
  intros [t Ht] Hfuel Hmax. pose proof (tsize_le_store st t Ht) as Hsz.
  pose proof (depth_le_tsize t) as Hd. destruct Ht as (Hnd & Hrep & Hroot).
  exists (inorder t). split.
  - unfold in_order_traversal, bind, get_root. rewrite Hroot.
    eapply in_order_record; [done|lia].
  - unfold tree_size, bind, get_root. rewrite Hroot, length_inorder.
    eapply size_node_spec; [done|lia|lia].
Qed.

(** X2.  After any sequence of insertions into an empty tree, by
    [iter_insert] and [insert] or by [AVLTree::insert], [size()] is the
    number of insertions made. *)
Theorem size_after_insertions (ops : list bst_insertion) (keys : list key)
    (fuel : nat) :
  (length ops ≤ fuel)%nat → (2 * length keys ≤ fuel)%nat →
  Z.of_nat (length keys) <= INT_MAX → Z.of_nat (length ops) < SIZE_MOD →
  (∃ st, run_insertions fuel ops empty_tree = Ok tt st
         ∧ tree_size fuel st = Ok (Z.of_nat (length ops)) st)
  ∧ (∃ rots st, AVLTree_from_vec fuel keys empty_tree = Ok rots st
                ∧ tree_size fuel st = Ok (Z.of_nat (length keys)) st).
Proof.
  intros Hf1 Hf2 Hmax Hmax2. split.
  - destruct (run_insertions_spec ops empty_tree E fuel holds_exactly_empty)
      as (st & t & Hrun & ((Hnd & Hrep & Hroot) & _) & _ & _ & Hsz);
      [done|cbn; lia|].
    cbn in Hsz. pose proof (depth_le_tsize t) as Hd.
    exists st. split; [done|].
    unfold tree_size, bind, get_root. rewrite Hroot, <- Hsz.
    eapply size_node_spec; [done|lia|lia].
  - destruct (AVLTree_from_vec_spec keys empty_tree E fuel holds_exactly_empty)
      as (rots & st & t & Hrun & ((Hnd & Hrep & Hroot) & _) & _ & _ & _ & Hsz);
      [done|constructor|cbn; lia|cbn; lia|].
    cbn in Hsz. pose proof (depth_le_tsize t) as Hd.
    exists rots, st. split; [done|].
    unfold tree_size, bind, get_root. rewrite Hroot, <- Hsz.
    eapply size_node_spec; [done|lia|].
    unfold SIZE_MOD, INT_MAX in *. lia.
Qed.

(** ** [search] and [iter_search] *)

Lemma search_present x t : ∀ par fuel st,
  repr (nodes st) par t → (depth t ≤ fuel)%nat →
  StronglySorted Z.le (inorder t) → x ∈ inorder t →
  ∃ a n, search fuel (root_of t) x st = Ok (Some a) st
         ∧ nodes st !! a = Some n ∧ m_key n = x.
Proof.
  induction t as [|a l IHl k r IHr]; intros par fuel st Hrep Hfuel Hs Hx.
  - by apply elem_of_nil in Hx.
  - destruct fuel as [|fuel]; [simpl in Hfuel; lia|]. cbn [depth] in Hfuel.
    destruct Hrep as (Ha & Hl & Hr). cbn [inorder] in Hs, Hx.
    apply StronglySorted_app in Hs as (Hlr & Hsl & Hsr).
    apply StronglySorted_cons in Hsr as (Hkr & Hsr).
    rewrite Forall_forall in Hkr.
    cbn [search root_of]. run get_key_eq.
    destruct (Z.eqb_spec x k) as [->|Hne]; [by eexists _, _|].
    apply elem_of_app in Hx as [Hx|Hx];
      [|apply elem_of_cons in Hx as [?|Hx]; [done|] ].
    + specialize (Hlr x k Hx ltac:(by left)).
      replace (x <? k) with true by lia. run get_left_eq.
      eapply IHl; [done|lia|done|done].
    + specialize (Hkr x Hx). replace (x <? k) with false by lia.
      run get_right_eq. eapply IHr; [done|lia|done|done].
Qed.

(** X3.  On a well-formed tree whose in-order key sequence is
    non-decreasing, [search(x)] tells whether [x] is one of the keys of the
    tree. *)
Theorem search_decides_membership st fuel x ks :
  well_formed st → (size (nodes st) ≤ fuel)%nat →
  in_order_traversal fuel record_key [] st = Ok ks st → Sorted Z.le ks →
  search_key fuel x st = Ok (bool_decide (x ∈ ks)) st.
Proof.
  intros [t Ht] Hfuel Hks Hs. pose proof (tsize_le_store st t Ht) as Hsz.
  pose proof (depth_le_tsize t) as Hd. destruct Ht as (Hnd & Hrep & Hroot).
  assert (ks = inorder t) as ->.
  { unfold in_order_traversal, bind, get_root in Hks. rewrite Hroot in Hks.
    erewrite in_order_record in Hks; [|done|lia]. congruence. }
  apply (Sorted_StronglySorted _) in Hs.
  unfold search_key, bind at 1, get_root. rewrite Hroot.
  destruct (decide (x ∈ inorder t)) as [Hx|Hx].
  - destruct (search_present x t None fuel st Hrep) as (a & n & Hrun & _);
      [lia|done|done|].
    erewrite bind_Ok; [|exact Hrun]. unfold ret.
    by rewrite !bool_decide_eq_true_2 by eauto.
  - erewrite bind_Ok; [|eapply search_absent; [done|lia|done] ].
    unfold ret. rewrite !bool_decide_eq_false_2; [done|done|].
    by intros [? ?].
Qed.

(** On every well-formed tree, ordered or not, the iterative search
    returns the node the recursive search returns. *)
Lemma iter_search_spec x t : ∀ par fuel st,
  repr (nodes st) par t → (depth t ≤ fuel)%nat →
  ∃ p, search fuel (root_of t) x st = Ok p st
       ∧ iter_search fuel (root_of t) x st = Ok p st.
Proof.
  induction t as [|a l IHl k r IHr]; intros par fuel st Hrep Hfuel.
  - exists None. by destruct fuel.
  - destruct fuel as [|fuel]; [simpl in Hfuel; lia|]. cbn [depth] in Hfuel.
    destruct Hrep as (Ha & Hl & Hr).
    cbn [search iter_search root_of]. run get_key_eq. run get_key_eq.
    destruct (x =? k); cbn [negb]; [by exists (Some a)|].
    destruct (x <? k).
    + run get_left_eq. run get_left_eq. eapply IHl; [done|lia].
    + run get_right_eq. run get_right_eq. eapply IHr; [done|lia].
Qed.

(** X4.  On every well-formed tree, ordered or not, and for every key, the
    iterative [iter_search] returns the node that the recursive [search]
    returns. *)
Theorem iter_search_agrees_with_search st fuel x :
  well_formed st → (size (nodes st) ≤ fuel)%nat →
  ∃ p, search fuel (m_root st) x st = Ok p st
       ∧ iter_search fuel (m_root st) x st = Ok p st.
Proof.
  intros [t Ht] Hfuel. pose proof (tsize_le_store st t Ht) as Hsz.
  pose proof (depth_le_tsize t) as Hd. destruct Ht as (Hnd & Hrep & Hroot).
  rewrite Hroot. eapply iter_search_spec; [done|lia].
Qed.

(** ** [minimum] and [maximum] *)

Lemma head_app_Some {A} (l l' : list A) x :
  head l = Some x → head (l ++ l') = Some x.
Proof. by destruct l. Qed.

Lemma minimum_node_spec l : ∀ a k r par fuel st,
  repr (nodes st) par (N a l k r) → (depth l ≤ fuel)%nat →
  ∃ a' n, minimum_node fuel (Some a) st = Ok (Some a') st
          ∧ nodes st !! a' = Some n
          ∧ head (inorder (N a l k r)) = Some (m_key n).
Proof.
  induction l as [|b ll IHll kl lr _]; intros a k r par fuel st Hrep Hfuel.
  - destruct Hrep as (Ha & _). exists a; eexists. split; [|split; [exact Ha|done] ].
    destruct fuel; cbn [minimum_node]; by run get_left_eq.
  - destruct fuel as [|fuel]; [simpl in Hfuel; lia|]. cbn [depth] in Hfuel.
    pose proof Hrep as (Ha & Hl & _).
    destruct (IHll b kl lr (Some a) fuel st Hl) as (a' & n & Hrun & Hn & Hhd); [lia|].
    exists a', n. split; [|split; [done|] ].
    + cbn [minimum_node]. by run get_left_eq.
    + change (inorder (N a (N b ll kl lr) k r))
        with (inorder (N b ll kl lr) ++ k :: inorder r).
      by apply head_app_Some.
Qed.

Lemma maximum_node_spec r : ∀ a l k par fuel st,
  repr (nodes st) par (N a l k r) → (depth r ≤ fuel)%nat →
  ∃ a' n, maximum_node fuel (Some a) st = Ok (Some a') st
          ∧ nodes st !! a' = Some n
          ∧ last (inorder (N a l k r)) = Some (m_key n).
Proof.
  induction r as [|b rl _ kr rr IHrr]; intros a l k par fuel st Hrep Hfuel.
  - destruct Hrep as (Ha & _). exists a; eexists. split; [|split; [exact Ha|] ].
    + destruct fuel; cbn [maximum_node]; by run get_right_eq.
    + cbn [inorder m_key]. by rewrite last_snoc.
  - destruct fuel as [|fuel]; [simpl in Hfuel; lia|]. cbn [depth] in Hfuel.
    pose proof Hrep as (Ha & _ & Hr).
    destruct (IHrr b rl kr (Some a) fuel st Hr) as (a' & n & Hrun & Hn & Hla); [lia|].
    exists a', n. split; [|split; [done|] ].
    + cbn [maximum_node]. by run get_right_eq.
    + change (inorder (N a l k (N b rl kr rr)))
        with (inorder l ++ k :: inorder (N b rl kr rr)).
      rewrite last_app, last_cons. by rewrite Hla.
Qed.

Lemma sorted_between_ends (ks : list key) kmin kmax :
  Sorted Z.le ks → head ks = Some kmin → last ks = Some kmax →
  Forall (fun y => kmin <= y <= kmax) ks.
Proof.
  intros Hs Hh Hl. apply (Sorted_StronglySorted _) in Hs.
  apply last_Some in Hl as [ks' ->].
  pose proof Hs as Hs0. apply StronglySorted_app in Hs0 as (Hlast & _ & _).
  assert (Hfirst : Forall (fun y => kmin <= y) (ks' ++ [kmax])).
  { destruct ks' as [|k0 ks'].
    - cbn in Hh. simplify_eq. constructor; [lia|constructor].
    - cbn in Hh. simplify_eq. cbn [app] in *.
      constructor; [lia|].
      by apply StronglySorted_cons in Hs as (? & _). }
  rewrite Forall_forall in Hfirst |- *. intros y Hy. split; [by apply Hfirst|].
  apply elem_of_app in Hy as [Hy|Hy].
  - apply (Hlast y kmax Hy). by left.
  - apply elem_of_cons in Hy as [->|Hy]; [lia|by apply elem_of_nil in Hy].
Qed.

(** X5.  On a non-empty well-formed tree [minimum()] is the first and
    [maximum()] the last key of the in-order traversal, whatever the order
    of the keys; when that sequence is non-decreasing they are the least and
    the greatest key. *)
Theorem minimum_maximum_are_in_order_ends st fuel ks :
  well_formed st → (size (nodes st) ≤ fuel)%nat → m_root st ≠ None →
  in_order_traversal fuel record_key [] st = Ok ks st →
  ∃ kmin kmax,
    minimum fuel st = Ok kmin st
    ∧ maximum fuel st = Ok kmax st
    ∧ head ks = Some kmin ∧ last ks = Some kmax
    ∧ (Sorted Z.le ks → Forall (fun y => kmin <= y <= kmax) ks).
Proof.
  intros [t Ht] Hfuel Hne Hks. pose proof (tsize_le_store st t Ht) as Hsz.
  pose proof (depth_le_tsize t) as Hd. destruct Ht as (Hnd & Hrep & Hroot).
  assert (ks = inorder t) as ->.
  { unfold in_order_traversal, bind, get_root in Hks. rewrite Hroot in Hks.
    erewrite in_order_record in Hks; [|done|lia]. congruence. }
  destruct t as [|a l k r]; [by rewrite Hroot in Hne|].
  cbn [depth] in Hd.
  destruct (minimum_node_spec l a k r None fuel st Hrep)
    as (amin & nmin & Hmin & Hnmin & Hhd); [lia|].
  destruct (maximum_node_spec r a l k None fuel st Hrep)
    as (amax & nmax & Hmax & Hnmax & Hla); [lia|].
  exists (m_key nmin), (m_key nmax).
  split; [|split; [|split; [done|split; [done|] ] ] ].
  - unfold minimum, bind at 1, get_root. rewrite Hroot. cbn [root_of].
    erewrite bind_Ok; [|exact Hmin]. by apply get_key_eq.
  - unfold maximum, bind at 1, get_root. rewrite Hroot. cbn [root_of].
    erewrite bind_Ok; [|exact Hmax]. by apply get_key_eq.
  - intros Hs. by apply sorted_between_ends.
Qed.

Lemma minimum_maximum_are_in_order_ends_witness :
  ∃ kmin kmax,
    minimum 5 sample_bfs = Ok kmin sample_bfs
    ∧ maximum 5 sample_bfs = Ok kmax sample_bfs
    ∧ head [3; 4; 5; 8; 9] = Some kmin ∧ last [3; 4; 5; 8; 9] = Some kmax
    ∧ (Sorted Z.le [3; 4; 5; 8; 9]
       → Forall (fun y => kmin <= y <= kmax) [3; 4; 5; 8; 9]).
Proof.
  apply (minimum_maximum_are_in_order_ends sample_bfs 5 [3; 4; 5; 8; 9]).
  - exact sample_bfs_well_formed.
  - vm_compute. lia.
  - vm_compute. discriminate.
  - vm_compute. reflexivity.
Defined.

Lemma size_counts_visited_keys_witness :
  ∃ ks,
    in_order_traversal 5 record_key [] sample_bfs = Ok ks sample_bfs
    ∧ tree_size 5 sample_bfs = Ok (Z.of_nat (length ks)) sample_bfs.
Proof.
  apply (size_counts_visited_keys sample_bfs 5).
  - exact sample_bfs_well_formed.
  - vm_compute. lia.
  - vm_compute. reflexivity.
Defined.

Lemma size_after_insertions_witness :
  (∃ st,
     run_insertions 6 [ByIterInsert 5; ByInsert 3; ByIterInsert 8] empty_tree
     = Ok tt st
     ∧ tree_size 6 st
       = Ok (Z.of_nat (length [ByIterInsert 5; ByInsert 3; ByIterInsert 8])) st)
  ∧ (∃ rots st,
       AVLTree_from_vec 6 [10; 20; 30] empty_tree = Ok rots st
       ∧ tree_size 6 st = Ok (Z.of_nat (length [10; 20; 30])) st).
Proof.
  apply (size_after_insertions
           [ByIterInsert 5; ByInsert 3; ByIterInsert 8] [10; 20; 30] 6).
  - vm_compute. lia.
  - vm_compute. lia.
  - vm_compute. discriminate.
  - vm_compute. reflexivity.
Defined.

Lemma search_decides_membership_witness :
  search_key 5 4 sample_bfs
  = Ok (bool_decide (4 ∈ [3; 4; 5; 8; 9])) sample_bfs.
Proof.
  apply (search_decides_membership sample_bfs 5 4 [3; 4; 5; 8; 9]).
  - exact sample_bfs_well_formed.
  - vm_compute. lia.
  - vm_compute. reflexivity.
  - repeat constructor; lia.
Defined.

Lemma iter_search_agrees_with_search_witness :
  ∃ p, search 5 (m_root sample_bfs) 9 sample_bfs = Ok p sample_bfs
       ∧ iter_search 5 (m_root sample_bfs) 9 sample_bfs = Ok p sample_bfs.
Proof.
  apply (iter_search_agrees_with_search sample_bfs 5 9).
  - exact sample_bfs_well_formed.
  - vm_compute. lia.
Defined.

(** ** Rotations and the in-order sequence *)

Lemma in_order_traversal_focus st c t fuel :
  focus st c t → (size (nodes st) ≤ fuel)%nat →
  in_order_traversal fuel record_key [] st = Ok (inorder (plug c t)) st.
Proof.
  intros Hf Hfuel. apply holds_tree_focus in Hf.
  pose proof (tsize_le_store st _ Hf) as Hsz.
  pose proof (depth_le_tsize (plug c t)) as Hd.
  destruct Hf as (Hnd & Hrep & Hroot).
  unfold in_order_traversal, bind, get_root. rewrite Hroot.
  eapply in_order_record; [done|lia].
Qed.

(** X6.  A rotation about any node of a well-formed tree leaves the in-order
    key sequence as it was, and leaves a well-formed tree with the same set
    of nodes. *)
Theorem rotations_keep_in_order_sequence st c x a kx y b ky g fuel :
  (size (nodes st) ≤ fuel)%nat →
  (focus st c (N x a kx (N y b ky g)) →
   ∃ ks st',
     in_order_traversal fuel record_key [] st = Ok ks st
     ∧ left_rotate (Some x) st = Ok tt st'
     ∧ in_order_traversal fuel record_key [] st' = Ok ks st'
     ∧ well_formed st' ∧ dom (nodes st') = dom (nodes st))
  ∧ (focus st c (N x (N y a ky b) kx g) →
     ∃ ks st',
       in_order_traversal fuel record_key [] st = Ok ks st
       ∧ right_rotate (Some x) st = Ok tt st'
       ∧ in_order_traversal fuel record_key [] st' = Ok ks st'
       ∧ well_formed st' ∧ dom (nodes st') = dom (nodes st)).
Proof.
  intros Hfuel. split; intros Hf.
  - destruct (left_rotate_focus _ _ _ _ _ _ _ _ _ Hf) as (st' & Hrun & Hf' & Hdom & _).
    exists (inorder (plug c (N x a kx (N y b ky g)))), st'.
    split; [by apply in_order_traversal_focus|]. split; [done|].
    split; [|split; [|done] ].
    + rewrite (inorder_plug_ext c _ (N y (N x a kx b) ky g)).
      * apply in_order_traversal_focus; [done|].
        by rewrite <- !size_dom, Hdom, !size_dom.
      * cbn [inorder]. by rewrite <- !app_assoc.
    + eexists. by apply holds_tree_focus.
  - destruct (right_rotate_focus _ _ _ _ _ _ _ _ _ Hf) as (st' & Hrun & Hf' & Hdom & _).
    exists (inorder (plug c (N x (N y a ky b) kx g))), st'.
    split; [by apply in_order_traversal_focus|]. split; [done|].
    split; [|split; [|done] ].
    + rewrite (inorder_plug_ext c _ (N y a ky (N x b kx g))).
      * apply in_order_traversal_focus; [done|].
        by rewrite <- !size_dom, Hdom, !size_dom.
      * cbn [inorder]. by rewrite <- !app_assoc.
    + eexists. by apply holds_tree_focus.
Qed.

Lemma rotations_keep_in_order_sequence_witness :
  (∃ ks st',
     in_order_traversal 3 record_key [] sample_chain = Ok ks sample_chain
     ∧ left_rotate (Some 2%positive) sample_chain = Ok tt st'
     ∧ in_order_traversal 3 record_key [] st' = Ok ks st'
     ∧ well_formed st' ∧ dom (nodes st') = dom (nodes sample_chain))
  ∧ (∃ ks st',
       in_order_traversal 3 record_key [] sample_left_right
       = Ok ks sample_left_right
       ∧ right_rotate (Some 1%positive) sample_left_right = Ok tt st'
       ∧ in_order_traversal 3 record_key [] st' = Ok ks st'
       ∧ well_formed st' ∧ dom (nodes st') = dom (nodes sample_left_right)).
Proof.
  split.
  - apply (rotations_keep_in_order_sequence sample_chain [InR 1%positive E 10]
             2%positive E 20 3%positive E 30 E 3).
    + vm_compute. lia.
    + holds_concrete.
  - apply (rotations_keep_in_order_sequence sample_left_right []
             1%positive E 30 2%positive (N 3%positive E 20 E) 10 E 3).
    + vm_compute. lia.
    + holds_concrete.
Defined.

(** ** The two insertions build the same tree *)

Lemma holds_exactly_unique st1 st2 t :
  holds_exactly st1 t → holds_exactly st2 t →
  nodes st1 = nodes st2 ∧ m_root st1 = m_root st2.
Proof.
  intros (H1 & Hd1) (H2 & Hd2). split.
  - apply map_eq. intros a.
    destruct (decide (a ∈ addrs t)) as [Ha|Ha].
    + destruct (subtree_at t a Ha) as (c & l & k & r & ->).
      apply holds_tree_focus in H1 as (_ & _ & (E1 & _) & _).
      apply holds_tree_focus in H2 as (_ & _ & (E2 & _) & _).
      by rewrite E1, E2.
    + assert (a ∉ dom (nodes st1)) as N1
        by (rewrite Hd1; by rewrite elem_of_list_to_set).
      assert (a ∉ dom (nodes st2)) as N2
        by (rewrite Hd2; by rewrite elem_of_list_to_set).
      apply not_elem_of_dom in N1, N2. by rewrite N1, N2.
  - destruct H1 as (_ & _ & ->). by destruct H2 as (_ & _ & ->).
Qed.

(** X7.  On an object whose nodes are exactly those of its tree, the
    iterative [iter_insert(x)] and the recursive [insert(x)] leave the same
    nodes, linked the same way, and the same root. *)
Theorem insert_variants_build_same_tree st t fuel x :
  holds_exactly st t → (depth t ≤ fuel)%nat →
  ∃ st1 st2,
    iter_insert fuel x st = Ok tt st1
    ∧ insert fuel x st = Ok tt st2
    ∧ nodes st1 = nodes st2 ∧ m_root st1 = m_root st2.
Proof.
  intros Hex Hfuel. pose proof Hex as (Ht & Hdom).
  pose proof (fresh_not_in_tree st t Ht) as Hfresh.
  set (a0 := fresh (dom (nodes st))) in *.
  assert (Hdom' : ∀ st', dom (nodes st') = {[a0]} ∪ dom (nodes st) →
                         dom (nodes st') = list_to_set (addrs (ins a0 x t))).
  { intros st' ->. rewrite Hdom. apply set_eq. intros z.
    rewrite elem_of_union, elem_of_singleton, !elem_of_list_to_set,
      elem_of_addrs_ins. tauto. }
  destruct (_iter_insert_spec st t fuel x Ht Hfuel) as (st1 & Hrun1 & Hf1 & Hdom1).
  fold a0 in Hrun1, Hf1, Hdom1.
  apply holds_tree_focus in Hf1. rewrite plug_ins_ctx_leaf in Hf1.
  pose proof Ht as (Hnd & Hrep & Hroot).
  destruct (_rec_insert_spec x a0 t None fuel st)
    as (st2 & Hrun2 & Hrep2 & _ & Hdom2 & Hroot2); try done.
  exists st1, (with_root (root_of (ins a0 x t)) st2).
  split; [unfold iter_insert; by erewrite bind_Ok by exact Hrun1|].
  split.
  { unfold insert. unfold bind at 1, get_root. rewrite Hroot.
    by erewrite bind_Ok by exact Hrun2. }
  apply (holds_exactly_unique _ _ (ins a0 x t)).
  - split; [done|by apply Hdom'].
  - split; [|by apply Hdom'].
    split; [by apply NoDup_addrs_ins|]. split; [|done].
    cbn [with_root nodes]. by destruct t.
Qed.

Lemma insert_variants_build_same_tree_witness :
  ∃ st1 st2,
    iter_insert 3 15 sample_chain = Ok tt st1
    ∧ insert 3 15 sample_chain = Ok tt st2
    ∧ nodes st1 = nodes st2 ∧ m_root st1 = m_root st2.
Proof.
  apply (insert_variants_build_same_tree sample_chain
           (N 1%positive E 10 (N 2%positive E 20 (N 3%positive E 30 E))) 3 15).
  - holds_concrete.
  - vm_compute. lia.
Defined.

(** ** The height of a balanced tree *)

Lemma fib_SS n : fib (S (S n)) = (fib (S n) + fib n)%nat.
Proof. done. Qed.

Lemma fib_le_succ n : (fib n ≤ fib (S n))%nat.
Proof.
  destruct n as [|n]; [cbn; lia|]. rewrite fib_SS. lia.
Qed.

Lemma fib_mono n m : (n ≤ m)%nat → (fib n ≤ fib m)%nat.
Proof.
  induction 1 as [|m _ IH]; [done|]. pose proof (fib_le_succ m). lia.
Qed.

Lemma avl_fib t : avl t → (fib (depth t + 2) ≤ tsize t + 1)%nat.
Proof.
  induction t as [|a l IHl k r IHr]; intros Ha; [cbn; lia|].
  destruct Ha as (Hb & Hal & Har). specialize (IHl Hal). specialize (IHr Har).
  rewrite !theight_depth in Hb. rewrite tsize_N. cbn [depth].
  replace (S (depth l `max` depth r) + 2)%nat
    with (S (S (S (depth l `max` depth r)))) by lia.
  rewrite fib_SS.
  destruct (Nat.max_spec (depth l) (depth r)) as [[Hlt ->]|[Hle ->]].
  - pose proof (fib_mono (S (depth r)) (depth l + 2)) as Hm.
    replace (S (S (depth r))) with (depth r + 2)%nat by lia. lia.
  - pose proof (fib_mono (S (depth l)) (depth r + 2)) as Hm.
    replace (S (S (depth l))) with (depth l + 2)%nat by lia. lia.
Qed.

Lemma pow2_le_fib k : (2 ^ k ≤ fib (2 * k + 2))%nat.
Proof.
  induction k as [|k IH]; [cbn; lia|].
  replace (2 * S k + 2)%nat with (S (S (2 * k + 2))) by lia.
  rewrite fib_SS. pose proof (fib_le_succ (2 * k + 2)).
  rewrite Nat.pow_succ_r'. lia.
Qed.

Lemma avl_height_log t :
  avl t → theight t <= 2 * Z.log2 (Z.of_nat (tsize t) + 1).
Proof.
  intros Ha. pose proof (avl_fib t Ha) as Hf.
  pose proof (pow2_le_fib (depth t / 2)) as Hp.
  pose proof (fib_mono (2 * (depth t / 2) + 2) (depth t + 2)) as Hm.
  pose proof (Nat.div_mod_eq (depth t) 2) as Hdm.
  pose proof (Nat.mod_upper_bound (depth t) 2) as Hmod.
  assert (Hpow : 2 ^ Z.of_nat (depth t / 2) <= Z.of_nat (tsize t) + 1).
  { replace 2 with (Z.of_nat 2) at 1 by done. rewrite <- Nat2Z.inj_pow. lia. }
  apply Z.log2_le_pow2 in Hpow; [|lia].
  rewrite theight_depth. lia.
Qed.

(** X8.  The tree that [AVLTree::insert] builds from [n] keys has height [h]
    with [fib (h + 3) <= n + 1], hence [h <= 2 * log2 (n + 1)]; the height
    is the one [height()] reports, [-1] for no key. *)
Theorem avl_height_is_logarithmic (keys : list key) (fuel : nat) :
  (2 * length keys ≤ fuel)%nat → Z.of_nat (length keys) <= INT_MAX →
  ∃ rots st h,
    AVLTree_from_vec fuel keys empty_tree = Ok rots st
    ∧ tree_height fuel st = Ok h st
    ∧ -1 <= h
    ∧ (fib (Z.to_nat (h + 3)) ≤ length keys + 1)%nat
    ∧ h <= 2 * Z.log2 (Z.of_nat (length keys) + 1).
Proof.
  intros Hfuel Hmax.
  destruct (AVLTree_from_vec_spec keys empty_tree E fuel holds_exactly_empty)
    as (rots & st & t & Hrun & ((Hnd & Hrep & Hroot) & _) & Ha & _ & _ & Hsz);
    [done|constructor|cbn; lia|cbn; lia|].
  cbn in Hsz. pose proof (depth_le_tsize t) as Hd.
  exists rots, st, (theight t).
  split; [done|]. split; [|split; [apply theight_ge|split] ].
  - unfold tree_height, bind, get_root. rewrite Hroot.
    eapply height_spec; [done|lia|]. pose proof (theight_lt_tsize t). lia.
  - rewrite theight_depth, <- Hsz.
    replace (Z.to_nat (Z.of_nat (depth t) - 1 + 3)) with (depth t + 2)%nat by lia.
    by apply avl_fib.
  - rewrite <- Hsz. by apply avl_height_log.
Qed.

Lemma avl_height_is_logarithmic_witness :
  ∃ rots st h,
    AVLTree_from_vec 14 [1; 2; 3; 4; 5; 6; 7] empty_tree = Ok rots st
    ∧ tree_height 14 st = Ok h st
    ∧ -1 <= h
    ∧ (fib (Z.to_nat (h + 3)) ≤ length [1; 2; 3; 4; 5; 6; 7] + 1)%nat
    ∧ h <= 2 * Z.log2 (Z.of_nat (length [1; 2; 3; 4; 5; 6; 7]) + 1).
Proof.
  apply (avl_height_is_logarithmic [1; 2; 3; 4; 5; 6; 7] 14).
  - vm_compute. lia.
  - vm_compute. discriminate.
Defined.

(** ** Breadth-first traversal *)

Lemma zip_levels_nil_r xs : zip_levels xs [] = xs.
Proof. by destruct xs. Qed.

Lemma zip_levels_cons x xs y ys :
  zip_levels (x :: xs) (y :: ys) = (x ++ y) :: zip_levels xs ys.
Proof. done. Qed.

Lemma zip_levels_assoc xs : ∀ ys zs,
  zip_levels xs (zip_levels ys zs) = zip_levels (zip_levels xs ys) zs.
Proof.
  induction xs as [|x xs IH]; intros ys zs; [done|].
  destruct ys as [|y ys]; [done|]. destruct zs as [|z zs]; [done|].
  rewrite !zip_levels_cons. by rewrite IH, app_assoc.
Qed.

Lemma forest_levels_app ts us :
  forest_levels (ts ++ us) = zip_levels (forest_levels ts) (forest_levels us).
Proof.
  induction ts as [|t ts IH]; [done|].
  cbn [app forest_levels foldr]. fold (forest_levels (ts ++ us)).
  fold (forest_levels ts). by rewrite IH, zip_levels_assoc.
Qed.

Lemma forest_levels_enqueue t ts :
  forest_levels (enqueue_tree t ts) = zip_levels (forest_levels ts) (levels t).
Proof.
  destruct t as [|a l k r]; [by rewrite zip_levels_nil_r|].
  cbn [enqueue_tree]. rewrite forest_levels_app. cbn [forest_levels foldr].
  by rewrite zip_levels_nil_r.
Qed.

Lemma concat_zip_levels_rotate ts : ∀ x xs,
  concat (zip_levels (x :: xs) ts) = x ++ concat (zip_levels ts xs).
Proof.
  induction ts as [|t ts IH]; intros x xs; [done|].
  rewrite zip_levels_cons. destruct xs as [|x1 xs].
  - rewrite zip_levels_nil_r. cbn [zip_levels concat]. by rewrite app_assoc.
  - rewrite zip_levels_cons. cbn [concat]. rewrite IH. by rewrite !app_assoc.
Qed.

Lemma concat_zip_levels_perm xs : ∀ ys,
  concat (zip_levels xs ys) ≡ₚ concat xs ++ concat ys.
Proof.
  induction xs as [|x xs IH]; intros ys; [done|].
  destruct ys as [|y ys]; [by rewrite app_nil_r|].
  rewrite zip_levels_cons. cbn [concat]. rewrite IH. rewrite <- !app_assoc.
  apply Permutation_app_head. rewrite !app_assoc.
  apply Permutation_app_tail, Permutation_app_comm.
Qed.

Lemma level_order_perm t : level_order t ≡ₚ inorder t.
Proof.
  unfold level_order. induction t as [|a l IHl k r IHr]; [done|].
  cbn [levels concat inorder]. rewrite concat_zip_levels_perm, IHl, IHr.
  cbn [app]. by rewrite Permutation_middle.
Qed.

Lemma map_root_enqueue t ts :
  map root_of (enqueue_tree t ts)
  = match root_of t with
    | Some _ => map root_of ts ++ [root_of t]
    | None => map root_of ts
    end.
Proof. destruct t; [done|]. cbn [enqueue_tree]. by rewrite map_app. Qed.

Lemma stack_ok_enqueue h t ts par :
  repr h par t → stack_ok h ts → stack_ok h (enqueue_tree t ts).
Proof.
  intros Ht Hts. destruct t; [done|]. apply Forall_app. split; [done|].
  constructor; [|constructor]. split; [done|]. by exists par.
Qed.

Lemma total_size_app ts us :
  total_size (ts ++ us) = (total_size ts + total_size us)%nat.
Proof. induction ts as [|t ts IH]; [done|]. cbn [app total_size foldr] in *.
  fold (total_size (ts ++ us)). fold (total_size ts). lia. Qed.

Lemma total_size_enqueue t ts :
  total_size (enqueue_tree t ts) = (tsize t + total_size ts)%nat.
Proof.
  destruct t; [done|]. cbn [enqueue_tree]. rewrite total_size_app.
  cbn [total_size foldr]. lia.
Qed.

Lemma bfs_traversal_loop_spec {V} (cb : Callback V) (Hcb : keeps_nodes cb) fuel :
  ∀ ts v st,
    stack_ok (nodes st) ts → (total_size ts ≤ fuel)%nat →
    bfs_traversal_loop fuel (map root_of ts) cb v st
    = visits cb (concat (forest_levels ts)) v st.
Proof.
  induction fuel as [|fuel IH]; intros ts v st Hts Hfuel.
  - destruct ts as [|t ts]; [done|]. apply Forall_cons in Hts as [[Hne _] _].
    destruct t; [done|]. simpl in Hfuel. rewrite tsize_N in Hfuel. lia.
  - destruct ts as [|t ts]; [done|].
    apply Forall_cons in Hts as [[Hne [par Hrep]] Hts].
    destruct t as [|a l k r]; [done|]. destruct Hrep as (Ha & Hl & Hr).
    simpl in Hfuel. rewrite tsize_N in Hfuel.
    cbn [forest_levels foldr levels]. fold (forest_levels ts).
    rewrite concat_zip_levels_rotate.
    cbn [map root_of bfs_traversal_loop app visits].
    rewrite (bind_Ok _ _ _ _ _ (get_key_eq _ _ _ Ha)). cbn [m_key].
    apply (after_cb cb Hcb). intros v1 st1 H1. rewrite <- H1 in Ha, Hl, Hr, Hts.
    rewrite (bind_Ok _ _ _ _ _ (get_left_eq _ _ _ Ha)). cbn [m_left].
    rewrite (bind_Ok _ _ _ _ _ (get_right_eq _ _ _ Ha)). cbn [m_right].
    rewrite <- (map_root_enqueue l ts).
    rewrite <- (map_root_enqueue r (enqueue_tree l ts)).
    rewrite IH.
    + by rewrite !forest_levels_enqueue, zip_levels_assoc.
    + eauto using stack_ok_enqueue.
    + rewrite !total_size_enqueue. lia.
Qed.

(** X9.  The breadth-first traversal of a well-formed tree calls the visitor
    on the keys level by level, each level from left to right; these are the
    keys the in-order traversal visits, in another order. *)
Theorem breadth_first_visits_by_levels st t fuel :
  holds_tree st t → (tsize t ≤ fuel)%nat →
  breadth_first_traversal fuel record_key [] st = Ok (level_order t) st
  ∧ (∀ (V : Type) (cb : Callback V) (v : V), keeps_nodes cb →
       breadth_first_traversal fuel cb v st = visits cb (level_order t) v st)
  ∧ (∃ ino, in_order_traversal fuel record_key [] st = Ok ino st
            ∧ level_order t ≡ₚ ino).
Proof.
  intros (Hnd & Hrep & Hroot) Hfuel. pose proof (depth_le_tsize t) as Hd.
  assert (Hgen : ∀ (V : Type) (cb : Callback V) (v : V), keeps_nodes cb →
            breadth_first_traversal fuel cb v st
            = visits cb (level_order t) v st).
  { intros V cb v Hcb. unfold breadth_first_traversal, bind, get_root.
    rewrite Hroot. destruct t as [|a l k r]; [done|].
    change (bfs fuel (root_of (N a l k r)) cb v st)
      with (bfs_traversal_loop fuel (map root_of [N a l k r]) cb v st).
    rewrite (bfs_traversal_loop_spec cb Hcb).
    - unfold level_order. cbn [forest_levels foldr]. by rewrite zip_levels_nil_r.
    - constructor; [|constructor]. split; [done|]. by exists None.
    - simpl. lia. }
  split; [|split; [done|] ].
  - rewrite (Hgen _ record_key [] record_key_keeps_nodes).
    apply visits_record_key.
  - exists (inorder t). split; [|apply level_order_perm].
    unfold in_order_traversal, bind, get_root. rewrite Hroot.
    eapply in_order_record; [done|lia].
Qed.

Lemma breadth_first_visits_by_levels_witness :
  breadth_first_traversal 5 record_key [] sample_bfs = Ok [5; 3; 8; 4; 9] sample_bfs
  ∧ (∀ (V : Type) (cb : Callback V) (v : V), keeps_nodes cb →
       breadth_first_traversal 5 cb v sample_bfs
       = visits cb [5; 3; 8; 4; 9] v sample_bfs)
  ∧ (∃ ino, in_order_traversal 5 record_key [] sample_bfs = Ok ino sample_bfs
            ∧ [5; 3; 8; 4; 9] ≡ₚ ino).
Proof.
  apply (breadth_first_visits_by_levels sample_bfs
           (N 1%positive (N 2%positive E 3 (N 4%positive E 4 E)) 5
              (N 3%positive E 8 (N 5%positive E 9 E))) 5).
  - holds_concrete.
  - vm_compute. lia.
Defined.

(** ** [successor] and [predecessor] *)

Lemma inorder_plug_keys c : ∀ t,
  inorder (plug c t) = ctx_before c ++ inorder t ++ ctx_after c.
Proof.
  induction c as [|f c IH]; intros t; cbn [plug ctx_before ctx_after].
  - by rewrite app_nil_r.
  - rewrite IH. destruct f as [a k r|a l k]; cbn [fill inorder].
    + by rewrite <- !app_assoc.
    + rewrite <- !app_assoc. by cbn.
Qed.

Lemma plug_snoc c f : ∀ t, plug (c ++ [f]) t = fill f (plug c t).
Proof. induction c as [|g c IH]; intros t; [done|]. cbn [app plug]. apply IH. Qed.

Lemma length_ctx_depth c : ∀ t, (length c + depth t ≤ depth (plug c t))%nat.
Proof.
  induction c as [|f c IH]; intros t; [done|]. cbn [plug length].
  etrans; [|apply IH]. destruct f; cbn [fill depth]; lia.
Qed.

Lemma search_finds x t : ∀ par fuel st,
  repr (nodes st) par t → (depth t ≤ fuel)%nat →
  StronglySorted Z.le (inorder t) → x ∈ inorder t →
  ∃ a c l r, search fuel (root_of t) x st = Ok (Some a) st
             ∧ t = plug c (N a l x r).
Proof.
  induction t as [|a l IHl k r IHr]; intros par fuel st Hrep Hfuel Hs Hx.
  - by apply elem_of_nil in Hx.
  - destruct fuel as [|fuel]; [simpl in Hfuel; lia|]. cbn [depth] in Hfuel.
    destruct Hrep as (Ha & Hl & Hr). cbn [inorder] in Hs, Hx.
    apply StronglySorted_app in Hs as (Hlr & Hsl & Hsr).
    apply StronglySorted_cons in Hsr as (Hkr & Hsr).
    rewrite Forall_forall in Hkr.
    cbn [search root_of]. run get_key_eq.
    destruct (Z.eqb_spec x k) as [->|Hne]; [by exists a, [], l, r|].
    apply elem_of_app in Hx as [Hx|Hx];
      [|apply elem_of_cons in Hx as [?|Hx]; [done|] ].
    + specialize (Hlr x k Hx ltac:(by left)).
      replace (x <? k) with true by lia. run get_left_eq.
      destruct (IHl (Some a) fuel st) as (a' & c & l' & r' & Hrun & ->);
        [done|lia|done|done|].
      exists a', (c ++ [InL a k r]), l', r'. split; [done|].
      by rewrite plug_snoc.
    + specialize (Hkr x Hx). replace (x <? k) with false by lia.
      run get_right_eq.
      destruct (IHr (Some a) fuel st) as (a' & c & l' & r' & Hrun & ->);
        [done|lia|done|done|].
      exists a', (c ++ [InR a l k]), l', r'. split; [done|].
      by rewrite plug_snoc.
Qed.

Lemma successor_climb_spec st c : ∀ fuel a l k r,
  focus st c (N a l k r) → (length c ≤ fuel)%nat →
  ∃ p, successor_climb fuel (Some a) (ctx_par c) st = Ok p st
       ∧ node_with_key st p (head (ctx_after c)).
Proof.
  induction c as [|f c IH]; intros fuel a l k r Hf Hfuel.
  - exists None. split; [by destruct fuel|done].
  - pose proof Hf as (Hnd & Hc & _ & _).
    destruct f as [p kp s|p s kp]; cbn [ctx_par frame_addr ctx_after head].
    + destruct Hc as (Hp & _ & _). exists (Some p).
      split; [|by eexists].
      assert (Hne : ptr_eqb (Some a) (root_of s) = false).
      { apply ptr_eqb_root_notin. intros Hin.
        cbn [addrs ctx_addrs frame_addr frame_sibling] in Hnd.
        apply NoDup_app in Hnd as (_ & Hd & _). apply (Hd a); list_mem. }
      destruct fuel; cbn [successor_climb]; run get_right_eq;
        cbn [m_right]; by rewrite Hne.
    + destruct Hc as (Hp & _ & _).
      destruct fuel as [|fuel]; [cbn in Hfuel; lia|]. cbn [length] in Hfuel.
      cbn [successor_climb]. run get_right_eq. cbn [m_right root_of].
      rewrite ptr_eqb_refl. run get_parent_eq. cbn [m_parent].
      apply focus_down in Hf. cbn [fill] in Hf.
      eapply IH; [exact Hf|lia].
Qed.

Lemma predecessor_climb_spec st c : ∀ fuel a l k r,
  focus st c (N a l k r) → (length c ≤ fuel)%nat →
  ∃ p, predecessor_climb fuel (Some a) (ctx_par c) st = Ok p st
       ∧ node_with_key st p (last (ctx_before c)).
Proof.
  induction c as [|f c IH]; intros fuel a l k r Hf Hfuel.
  - exists None. split; [by destruct fuel|done].
  - pose proof Hf as (Hnd & Hc & _ & _).
    destruct f as [p kp s|p s kp]; cbn [ctx_par frame_addr ctx_before].
    + destruct Hc as (Hp & _ & _).
      destruct fuel as [|fuel]; [cbn in Hfuel; lia|]. cbn [length] in Hfuel.
      cbn [predecessor_climb]. run get_left_eq. cbn [m_left root_of].
      rewrite ptr_eqb_refl. run get_parent_eq. cbn [m_parent].
      apply focus_down in Hf. cbn [fill] in Hf.
      eapply IH; [exact Hf|lia].
    + destruct Hc as (Hp & _ & _). exists (Some p).
      split; [|eexists; split; [exact Hp|by rewrite !app_assoc, last_snoc] ].
      assert (Hne : ptr_eqb (Some a) (root_of s) = false).
      { apply ptr_eqb_root_notin. intros Hin.
        cbn [addrs ctx_addrs frame_addr frame_sibling] in Hnd.
        apply NoDup_app in Hnd as (_ & Hd & _). apply (Hd a); list_mem. }
      destruct fuel; cbn [predecessor_climb]; run get_left_eq;
        cbn [m_left]; by rewrite Hne.
Qed.

Lemma successor_node_spec st c a l k r fuel :
  focus st c (N a l k r) → (depth r ≤ fuel)%nat → (length c ≤ fuel)%nat →
  ∃ p, successor_node fuel (Some a) st = Ok p st
       ∧ node_with_key st p (head (inorder r ++ ctx_after c)).
Proof.
  intros Hf Hd Hc. pose proof Hf as (_ & _ & (Ha & _ & Hr) & _).
  unfold successor_node. run get_right_eq. cbn [m_right].
  destruct r as [|b rl kr rr]; cbn [root_of].
  - run get_parent_eq. cbn [m_parent app]. by eapply successor_climb_spec.
  - cbn [depth] in Hd.
    destruct (minimum_node_spec rl b kr rr (Some a) fuel st Hr)
      as (a' & n & Hrun & Hn & Hhd); [lia|].
    exists (Some a'). split; [done|]. exists n. split; [done|].
    by apply head_app_Some.
Qed.

Lemma last_app_Some_r {A} (l l' : list A) x :
  last l' = Some x → last (l ++ l') = Some x.
Proof. intros H. by rewrite last_app, H. Qed.

Lemma predecessor_node_spec st c a l k r fuel :
  focus st c (N a l k r) → (depth l ≤ fuel)%nat → (length c ≤ fuel)%nat →
  ∃ p, predecessor_node fuel (Some a) st = Ok p st
       ∧ node_with_key st p (last (ctx_before c ++ inorder l)).
Proof.
  intros Hf Hd Hc. pose proof Hf as (_ & _ & (Ha & Hl & _) & _).
  unfold predecessor_node. run get_left_eq. cbn [m_left].
  destruct l as [|b ll kl lr]; cbn [root_of].
  - run get_parent_eq. cbn [m_parent inorder]. rewrite app_nil_r.
    by eapply predecessor_climb_spec.
  - cbn [depth] in Hd.
    destruct (maximum_node_spec lr b ll kl (Some a) fuel st Hl)
      as (a' & n & Hrun & Hn & Hla); [lia|].
    exists (Some a'). split; [done|]. exists n. split; [done|].
    by apply last_app_Some_r.
Qed.

Lemma split_at_unique {A} (x : A) l1 : ∀ l2 l1' l2',
  NoDup (l1 ++ x :: l2) → l1 ++ x :: l2 = l1' ++ x :: l2' →
  l1 = l1' ∧ l2 = l2'.
Proof.
  induction l1 as [|a l1 IH]; intros l2 l1' l2' Hnd Heq.
  - destruct l1' as [|b l1']; cbn [app] in *; [by simplify_eq|].
    simplify_eq. apply NoDup_cons in Hnd as [Hx _]. exfalso. apply Hx. list_mem.
  - destruct l1' as [|b l1']; cbn [app] in *; simplify_eq.
    + apply NoDup_cons in Hnd as [Hx _]. exfalso. apply Hx. list_mem.
    + apply NoDup_cons in Hnd as [_ Hnd].
      destruct (IH _ _ _ Hnd H0) as [-> ->]. done.
Qed.

Lemma sorted_lt_le_NoDup (ks : list key) :
  Sorted Z.lt ks → StronglySorted Z.le ks ∧ NoDup ks.
Proof.
  intros Hs. apply (Sorted_StronglySorted _) in Hs.
  induction Hs as [|k ks Hs [IH1 IH2] Hk]; [split; constructor|].
  rewrite Forall_forall in Hk. split.
  - constructor; [done|]. apply Forall_forall. intros y Hy.
    specialize (Hk y Hy). lia.
  - apply NoDup_cons. split; [|done]. intros Hin. specialize (Hk k Hin). lia.
Qed.

Lemma ctx_root_Some c : ∀ a, ∃ b, ctx_root c (Some a) = Some b.
Proof. induction c as [|f c IH]; intros a; cbn [ctx_root]; eauto. Qed.

(** X10.  On a well-formed tree whose in-order keys are strictly increasing,
    [successor(x)] of a key [x] of the tree is the key that follows [x] in
    the in-order sequence and [predecessor(x)] the key that precedes it; for
    the last key [successor] throws [ValueError], for the first key
    [predecessor] does. *)
Theorem successor_predecessor_are_in_order_neighbours st fuel x pre post :
  well_formed st → (size (nodes st) ≤ fuel)%nat →
  in_order_traversal fuel record_key [] st = Ok (pre ++ x :: post) st →
  Sorted Z.lt (pre ++ x :: post) →
  successor fuel x st
  = match head post with
    | Some y => Ok y st
    | None => Throw (ValueError msg_no_successor) st
    end
  ∧ predecessor fuel x st
    = match last pre with
      | Some y => Ok y st
      | None => Throw (ValueError msg_no_predecessor) st
      end.
Proof.
  intros [t Ht] Hfuel Hks Hs. pose proof (tsize_le_store st t Ht) as Hsz.
  pose proof (depth_le_tsize t) as Hd. pose proof Ht as (Hnd & Hrep & Hroot).
  assert (Hin : pre ++ x :: post = inorder t).
  { unfold in_order_traversal, bind, get_root in Hks. rewrite Hroot in Hks.
    erewrite in_order_record in Hks; [|done|lia]. congruence. }
  apply sorted_lt_le_NoDup in Hs as [Hle Hdis].
  destruct (search_finds x t None fuel st Hrep) as (a & c & l & r & Hrun & ->);
    [lia|by rewrite <- Hin|rewrite <- Hin; list_mem|].
  rewrite inorder_plug_keys in Hin. cbn [inorder] in Hin.
  rewrite <- !app_assoc in Hin. cbn [app] in Hin.
  rewrite (app_assoc (ctx_before c)) in Hin.
  apply split_at_unique in Hin as [-> ->]; [|done].
  pose proof (length_ctx_depth c (N a l x r)) as Hlen. cbn [depth] in Hlen.
  apply holds_tree_focus in Ht.
  destruct (ctx_root_Some c a) as [b Hb].
  assert (Hroot' : m_root st = Some b) by by rewrite Hroot, root_of_plug.
  split.
  - unfold successor, bind at 1, get_root. rewrite Hroot'.
    rewrite <- Hroot', Hroot. erewrite bind_Ok by exact Hrun.
    destruct (successor_node_spec st c a l x r fuel Ht) as (p & Hsuc & Hp);
      [lia|lia|].
    erewrite bind_Ok by exact Hsuc.
    destruct p as [q|]; cbn [node_with_key] in Hp.
    + destruct Hp as (n & Hn & ->). by apply get_key_eq.
    + by rewrite Hp.
  - unfold predecessor, bind at 1, get_root. rewrite Hroot'.
    rewrite <- Hroot', Hroot. erewrite bind_Ok by exact Hrun.
    destruct (predecessor_node_spec st c a l x r fuel Ht) as (p & Hpre & Hp);
      [lia|lia|].
    erewrite bind_Ok by exact Hpre.
    destruct p as [q|]; cbn [node_with_key] in Hp.
    + destruct Hp as (n & Hn & ->). by apply get_key_eq.
    + by rewrite Hp.
Qed.

Lemma successor_predecessor_are_in_order_neighbours_witness :
  successor 5 5 sample_bfs
  = match head [8; 9] with
    | Some y => Ok y sample_bfs
    | None => Throw (ValueError msg_no_successor) sample_bfs
    end
  ∧ predecessor 5 5 sample_bfs
    = match last [3; 4] with
      | Some y => Ok y sample_bfs
      | None => Throw (ValueError msg_no_predecessor) sample_bfs
      end.
Proof.
  apply (successor_predecessor_are_in_order_neighbours sample_bfs 5 5
           [3; 4] [8; 9]).
  - exact sample_bfs_well_formed.
  - vm_compute. lia.
  - vm_compute. reflexivity.
  - repeat constructor.
Defined.

(** ** [transplant] and [remove] *)

Lemma repr_ctx_rehole h h' c hole hole' :
  NoDup (ctx_addrs c) → repr_ctx h c hole →
  (∀ z, z ∈ ctx_addrs c → ctx_par c ≠ Some z → h' !! z = h !! z) →
  head_frame_ok h' c hole' → repr_ctx h' c hole'.
Proof.
  intros Hnd Hc Hsame Hhead. destruct c as [|f c]; [done|].
  destruct f as [p k s|p s k]; cbn [ctx_addrs frame_addr frame_sibling] in *;
    apply NoDup_cons in Hnd as (Hp & Hnd);
    destruct Hc as (_ & Hs & Hc); cbn [repr_ctx head_frame_ok] in *;
    (repeat split; [done| |]);
    [eapply repr_frame; [|done] | eapply repr_ctx_frame; [|done]
    |eapply repr_frame; [|done] | eapply repr_ctx_frame; [|done] ];
    intros z Hz; (apply Hsame; [list_mem|]); intros [= ->]; apply Hp; list_mem.
Qed.

Lemma ctx_root_in c : ∀ p q,
  ctx_root c (Some p) = Some q → q = p ∨ q ∈ ctx_addrs c.
Proof.
  induction c as [|f c IH]; intros p q Hq; cbn [ctx_root] in Hq.
  - left. congruence.
  - right. destruct (IH _ _ Hq) as [->|Hin]; list_mem.
Qed.

Lemma ptr_eqb_neq (p q : ptr) : p ≠ q → ptr_eqb p q = false.
Proof. intros H. unfold ptr_eqb. by apply bool_decide_eq_false_2. Qed.

Lemma transplant_spec st c a na v parv :
  repr_ctx (nodes st) c (Some a) →
  nodes st !! a = Some na → m_parent na = ctx_par c →
  m_root st = ctx_root c (Some a) →
  NoDup (a :: ctx_addrs c) →
  repr (nodes st) parv v → NoDup (addrs v ++ ctx_addrs c) → a ∉ addrs v →
  (c = [] → v ≠ E) →
  ∃ st',
    transplant (Some a) (root_of v) st = Ok tt st'
    ∧ repr_ctx (nodes st') c (root_of v)
    ∧ repr (nodes st') (ctx_par c) v
    ∧ m_root st' = ctx_root c (root_of v)
    ∧ dom (nodes st') = dom (nodes st)
    ∧ (∀ z, root_of v ≠ Some z → ctx_par c ≠ Some z →
            nodes st' !! z = nodes st !! z).
Proof.
  intros Hc Ha Hpar Hroot Hnda Hv Hndv Hav Hne.
  apply NoDup_cons in Hnda as (Hac & Hndc).
  destruct c as [|f c].
  - destruct v as [|b vl kv vr]; [by destruct Hne|].
    destruct Hv as (Hb & Hvl & Hvr). cbn [ctx_root ctx_par root_of] in *.
    rewrite app_nil_r in Hndv. cbn [addrs] in Hndv. nodup_split.
    unfold transplant. unfold bind at 1, get_root. rewrite Hroot, ptr_eqb_refl.
    unfold bind at 1, set_root. run get_parent_eq. rewrite Hpar.
    erewrite set_parent_eq; [|lk].
    eexists. split; [reflexivity|].
    cbn [nodes with_nodes with_root m_root m_key m_left m_right m_parent].
    split; [done|]. split; [|split; [done|split; [dom_solve|] ] ].
    + repeat split; [lk|apply repr_insert_notin; [nd_solve|done]..].
    + intros z Hz _. rewrite lookup_insert_ne; [done|congruence].
  - assert (Hnr : ptr_eqb (m_root st) (Some a) = false).
    { apply ptr_eqb_neq. rewrite Hroot. cbn [ctx_root]. intros Heq.
      apply ctx_root_in in Heq. apply Hac.
      cbn [ctx_addrs]. destruct Heq as [->|Hin]; list_mem. }
    unfold transplant. unfold bind at 1, get_root. rewrite Hnr.
    run get_parent_eq. rewrite Hpar.
    destruct f as [p kp s|p s kp];
      cbn [ctx_root ctx_par frame_addr ctx_addrs frame_sibling repr_ctx] in *;
      destruct Hc as (Hp & Hs & Hc); nodup_split;
      assert (Hpa : p ≠ a) by (intros ->; apply Hac; list_mem);
      assert (Has : a ∉ addrs s) by (intros ?; apply Hac; list_mem);
      run get_left_eq.
    + rewrite ptr_eqb_refl. run set_left_eq.
      destruct v as [|b vl kv vr]; cbn [root_of].
      * unfold ret. eexists. split; [reflexivity|].
        cbn [nodes with_nodes with_root m_root m_key m_left m_right m_parent].
        split; [|split; [done|split; [done|split; [dom_solve|] ] ] ].
        -- repeat split; [lk| |].
           ++ apply repr_insert_notin; [nd_solve|done].
           ++ apply repr_ctx_insert_notin; [nd_solve|done].
        -- intros z _ Hz. rewrite lookup_insert_ne; [done|congruence].
      * destruct Hv as (Hb & Hvl & Hvr). cbn [addrs] in *. nodup_split.
        assert (Hpb : p ≠ b) by nd_solve.
        erewrite set_parent_eq; [|lk].
        eexists. split; [reflexivity|].
        cbn [nodes with_nodes with_root m_root m_key m_left m_right m_parent].
        split; [|split; [|split; [done|split; [dom_solve|] ] ] ].
        -- repeat split; [lk| |].
           ++ repeat apply repr_insert_notin; [nd_solve|nd_solve|done].
           ++ repeat apply repr_ctx_insert_notin; [nd_solve|nd_solve|done].
        -- repeat split; [lk|repeat apply repr_insert_notin; [nd_solve|nd_solve|done]..].
        -- intros z Hz1 Hz2. rewrite !lookup_insert_ne; [done|congruence..].
    + rewrite (ptr_eqb_root_notin a s Has). run set_right_eq.
      destruct v as [|b vl kv vr]; cbn [root_of].
      * unfold ret. eexists. split; [reflexivity|].
        cbn [nodes with_nodes with_root m_root m_key m_left m_right m_parent].
        split; [|split; [done|split; [done|split; [dom_solve|] ] ] ].
        -- repeat split; [lk| |].
           ++ apply repr_insert_notin; [nd_solve|done].
           ++ apply repr_ctx_insert_notin; [nd_solve|done].
        -- intros z _ Hz. rewrite lookup_insert_ne; [done|congruence].
      * destruct Hv as (Hb & Hvl & Hvr). cbn [addrs] in *. nodup_split.
        assert (Hpb : p ≠ b) by nd_solve.
        erewrite set_parent_eq; [|lk].
        eexists. split; [reflexivity|].
        cbn [nodes with_nodes with_root m_root m_key m_left m_right m_parent].
        split; [|split; [|split; [done|split; [dom_solve|] ] ] ].
        -- repeat split; [lk| |].
           ++ repeat apply repr_insert_notin; [nd_solve|nd_solve|done].
           ++ repeat apply repr_ctx_insert_notin; [nd_solve|nd_solve|done].
        -- repeat split; [lk|repeat apply repr_insert_notin; [nd_solve|nd_solve|done]..].
        -- intros z Hz1 Hz2. rewrite !lookup_insert_ne; [done|congruence..].
Qed.

Ltac mem_cases :=
  repeat match goal with
    | H : _ ∈ _ ++ _ |- _ => apply elem_of_app in H as [H|H]
    | H : _ ∈ _ :: _ |- _ => apply elem_of_cons in H as [->|H]
    | H : _ ∈ [] |- _ => by apply elem_of_nil in H
    end.

(** Distinctness goals from the facts [nodup_split] leaves in the
    context. *)
Ltac nodup_goal :=
  cbn [addrs app ctx_addrs frame_addr frame_sibling];
  repeat match goal with
    | |- NoDup (_ :: _) => apply NoDup_cons; split
    | |- NoDup (_ ++ _) => apply NoDup_app; split; [|split]
    | |- NoDup [] => apply NoDup_nil_2
    | |- NoDup _ => assumption
    | |- ∀ z, z ∈ _ → z ∉ _ => intros ? ? ?
    | |- _ ∉ _ => intros ?
    | |- _ ≠ _ => intros ?; subst
    end;
  try (mem_cases; nd_false).

Lemma ctx_par_notin c z : z ∉ ctx_addrs c → ctx_par c ≠ Some z.
Proof.
  destruct c as [|f c]; [done|]. cbn [ctx_par ctx_addrs].
  intros H [= <-]. apply H. by left.
Qed.

Lemma focus_intro st c t :
  NoDup (addrs t ++ ctx_addrs c) → repr_ctx (nodes st) c (root_of t) →
  repr (nodes st) (ctx_par c) t → m_root st = ctx_root c (root_of t) →
  focus st c t.
Proof. by repeat split. Qed.

(** The last two steps of [remove] for a node with two children: the
    successor [b], already at the top of the right branch, takes the place
    of the node [a] and adopts its left branch. *)
Lemma remove_adopt st c a rho la ll kl lr k b kb R pb :
  repr_ctx (nodes st) c (Some a) →
  nodes st !! a = Some (mkNode k (Some la) rho (ctx_par c)) →
  m_root st = ctx_root c (Some a) →
  repr (nodes st) (Some a) (N la ll kl lr) →
  repr (nodes st) pb (N b E kb R) →
  NoDup ((addrs (N la ll kl lr) ++ a :: b :: addrs R) ++ ctx_addrs c) →
  ∃ st',
    (transplant (Some a) (Some b) ;;;
     l <- get_left (Some a) ;;
     set_left (Some b) l ;;;
     sl <- get_left (Some b) ;;
     set_parent sl (Some b)) st = Ok tt st'
    ∧ focus st' c (N b (N la ll kl lr) kb R)
    ∧ dom (nodes st') = dom (nodes st).
Proof.
  intros Hc Ha Hroot Hl Hv Hnd.
  cbn [addrs] in Hnd. nodup_split.
  destruct (transplant_spec st c a _ (N b E kb R) pb Hc Ha eq_refl Hroot)
    as (st3 & Hrun & Hc3 & Hv3 & Hroot3 & Hdom3 & Hsame3);
    [nodup_goal|done|nodup_goal|nodup_goal|done|].
  cbn [root_of] in *.
  assert (Hpa : ctx_par c ≠ Some a) by (apply ctx_par_notin; nodup_goal).
  assert (Hpla : ctx_par c ≠ Some la) by (apply ctx_par_notin; nodup_goal).
  assert (Hab : a ≠ b) by nd_solve.
  assert (Hlab : la ≠ b) by nd_solve.
  assert (Hlaa : la ≠ a) by nd_solve.
  assert (Ha3 : nodes st3 !! a = Some (mkNode k (Some la) rho (ctx_par c))).
  { rewrite Hsame3; [done|congruence|done]. }
  destruct Hl as (Hla & Hll & Hlr).
  assert (Hla3 : nodes st3 !! la
                 = Some (mkNode kl (root_of ll) (root_of lr) (Some a))).
  { rewrite Hsame3; [done|congruence|done]. }
  assert (Hsub : ∀ par s, (∀ z, z ∈ addrs s → z ≠ b ∧ ctx_par c ≠ Some z) →
                          repr (nodes st) par s → repr (nodes st3) par s).
  { intros par s Hs. apply repr_frame. intros z Hz.
    destruct (Hs z Hz). apply Hsame3; [congruence|done]. }
  assert (Hll3 : repr (nodes st3) (Some la) ll).
  { apply Hsub; [|done]. intros z Hz.
    split; [|apply ctx_par_notin]; nodup_goal. }
  assert (Hlr3 : repr (nodes st3) (Some la) lr).
  { apply Hsub; [|done]. intros z Hz.
    split; [|apply ctx_par_notin]; nodup_goal. }
  destruct Hv3 as (Hb3 & _ & HR3).
  erewrite bind_Ok by exact Hrun.
  run get_left_eq. run set_left_eq. run get_left_eq.
  erewrite set_parent_eq; [|lk].
  eexists. split; [reflexivity|].
  cbn [nodes with_nodes with_root m_root m_key m_left m_right m_parent root_of].
  split; [|by rewrite <- Hdom3; dom_solve].
  apply focus_intro; cbn [root_of nodes with_nodes m_root].
  - nodup_goal.
  - repeat apply repr_ctx_insert_notin; [nd_solve|nd_solve|done].
  - repeat split; [lk|lk|..];
      repeat apply repr_insert_notin; first [done|nd_solve].
  - done.
Qed.

Lemma plug_app c1 c2 : ∀ t, plug (c1 ++ c2) t = plug c2 (plug c1 t).
Proof. induction c1 as [|f c1 IH]; intros t; [done|]. cbn [app plug]. apply IH. Qed.

Lemma root_in_addrs t z : root_of t = Some z → z ∈ addrs t.
Proof. destruct t as [|a l k r]; [done|]. intros [= ->]. list_mem. Qed.

Lemma leftmost_decomp t :
  t ≠ E → ∃ cl b kb rb, Forall is_InL cl ∧ t = plug cl (N b E kb rb).
Proof.
  induction t as [|a l IHl k r _]; intros Hne; [done|].
  destruct l as [|la ll kl lr].
  - by exists [], a, k, r.
  - destruct IHl as (cl & b & kb & rb & Hcl & ->); [done|].
    exists (cl ++ [InL a k r]), b, kb, rb. split.
    + apply Forall_app. split; [done|]. by repeat constructor.
    + by rewrite plug_snoc.
Qed.

Lemma ctx_before_leftmost cl : Forall is_InL cl → ctx_before cl = [].
Proof.
  induction 1 as [|f cl Hf _ IH]; [done|]. by destruct f.
Qed.

Lemma minimum_node_leftmost st b kb rb cl : ∀ par fuel,
  Forall is_InL cl →
  repr (nodes st) par (plug cl (N b E kb rb)) → (length cl ≤ fuel)%nat →
  minimum_node fuel (root_of (plug cl (N b E kb rb))) st = Ok (Some b) st.
Proof.
  induction cl as [|f cl IH] using rev_ind; intros par fuel Hcl Hrep Hfuel.
  - destruct Hrep as (Hb & _). cbn [plug root_of].
    destruct fuel; cbn [minimum_node]; by run get_left_eq.
  - apply Forall_app in Hcl as [Hcl Hf]. apply Forall_cons in Hf as [Hf _].
    destruct f as [p kp s|]; [|done].
    rewrite length_app in Hfuel. cbn [length] in Hfuel.
    destruct fuel as [|fuel]; [lia|].
    rewrite plug_snoc in Hrep |- *. cbn [fill root_of] in *.
    destruct Hrep as (Hp & Hl & _).
    cbn [minimum_node]. run get_left_eq.
    destruct (ctx_root_Some cl b) as [q Hq].
    pose proof (root_of_plug cl (N b E kb rb)) as Hr. cbn [root_of] in Hr.
    rewrite Hq in Hr. rewrite Hr. rewrite <- Hr.
    eapply IH; [done|exact Hl|lia].
Qed.

(** The first steps of [remove] when the successor [b] is not the right
    child of the node [a]: [b] is replaced by its right branch and takes
    over the right branch of [a]. *)
Lemma remove_detach st c a l k f cl b kb rb :
  focus st c (N a l k (plug (f :: cl) (N b E kb rb))) →
  ∃ st2 ra Rl kr Rr pb,
    (sr <- get_right (Some b) ;;
     transplant (Some b) sr ;;;
     r <- get_right (Some a) ;;
     set_right (Some b) r ;;;
     sr' <- get_right (Some b) ;;
     set_parent sr' (Some b)) st = Ok tt st2
    ∧ plug (f :: cl) rb = N ra Rl kr Rr
    ∧ repr_ctx (nodes st2) c (Some a)
    ∧ nodes st2 !! a = Some (mkNode k (root_of l) (Some ra) (ctx_par c))
    ∧ m_root st2 = ctx_root c (Some a)
    ∧ repr (nodes st2) (Some a) l
    ∧ repr (nodes st2) pb (N b E kb (N ra Rl kr Rr))
    ∧ dom (nodes st2) = dom (nodes st).
Proof.
  intros Hf.
  remember ((f :: cl) ++ InR a l k :: c) as C1 eqn:HC1.
  assert (Hplug : ∀ t, plug C1 t = plug c (N a l k (plug (f :: cl) t))).
  { intros t. by rewrite HC1, plug_app. }
  assert (Hf1 : focus st C1 (N b E kb rb)).
  { apply holds_tree_focus. rewrite Hplug. by apply holds_tree_focus. }
  pose proof Hf1 as (Hnd1 & Hc1 & (Hb & _ & Hrb) & Hroot1).
  cbn [root_of addrs app] in *. nodup_split.
  assert (HbC : ctx_par C1 ≠ Some b) by (apply ctx_par_notin; nodup_goal).
  assert (Hbrb : root_of rb ≠ Some b).
  { intros Heq. apply root_in_addrs in Heq. nd_solve. }
  destruct (transplant_spec st C1 b _ rb (Some b) Hc1 Hb eq_refl Hroot1)
    as (st1 & Hrun1 & Hc1' & Hrb1 & Hroot1' & Hdom1 & Hsame1);
    [nodup_goal|done|nodup_goal|nodup_goal|by rewrite HC1|].
  assert (Hb1 : nodes st1 !! b
                = Some (mkNode kb None (root_of rb) (ctx_par C1))).
  { by rewrite Hsame1. }
  assert (Hf1' : focus st1 c (N a l k (plug (f :: cl) rb))).
  { apply holds_tree_focus. rewrite <- Hplug. apply holds_tree_focus.
    apply focus_intro; [nodup_goal|done..]. }
  assert (Hfresh : ∀ z, z ∈ addrs (N a l k (plug (f :: cl) rb)) ++ ctx_addrs c →
                        z ≠ b).
  { intros z Hz ->. rewrite <- addrs_plug, <- Hplug, addrs_plug in Hz.
    mem_cases; nd_false. }
  destruct (plug (f :: cl) rb) as [|ra Rl kr Rr] eqn:HR.
  { exfalso. pose proof (root_of_plug (f :: cl) rb) as Hr. rewrite HR in Hr.
    cbn [root_of ctx_root] in Hr.
    destruct (ctx_root_Some cl (frame_addr f)) as [q Hq]. congruence. }
  pose proof Hf1' as (Hnd' & Hc' & (Ha' & Hl' & (Hra & HRl & HRr)) & Hroot').
  cbn [root_of addrs] in *.
  assert (Hba : a ≠ b) by (apply Hfresh; list_mem).
  assert (Hbra : ra ≠ b) by (apply Hfresh; list_mem).
  nodup_split.
  assert (Hraa : ra ≠ a) by nodup_goal.
  exists (with_nodes
            (<[ra := mkNode kr (root_of Rl) (root_of Rr) (Some b)]>
               (<[b := mkNode kb None (Some ra) (ctx_par C1)]> (nodes st1)))
            st1), ra, Rl, kr, Rr, (ctx_par C1).
  split.
  { run get_right_eq. erewrite bind_Ok by exact Hrun1.
    run get_right_eq. run set_right_eq. run get_right_eq.
    erewrite set_parent_eq; [|lk]. done. }
  cbn [nodes with_nodes with_root m_root].
  split; [done|]. split.
  { repeat apply repr_ctx_insert_notin; [nodup_goal| |done].
    intros Hin. apply (Hfresh b); [list_mem|done]. }
  split; [lk|]. split; [done|]. split.
  { repeat apply repr_insert_notin; [nodup_goal| |done].
    intros Hin. apply (Hfresh b); [list_mem|done]. }
  split.
  { split; [lk|]. split; [done|]. split; [lk|].
    split; (repeat apply repr_insert_notin; [nodup_goal| |done]);
      intros Hin; (apply (Hfresh b); [list_mem|done]). }
  rewrite <- Hdom1. dom_solve.
Qed.

Lemma remove_node_spec st c a l k r fuel :
  focus st c (N a l k r) → (c = [] → l ≠ E ∨ r ≠ E) → (depth r ≤ fuel)%nat →
  ∃ st' t',
    remove_node fuel (Some a) st = Ok tt st'
    ∧ focus st' c t'
    ∧ inorder t' = inorder l ++ inorder r
    ∧ dom (nodes st') = dom (nodes st).
Proof.
  intros Hf Hne Hfuel.
  pose proof Hf as (Hnd & Hc & (Ha & Hl & Hr) & Hroot). cbn [root_of] in *.
  destruct l as [|la ll kl lr]; [|destruct r as [|ra rl rk rr] ];
    cbn [root_of] in *.
  - (* no left child *)
    cbn [addrs app] in Hnd. nodup_split.
    destruct (transplant_spec st c a _ r (Some a) Hc Ha eq_refl Hroot)
      as (st' & Hrun & Hc' & Hr' & Hroot' & Hdom' & _);
      [nodup_goal|done|nodup_goal|nodup_goal| |].
    { intros ->. destruct (Hne eq_refl); [done|]. by destruct r. }
    exists st', r. unfold remove_node. run get_left_eq. run get_right_eq. split; [done|]. split; [|done].
    apply focus_intro; [nodup_goal|done..].
  - (* no right child *)
    { cbn [addrs app] in Hnd. nodup_split.
      destruct (transplant_spec st c a _ (N la ll kl lr) (Some a) Hc Ha
                  eq_refl Hroot)
        as (st' & Hrun & Hc' & Hl' & Hroot' & Hdom' & _);
        [nodup_goal|done|nodup_goal|nodup_goal|done|].
      exists st', (N la ll kl lr). unfold remove_node.
      run get_left_eq. run get_right_eq. run get_left_eq.
      split; [done|]. split; [|split; [by rewrite app_nil_r|done] ].
      apply focus_intro; [nodup_goal|done..]. }
  - (* two children *)
    { destruct (leftmost_decomp (N ra rl rk rr)) as (cl & b & kb & rb & Hcl & Hdec);
        [done|].
      pose proof (length_ctx_depth cl (N b E kb rb)) as Hlen.
      rewrite <- Hdec in Hlen. cbn [depth] in Hlen.
      assert (Hmin : minimum_node fuel (Some ra) st = Ok (Some b) st).
      { change (Some ra) with (root_of (N ra rl rk rr)). rewrite Hdec.
        eapply minimum_node_leftmost; [done|rewrite <- Hdec; exact Hr|].
        cbn [depth] in Hfuel. lia. }
      assert (Hino : inorder (N ra rl rk rr)
                     = kb :: inorder (plug cl rb)).
      { rewrite Hdec, !inorder_plug_keys, ctx_before_leftmost by done.
        cbn [inorder app]. done. }
      unfold remove_node. run get_left_eq. run get_right_eq.
      unfold successor_node. run get_right_eq.
      erewrite bind_Ok by exact Hmin. run get_right_eq.
      destruct cl as [|f cl].
      * (* the successor is the right child *)
        cbn [plug] in Hdec. injection Hdec as -> -> -> ->.
        rewrite ptr_eqb_refl. cbn [negb]. unfold bind at 1, ret.
        destruct (remove_adopt st c a (Some b) la ll kl lr k b kb rb (Some a))
          as (st' & Hrun & Hf' & Hdom'); [done..|].
        exists st', (N b (N la ll kl lr) kb rb).
        split; [done|]. split; [done|]. split; [|done].
        cbn [inorder]. by rewrite <- !app_assoc.
      * (* the successor is further down *)
        assert (Hperm : addrs (N ra rl rk rr) ≡ₚ b :: addrs (plug (f :: cl) rb)).
        { rewrite Hdec, !addrs_plug. done. }
        assert (Hrab : ra ≠ b).
        { intros <-.
          assert (Hnd2 : NoDup (addrs (N ra rl rk rr))).
          { clear -Hnd. cbn [addrs] in Hnd. nodup_split. nodup_goal. }
          rewrite Hdec, addrs_plug in Hnd2. cbn [addrs app] in Hnd2.
          pose proof (root_of_plug (f :: cl) (N ra E kb rb)) as Hr0.
          rewrite <- Hdec in Hr0. cbn [root_of ctx_root] in Hr0.
          symmetry in Hr0. apply ctx_root_in in Hr0.
          apply NoDup_cons in Hnd2 as (Hb & _). apply Hb.
          apply elem_of_app. right. cbn [ctx_addrs]. destruct Hr0 as [->|?]; list_mem. }
        rewrite (ptr_eqb_neq (Some ra) (Some b)) by congruence. cbn [negb].
        rewrite Hdec in Hf.
        destruct (remove_detach st c a (N la ll kl lr) k f cl b kb rb Hf)
          as (st2 & ra' & Rl & kr & Rr & pb & Hrun2 & HR & Hc2 & Ha2 & Hroot2
              & Hl2 & Hv2 & Hdom2).
        erewrite bind_Ok by exact Hrun2.
        destruct (remove_adopt st2 c a (Some ra') la ll kl lr k b kb
                    (N ra' Rl kr Rr) pb)
          as (st' & Hrun & Hf' & Hdom'); [done..| |].
        { rewrite <- HR, <- Hperm. exact Hnd. }
        exists st', (N b (N la ll kl lr) kb (N ra' Rl kr Rr)).
        split; [done|]. split; [done|]. split; [|by rewrite Hdom', Hdom2].
        rewrite <- HR. cbn [inorder] in *. rewrite Hino.
        by rewrite <- !app_assoc. }
Qed.

Lemma StronglySorted_without {A} (R : relation A) l1 x l2 :
  StronglySorted R (l1 ++ x :: l2) → StronglySorted R (l1 ++ l2).
Proof.
  intros H. apply StronglySorted_app in H as (H12 & H1 & H2).
  apply StronglySorted_cons in H2 as (_ & H2).
  apply StronglySorted_app. split; [|done].
  intros y z Hy Hz. apply H12; [done|]. by right.
Qed.

(** X11.  [remove(x)] on a well-formed tree with at least two keys, in
    non-decreasing in-order sequence, of which [x] is one: it returns
    normally, the tree is well formed again, and its in-order sequence is
    the old one without one occurrence of [x], still non-decreasing. *)
Theorem remove_deletes_one_occurrence st fuel x ks :
  well_formed st → (size (nodes st) ≤ fuel)%nat →
  in_order_traversal fuel record_key [] st = Ok ks st →
  Sorted Z.le ks → x ∈ ks → (2 ≤ length ks)%nat →
  ∃ st' ks',
    remove fuel x st = Ok tt st'
    ∧ well_formed st'
    ∧ in_order_traversal fuel record_key [] st' = Ok ks' st'
    ∧ ks ≡ₚ x :: ks'
    ∧ Sorted Z.le ks'.
Proof.
  intros [t Ht] Hfuel Hks Hs Hx Hlen.
  pose proof (tsize_le_store st t Ht) as Hsz.
  pose proof (depth_le_tsize t) as Hd. pose proof Ht as (Hnd & Hrep & Hroot).
  assert (ks = inorder t) as ->.
  { unfold in_order_traversal, bind, get_root in Hks. rewrite Hroot in Hks.
    erewrite in_order_record in Hks; [|done|lia]. congruence. }
  apply (Sorted_StronglySorted _) in Hs.
  destruct (search_finds x t None fuel st Hrep) as (a & c & l & r & Hrun & ->);
    [lia|done|done|].
  apply holds_tree_focus in Ht.
  pose proof (depth_plug c (N a l x r)) as Hdp. cbn [depth] in Hdp.
  destruct (remove_node_spec st c a l x r fuel Ht)
    as (st' & t' & Hrem & Hf' & Hino & Hdom); [|lia|].
  { intros ->. cbn [plug inorder] in Hlen.
    destruct l; [|by left]. destruct r; [|by right]. cbn in Hlen. lia. }
  exists st', (inorder (plug c t')).
  destruct (ctx_root_Some c a) as [b Hb].
  assert (Hroot' : m_root st = Some b) by by rewrite Hroot, root_of_plug.
  split; [|split; [|split; [|split] ] ].
  - unfold remove, bind at 1, get_root. rewrite Hroot'.
    rewrite <- Hroot', Hroot. by erewrite bind_Ok by exact Hrun.
  - exists (plug c t'). by apply holds_tree_focus.
  - apply in_order_traversal_focus; [done|].
    by rewrite <- size_dom, Hdom, size_dom.
  - rewrite !inorder_plug_keys, Hino. cbn [inorder].
    rewrite <- !app_assoc. cbn [app]. by rewrite <- !Permutation_middle.
  - apply StronglySorted_Sorted.
    rewrite inorder_plug_keys, Hino. rewrite inorder_plug_keys in Hs.
    cbn [inorder] in Hs.
    replace (ctx_before c ++ (inorder l ++ x :: inorder r) ++ ctx_after c)
      with ((ctx_before c ++ inorder l) ++ x :: (inorder r ++ ctx_after c))
      in Hs by (by rewrite <- !app_assoc).
    replace (ctx_before c ++ (inorder l ++ inorder r) ++ ctx_after c)
      with ((ctx_before c ++ inorder l) ++ (inorder r ++ ctx_after c))
      by (by rewrite <- !app_assoc).
    by apply StronglySorted_without in Hs.
Qed.

Lemma remove_deletes_one_occurrence_witness :
  ∃ st' ks',
    remove 5 5 sample_bfs = Ok tt st'
    ∧ well_formed st'
    ∧ in_order_traversal 5 record_key [] st' = Ok ks' st'
    ∧ [3; 4; 5; 8; 9] ≡ₚ 5 :: ks'
    ∧ Sorted Z.le ks'.
Proof.
  apply (remove_deletes_one_occurrence sample_bfs 5 5 [3; 4; 5; 8; 9]).
  - exact sample_bfs_well_formed.
  - vm_compute. lia.
  - vm_compute. reflexivity.
  - repeat constructor; lia.
  - apply (bool_decide_unpack _). vm_compute. exact I.
  - cbn. lia.
Defined.

(** ** [empty] and [root] *)

(** X12.  On a well-formed tree [empty()] tells whether the traversals visit
    no key, and [root()] is the first key of the pre-order traversal; on an
    empty tree [root()] reads through the null root. *)
Theorem root_and_empty_on_well_formed st fuel :
  well_formed st → (size (nodes st) ≤ fuel)%nat →
  ∃ pre,
    pre_order_traversal fuel record_key [] st = Ok pre st
    ∧ is_empty st = Ok (bool_decide (pre = [])) st
    ∧ root_key st
      = match head pre with
        | Some k => Ok k st
        | None => Fault NullDeref
        end.
Proof.
  intros [t Ht] Hfuel. pose proof (tsize_le_store st t Ht) as Hsz.
  pose proof (depth_le_tsize t) as Hd. destruct Ht as (Hnd & Hrep & Hroot).
  exists (preorder t). split; [|split].
  - unfold pre_order_traversal, bind, get_root. rewrite Hroot.
    rewrite (pre_order_spec record_key record_key_keeps_nodes t None);
      [apply visits_record_key|done|lia].
  - unfold is_empty, bind, get_root, ret. rewrite Hroot. by destruct t.
  - unfold root_key, bind at 1, get_root. rewrite Hroot.
    destruct t as [|a l k r]; [done|]. destruct Hrep as (Ha & _).
    cbn [root_of preorder head]. by rewrite (get_key_eq _ _ _ Ha).
Qed.

Lemma root_and_empty_on_well_formed_witness :
  ∃ pre,
    pre_order_traversal 5 record_key [] sample_bfs = Ok pre sample_bfs
    ∧ is_empty sample_bfs = Ok (bool_decide (pre = [])) sample_bfs
    ∧ root_key sample_bfs
      = match head pre with
        | Some k => Ok k sample_bfs
        | None => Fault NullDeref
        end.
Proof.
  apply (root_and_empty_on_well_formed sample_bfs 5).
  - exact sample_bfs_well_formed.
  - vm_compute. lia.
Defined.

(** ** Insertion and lookup *)

Lemma search_key_spec st t fuel x :
  holds_tree st t → (depth t ≤ fuel)%nat → StronglySorted Z.le (inorder t) →
  search_key fuel x st = Ok (bool_decide (x ∈ inorder t)) st.
Proof.
  intros (Hnd & Hrep & Hroot) Hfuel Hs.
  unfold search_key, bind at 1, get_root. rewrite Hroot.
  destruct (decide (x ∈ inorder t)) as [Hx|Hx].
  - destruct (search_present x t None fuel st Hrep) as (a & n & Hrun & _);
      [lia|done|done|].
    erewrite bind_Ok; [|exact Hrun]. unfold ret.
    by rewrite !bool_decide_eq_true_2 by eauto.
  - erewrite bind_Ok; [|eapply search_absent; [done|lia|done] ].
    unfold ret. rewrite !bool_decide_eq_false_2; [done|done|].
    by intros [? ?].
Qed.

(** X13.  After any sequence of insertions into an empty tree, by
    [iter_insert] and [insert] or by [AVLTree::insert], [search(x)] is true
    exactly for the keys that were inserted. *)
Theorem search_finds_exactly_inserted_keys (ops : list bst_insertion)
    (keys : list key) (fuel : nat) (x : key) :
  (length ops ≤ fuel)%nat → (2 * length keys ≤ fuel)%nat →
  Z.of_nat (length keys) <= INT_MAX →
  (∃ st, run_insertions fuel ops empty_tree = Ok tt st
         ∧ search_key fuel x st
           = Ok (bool_decide (x ∈ map bst_insertion_key ops)) st)
  ∧ (∃ rots st, AVLTree_from_vec fuel keys empty_tree = Ok rots st
                ∧ search_key fuel x st = Ok (bool_decide (x ∈ keys)) st).
Proof.
  intros Hf1 Hf2 Hmax.
  assert (Hgen : ∀ st t (ks : list key),
            holds_exactly st t → StronglySorted Z.le (inorder t) →
            inorder t ≡ₚ ks → (tsize t ≤ fuel)%nat →
            search_key fuel x st = Ok (bool_decide (x ∈ ks)) st).
  { intros st t ks (Ht & Hdom) Hs Hperm Hsz.
    pose proof (depth_le_tsize t) as Hd.
    rewrite (search_key_spec st t fuel x); [|done|lia|done].
    f_equal. apply bool_decide_ext. by rewrite Hperm. }
  split.
  - destruct (run_insertions_spec ops empty_tree E fuel holds_exactly_empty)
      as (st & t & Hrun & Ht & Hb & Hin & Hsz); [done|cbn; lia|].
    cbn in Hsz. exists st. split; [done|].
    apply (Hgen st t); [done|by apply bst_sorted|by rewrite Hin, app_nil_r|lia].
  - destruct (AVLTree_from_vec_spec keys empty_tree E fuel holds_exactly_empty)
      as (rots & st & t & Hrun & Ht & Ha & Hs & Hin & Hsz);
      [done|constructor|cbn; lia|cbn; lia|].
    cbn in Hsz. exists rots, st. split; [done|].
    apply (Hgen st t); [done|done|by rewrite Hin, app_nil_r|lia].
Qed.

Lemma search_finds_exactly_inserted_keys_witness :
  (∃ st,
     run_insertions 6 [ByIterInsert 5; ByInsert 3; ByIterInsert 8] empty_tree
     = Ok tt st
     ∧ search_key 6 3 st
       = Ok (bool_decide
               (3 ∈ map bst_insertion_key
                      [ByIterInsert 5; ByInsert 3; ByIterInsert 8])) st)
  ∧ (∃ rots st,
       AVLTree_from_vec 6 [10; 20; 30] empty_tree = Ok rots st
       ∧ search_key 6 3 st = Ok (bool_decide (3 ∈ [10; 20; 30])) st).
Proof.
  apply (search_finds_exactly_inserted_keys
           [ByIterInsert 5; ByInsert 3; ByIterInsert 8] [10; 20; 30] 6 3).
  - vm_compute. lia.
  - vm_compute. lia.
  - vm_compute. discriminate.
Defined.

(** ** Parent links *)

Lemma links_of_node st t a n :
  holds_exactly st t → nodes st !! a = Some n →
  is_root (Some a) st = Ok (bool_decide (m_root st = Some a)) st
  ∧ (∀ c, m_left n = Some c ∨ m_right n = Some c →
          get_parent (Some c) st = Ok (Some a) st)
  ∧ (∀ p, m_parent n = Some p →
          ∃ np, nodes st !! p = Some np
                ∧ (m_left np = Some a ∨ m_right np = Some a)).
Proof.
  intros Hex Hn. pose proof Hex as (Ht & _).
  destruct (node_subtree st t a n Hex Hn) as (c & l & k & r & -> & -> & Hl & Hr).
  apply holds_tree_focus in Ht. destruct Ht as (Hnd & Hc & _ & Hroot).
  cbn [root_of m_left m_right m_parent] in *.
  split; [|split].
  - unfold is_root. run get_parent_eq. unfold ret. f_equal.
    destruct c as [|f c]; cbn [ctx_par ctx_root] in *.
    + rewrite (bool_decide_eq_true_2 (m_root st = Some a)) by done.
      by rewrite bool_decide_eq_false_2 by (by intros [? ?]).
    + rewrite (bool_decide_eq_true_2 (is_Some _)) by eauto.
      rewrite bool_decide_eq_false_2; [done|].
      rewrite Hroot. intros Heq. apply ctx_root_in in Heq.
      cbn [addrs ctx_addrs] in Hnd. apply NoDup_app in Hnd as (_ & Hd & _).
      apply (Hd a); [list_mem|]. destruct Heq as [->|?]; list_mem.
  - intros c0 [Hc0|Hc0].
    + destruct l as [|la ll kl lr]; [done|]. cbn [root_of] in Hc0.
      injection Hc0 as ->. destruct Hl as (Hla & _).
      by rewrite (get_parent_eq _ _ _ Hla).
    + destruct r as [|ra rl kr rr]; [done|]. cbn [root_of] in Hc0.
      injection Hc0 as ->. destruct Hr as (Hra & _).
      by rewrite (get_parent_eq _ _ _ Hra).
  - intros p Hp. destruct c as [|[q kq s|q s kq] c]; [done|..];
      cbn [ctx_par frame_addr repr_ctx] in *; injection Hp as ->;
      destruct Hc as (Hq & _); eexists; (split; [exact Hq|]);
      cbn [m_left m_right]; auto.
Qed.

(** X14.  After any sequence of insertions into an empty tree, with the
    rotations that [AVLTree::insert] makes, the back references agree with
    the child links at every node: [is_root()] holds for the node [m_root]
    points to and for no other, the parent of each child of a node is that
    node, and a node that has a parent is one of its children. *)
Theorem parent_links_agree_after_insertions (ops : list bst_insertion)
    (keys : list key) (fuel : nat) :
  (length ops ≤ fuel)%nat → (2 * length keys ≤ fuel)%nat →
  Z.of_nat (length keys) <= INT_MAX →
  let links_agree (st : Tree) :=
    ∀ a n, nodes st !! a = Some n →
      is_root (Some a) st = Ok (bool_decide (m_root st = Some a)) st
      ∧ (∀ c, m_left n = Some c ∨ m_right n = Some c →
              get_parent (Some c) st = Ok (Some a) st)
      ∧ (∀ p, m_parent n = Some p →
              ∃ np, nodes st !! p = Some np
                    ∧ (m_left np = Some a ∨ m_right np = Some a)) in
  (∃ st, run_insertions fuel ops empty_tree = Ok tt st ∧ links_agree st)
  ∧ (∃ rots st, AVLTree_from_vec fuel keys empty_tree = Ok rots st
                ∧ links_agree st).
Proof.
  intros Hf1 Hf2 Hmax links_agree. split.
  - destruct (run_insertions_spec ops empty_tree E fuel holds_exactly_empty)
      as (st & t & Hrun & Ht & _); [done|cbn; lia|].
    exists st. split; [done|]. intros a n Hn. by eapply links_of_node.
  - destruct (AVLTree_from_vec_spec keys empty_tree E fuel holds_exactly_empty)
      as (rots & st & t & Hrun & Ht & _);
      [done|constructor|cbn; lia|cbn; lia|].
    exists rots, st. split; [done|]. intros a n Hn. by eapply links_of_node.
Qed.

Lemma parent_links_agree_after_insertions_witness :
  let links_agree (st : Tree) :=
    ∀ a n, nodes st !! a = Some n →
      is_root (Some a) st = Ok (bool_decide (m_root st = Some a)) st
      ∧ (∀ c, m_left n = Some c ∨ m_right n = Some c →
              get_parent (Some c) st = Ok (Some a) st)
      ∧ (∀ p, m_parent n = Some p →
              ∃ np, nodes st !! p = Some np
                    ∧ (m_left np = Some a ∨ m_right np = Some a)) in
  (∃ st,
     run_insertions 6 [ByIterInsert 5; ByInsert 3; ByIterInsert 8] empty_tree
     = Ok tt st ∧ links_agree st)
  ∧ (∃ rots st,
       AVLTree_from_vec 6 [10; 20; 30] empty_tree = Ok rots st
       ∧ links_agree st).
Proof.
  apply (parent_links_agree_after_insertions
           [ByIterInsert 5; ByInsert 3; ByIterInsert 8] [10; 20; 30] 6).
  - vm_compute. lia.
  - vm_compute. lia.
  - vm_compute. discriminate.
Defined.

(** ** [remove] on an [AVLTree] *)

(** X15.  [AVLTree] inherits [remove] from [BinarySearchTree], which makes
    no rotation: there is a tree built by [AVLTree::insert] from which one
    [remove] leaves a root whose subtrees differ in height by two. *)
Theorem avl_remove_can_unbalance :
  ∃ (keys : list key) (x : key) (fuel : nat) rots st st' a n hl hr,
    AVLTree_from_vec fuel keys empty_tree = Ok rots st
    ∧ remove fuel x st = Ok tt st'
    ∧ m_root st' = Some a ∧ nodes st' !! a = Some n
    ∧ height fuel (m_left n) st' = Ok hl st'
    ∧ height fuel (m_right n) st' = Ok hr st'
    ∧ Z.abs (hl - hr) = 2.
Proof.
  exists [2; 1; 3; 4], 1, 8%nat.
  destruct (AVLTree_from_vec 8 [2; 1; 3; 4] empty_tree) as [rots st| | |] eqn:Hrun;
    try (vm_compute in Hrun; discriminate).
  exists rots, st.
  assert (Hst : st = state_after (AVLTree_from_vec 8 [2; 1; 3; 4]) empty_tree)
    by (unfold state_after; by rewrite Hrun).
  destruct (remove 8 1 st) as [[] st'| | |] eqn:Hrem;
    try (rewrite Hst in Hrem; vm_compute in Hrem; discriminate).
  exists st'.
  assert (Hst' : st' = state_after (remove 8 1) st)
    by (unfold state_after; by rewrite Hrem).
  exists 1%positive, (mkNode 2 None (Some 3%positive) None), (-1), 1.
  split; [done|]. split; [done|]. rewrite Hst', Hst.
  repeat split; vm_compute; reflexivity.
Qed.

(** ** The breadth-first constructor *)

Lemma with_nodes_same st : with_nodes (nodes st) st = st.
Proof. by destruct st. Qed.

(** A new node [c] becomes the left child of [a], whose left link is
    null. *)
Lemma bfs_attach_left st t a ka ra pa k :
  holds_exactly st t →
  nodes st !! a = Some (mkNode ka None ra pa) →
  ∃ st' t',
    (c <- make_shared k ;;
     set_left (Some a) c ;;;
     l <- get_left (Some a) ;;
     set_parent l (Some a)) st = Ok tt st'
    ∧ get_left (Some a) st' = Ok (Some (fresh (dom (nodes st)))) st'
    ∧ nodes st' !! fresh (dom (nodes st))
      = Some (mkNode k None None (Some a))
    ∧ nodes st' !! a = Some (mkNode ka (Some (fresh (dom (nodes st)))) ra pa)
    ∧ (∀ z, z ≠ a → z ≠ fresh (dom (nodes st)) →
            nodes st' !! z = nodes st !! z)
    ∧ m_root st' = m_root st
    ∧ holds_exactly st' t'.
Proof.
  intros Hex Ha. pose proof Hex as (Ht & Hdom).
  set (c := fresh (dom (nodes st))).
  assert (Hc : c ∉ dom (nodes st)) by apply is_fresh.
  assert (Hca : c ≠ a).
  { intros ->. apply Hc. apply elem_of_dom. eauto. }
  assert (Hin : a ∈ addrs t).
  { apply (elem_of_list_to_set (C := gset addr)). rewrite <- Hdom.
    apply elem_of_dom. eauto. }
  destruct (subtree_at t a Hin) as (cx & l & k0 & r & ->).
  apply holds_tree_focus in Ht.
  pose proof Ht as (Hnd & Hcx & (Ha' & Hl & Hr) & Hroot).
  rewrite Ha in Ha'. injection Ha' as <- Hl0 -> ->.
  destruct l as [|? ? ? ?]; [|done]. clear Hl0 Hl.
  assert (Hfresh : ∀ z, z ∈ addrs (N a E ka r) ++ ctx_addrs cx → z ≠ c).
  { intros z Hz ->. apply Hc. rewrite Hdom. apply elem_of_list_to_set.
    by rewrite addrs_plug. }
  unfold bind at 1, make_shared. fold c.
  run set_left_eq. run get_left_eq. erewrite set_parent_eq; [|lk].
  eexists. exists (plug cx (N a (N c E k E) ka r)).
  split; [reflexivity|].
  cbn [nodes with_nodes with_root m_root m_key m_left m_right m_parent].
  split; [by erewrite get_left_eq by lk|].
  split; [lk|]. split; [lk|]. split.
  { intros z Hz1 Hz2. by rewrite !lookup_insert_ne by congruence. }
  split; [done|]. split.
  - apply holds_tree_focus.
    cbn [addrs app] in Hnd, Hfresh.
    assert (Hanot : a ∉ addrs r ++ ctx_addrs cx).
    { by apply NoDup_cons in Hnd as (? & _). }
    eapply focus_graft; [exact Ht|..];
      cbn [nodes with_nodes with_root m_root root_of].
    + cbn [addrs app]. apply NoDup_cons. split; [|done].
      intros Hin'. by apply (Hfresh c).
    + intros z Hz Hpar. rewrite !lookup_insert_ne; [done|..].
      * intros <-. apply (Hfresh c); [list_mem|done].
      * intros <-. apply Hanot. list_mem.
      * intros <-. apply (Hfresh c); [list_mem|done].
    + apply repr_ctx_head in Hcx.
      destruct cx as [|[p kp s|p s kp] cx]; [done|..];
        cbn [head_frame_ok root_of ctx_addrs frame_addr frame_sibling] in *;
        (rewrite !lookup_insert_ne; [done|..]);
        first [ intros <-; apply (Hfresh c); [list_mem|done]
              | intros <-; apply Hanot; list_mem ].
    + repeat split; [lk|lk|].
      repeat apply repr_insert_notin; try done.
      * intros Hin'. apply (Hfresh c); [list_mem|done].
      * intros Hin'. apply Hanot. list_mem.
      * intros Hin'. apply (Hfresh c); [list_mem|done].
    + by destruct cx.
  - cbn [nodes with_nodes with_root].
    rewrite !dom_insert_L, Hdom. apply set_eq. intros z.
    rewrite !elem_of_union, !elem_of_singleton, !elem_of_list_to_set,
      !addrs_plug. cbn [addrs app].
    repeat first [rewrite elem_of_app | rewrite elem_of_cons
                 | rewrite elem_of_nil].
    tauto.
Qed.

(** A new node [c] becomes the right child of [a], whose right link is
    null. *)
Lemma bfs_attach_right st t a ka la pa k :
  holds_exactly st t →
  nodes st !! a = Some (mkNode ka la None pa) →
  ∃ st' t',
    (c <- make_shared k ;;
     set_right (Some a) c ;;;
     r <- get_right (Some a) ;;
     set_parent r (Some a)) st = Ok tt st'
    ∧ get_right (Some a) st' = Ok (Some (fresh (dom (nodes st)))) st'
    ∧ nodes st' !! fresh (dom (nodes st))
      = Some (mkNode k None None (Some a))
    ∧ nodes st' !! a = Some (mkNode ka la (Some (fresh (dom (nodes st)))) pa)
    ∧ (∀ z, z ≠ a → z ≠ fresh (dom (nodes st)) →
            nodes st' !! z = nodes st !! z)
    ∧ m_root st' = m_root st
    ∧ holds_exactly st' t'.
Proof.
  intros Hex Ha. pose proof Hex as (Ht & Hdom).
  set (c := fresh (dom (nodes st))).
  assert (Hc : c ∉ dom (nodes st)) by apply is_fresh.
  assert (Hca : c ≠ a).
  { intros ->. apply Hc. apply elem_of_dom. eauto. }
  assert (Hin : a ∈ addrs t).
  { apply (elem_of_list_to_set (C := gset addr)). rewrite <- Hdom.
    apply elem_of_dom. eauto. }
  destruct (subtree_at t a Hin) as (cx & l & k0 & r & ->).
  apply holds_tree_focus in Ht.
  pose proof Ht as (Hnd & Hcx & (Ha' & Hl & Hr) & Hroot).
  rewrite Ha in Ha'. injection Ha' as <- -> Hr0 ->.
  destruct r as [|? ? ? ?]; [|done]. clear Hr0 Hr.
  assert (Hfresh : ∀ z, z ∈ addrs (N a l ka E) ++ ctx_addrs cx → z ≠ c).
  { intros z Hz ->. apply Hc. rewrite Hdom. apply elem_of_list_to_set.
    by rewrite addrs_plug. }
  unfold bind at 1, make_shared. fold c.
  run set_right_eq. run get_right_eq. erewrite set_parent_eq; [|lk].
  eexists. exists (plug cx (N a l ka (N c E k E))).
  split; [reflexivity|].
  cbn [nodes with_nodes with_root m_root m_key m_left m_right m_parent].
  split; [by erewrite get_right_eq by lk|].
  split; [lk|]. split; [lk|]. split.
  { intros z Hz1 Hz2. by rewrite !lookup_insert_ne by congruence. }
  split; [done|]. split.
  - apply holds_tree_focus.
    cbn [addrs app] in Hnd, Hfresh.
    assert (Hanot : (a ∉ addrs l) ∧ (a ∉ ctx_addrs cx)).
    { rewrite <- app_assoc in Hnd. cbn [app] in Hnd.
      apply NoDup_app in Hnd as (_ & Hd & Hnd).
      apply NoDup_cons in Hnd as (Ha2 & _). split; [|done].
      intros Hin'. apply (Hd a Hin'). by left. }
    destruct Hanot as [Hal Hacx].
    eapply focus_graft; [exact Ht|..];
      cbn [nodes with_nodes with_root m_root root_of].
    + cbn [addrs app].
      assert (Hperm : (addrs l ++ a :: [c]) ++ ctx_addrs cx
                      ≡ₚ c :: (addrs l ++ [a]) ++ ctx_addrs cx).
      { rewrite <- !app_assoc. cbn [app]. symmetry.
        etrans; [apply Permutation_middle|].
        apply Permutation_app_head, perm_swap. }
      rewrite Hperm. apply NoDup_cons. split; [|done].
      intros Hin'. by apply (Hfresh c).
    + intros z Hz Hpar. rewrite !lookup_insert_ne; [done|..].
      * intros <-. apply (Hfresh c); [list_mem|done].
      * by intros <-.
      * intros <-. apply (Hfresh c); [list_mem|done].
    + apply repr_ctx_head in Hcx.
      destruct cx as [|[p kp s|p s kp] cx]; [done|..];
        cbn [head_frame_ok root_of ctx_addrs frame_addr frame_sibling] in *;
        (rewrite !lookup_insert_ne; [done|..]);
        first [ intros <-; apply (Hfresh c); [list_mem|done]
              | intros <-; apply Hacx; list_mem ].
    + repeat split; [lk| |lk].
      repeat apply repr_insert_notin; try done.
      * intros Hin'. apply (Hfresh c); [list_mem|done].
      * intros Hin'. apply (Hfresh c); [list_mem|done].
    + by destruct cx.
  - cbn [nodes with_nodes with_root].
    rewrite !dom_insert_L, Hdom. apply set_eq. intros z.
    rewrite !elem_of_union, !elem_of_singleton, !elem_of_list_to_set,
      !addrs_plug. cbn [addrs app].
    repeat first [rewrite elem_of_app | rewrite elem_of_cons
                 | rewrite elem_of_nil].
    tauto.
Qed.

(** [lia] after the pointer type is written out, so that the lengths of
    pointer lists are the same terms everywhere. *)
Ltac plia := unfold ptr in *; lia.

(** Entries of the pointer list. *)
Lemma entry_at_lt (al : list ptr) m p : al !! m = Some p → entry_at al m = p.
Proof. unfold entry_at. by intros ->. Qed.

Lemma entry_at_ge (al : list ptr) m : (length al ≤ m)%nat → entry_at al m = None.
Proof. intros H. unfold entry_at. by rewrite lookup_ge_None_2. Qed.

Lemma entry_at_snoc (al : list ptr) p m :
  entry_at (al ++ [p]) m
  = if decide (m = length al) then p else entry_at al m.
Proof.
  unfold entry_at, ptr in *. destruct (decide (m = length al)) as [->|Hne].
  - by rewrite lookup_app_r, Nat.sub_diag by (by plia).
  - destruct (decide (m < length al)%nat).
    + by rewrite lookup_app_l by plia.
    + rewrite !lookup_ge_None_2; [done|plia|]. rewrite length_app. cbn. plia.
Qed.

Lemma entry_at_snoc_None (al : list ptr) m : entry_at (al ++ [None]) m = entry_at al m.
Proof.
  rewrite entry_at_snoc. destruct (decide (m = length al)) as [->|]; [|done].
  by rewrite entry_at_ge.
Qed.

Lemma half_pred_odd j : ((2 * j + 1 - 1) / 2 = j)%nat.
Proof. symmetry. apply (Nat.div_unique _ 2 j 0); plia. Qed.

Lemma half_pred_even j : ((2 * j + 2 - 1) / 2 = j)%nat.
Proof. symmetry. apply (Nat.div_unique _ 2 j 1); plia. Qed.

Lemma half_pred_le j : ((j - 1) / 2 ≤ j - 1)%nat.
Proof. apply Nat.Div0.div_le_upper_bound. plia. Qed.

Lemma odd_2j1 j : Nat.odd (2 * j + 1) = true.
Proof. apply Nat.odd_spec. by exists j. Qed.

Lemma odd_2j2 j : Nat.odd (2 * j + 2) = false.
Proof.
  rewrite <- Nat.negb_even. apply negb_false_iff, Nat.even_spec.
  exists (j + 1)%nat. plia.
Qed.

Lemma parent_slot_snoc (al : list ptr) p j :
  (j ≤ length al)%nat → parent_slot (al ++ [p]) j = parent_slot al j.
Proof.
  intros Hj. unfold ptr in *. destruct j as [|j]; [done|]. cbn [parent_slot].
  rewrite entry_at_snoc. pose proof (half_pred_le (S j)).
  destruct (decide _); [plia|done].
Qed.

Lemma layout_entry h (al : list ptr) vec j a :
  layout h al vec → al !! j = Some (Some a) →
  ∃ k, vec !! j = Some (Some k)
       ∧ h !! a = Some (mkNode k (entry_at al (2 * j + 1))
                          (entry_at al (2 * j + 2)) (parent_slot al j)).
Proof.
  intros (Hlen & Hnone & Hsome) Ha. unfold ptr in *.
  assert (Hj : (j < length vec)%nat).
  { rewrite <- Hlen. eapply lookup_lt_Some. eauto. }
  apply lookup_lt_is_Some in Hj as [[k|] Hk].
  - destruct (Hsome j k Hk) as (a' & Ha' & Hrec). exists k. split; [done|].
    congruence.
  - apply Hnone in Hk. congruence.
Qed.

Lemma layout_absent h (al : list ptr) vec j :
  layout h al vec → al !! j = Some None → vec !! j = Some None.
Proof.
  intros (Hlen & Hnone & Hsome) Ha. unfold ptr in *.
  assert (Hj : (j < length vec)%nat).
  { rewrite <- Hlen. eapply lookup_lt_Some. eauto. }
  apply lookup_lt_is_Some in Hj as [[k|] Hk]; [|done].
  destruct (Hsome j k Hk) as (a' & Ha' & _). congruence.
Qed.

Lemma layout_snoc_None h (al : list ptr) pre :
  layout h al pre → layout h (al ++ [None]) (pre ++ [None]).
Proof.
  intros (Hlen & Hnone & Hsome). unfold ptr in *. split; [|split].
  - rewrite !length_app. cbn. plia.
  - intros j Hj. apply lookup_snoc_Some in Hj as [[Hlt Hj]|[-> _] ].
    + rewrite lookup_app_l by plia. by apply Hnone.
    + by rewrite <- Hlen, lookup_app_r, Nat.sub_diag by plia.
  - intros j k Hj. apply lookup_snoc_Some in Hj as [[Hlt Hj]|[_ ?] ]; [|done].
    destruct (Hsome j k Hj) as (a & Ha & Hrec). exists a.
    rewrite lookup_app_l by plia. split; [done|].
    by rewrite !entry_at_snoc_None, parent_slot_snoc by plia.
Qed.

Lemma layout_snoc_Some h h' (al : list ptr) pre jp a c k :
  layout h al pre → distinct_entries al →
  (length al = 2 * jp + 1 ∨ length al = 2 * jp + 2)%nat →
  al !! jp = Some (Some a) →
  (∀ j, al !! j ≠ Some (Some c)) →
  h' !! c = Some (mkNode k None None (Some a)) →
  (∀ ka, pre !! jp = Some (Some ka) →
     h' !! a = Some (mkNode ka (entry_at (al ++ [Some c]) (2 * jp + 1))
                       (entry_at (al ++ [Some c]) (2 * jp + 2))
                       (parent_slot al jp))) →
  (∀ z, z ≠ a → z ≠ c → h' !! z = h !! z) →
  layout h' (al ++ [Some c]) (pre ++ [Some k]).
Proof.
  intros (Hlen & Hnone & Hsome) Hdis Hi Hjp Hc Hrc Hra Hsame.
  unfold ptr in *.
  assert (Hjpl : (jp < length al)%nat) by (eapply lookup_lt_Some; eauto).
  split; [|split].
  - rewrite !length_app. cbn. plia.
  - intros j Hj. apply lookup_snoc_Some in Hj as [[Hlt Hj]|[_ ?] ]; [|done].
    rewrite lookup_app_l by plia. by apply Hnone.
  - intros j kj Hj. apply lookup_snoc_Some in Hj as [[Hlt Hj]|[-> [= ->] ] ].
    + destruct (Hsome j kj Hj) as (aj & Haj & Hrec). exists aj.
      rewrite lookup_app_l by plia. split; [done|].
      rewrite parent_slot_snoc by plia.
      destruct (decide (j = jp)) as [->|Hne].
      * assert (aj = a) as -> by congruence. by apply Hra.
      * rewrite Hsame.
        -- rewrite Hrec, !entry_at_snoc.
           repeat case_decide; first [plia|done].
        -- intros ->. apply Hne. by eapply Hdis.
        -- intros ->. by eapply Hc.
    + exists c. rewrite <- Hlen, lookup_app_r, Nat.sub_diag by plia.
      split; [done|]. rewrite Hrc. f_equal.
      assert (Hpar : parent_slot (al ++ [Some c]) (length al) = Some a).
      { assert (Hhalf : ((length al - 1) / 2 = jp)%nat).
        { destruct Hi as [->| ->]; [apply half_pred_odd|apply half_pred_even]. }
        destruct (length al) as [|i'] eqn:Hi'; [plia|]. cbn [parent_slot].
        rewrite Hhalf, entry_at_snoc. case_decide; [plia|].
        by apply entry_at_lt. }
      rewrite Hpar, !entry_at_snoc.
      repeat case_decide; try plia. by rewrite !entry_at_ge by plia.
Qed.

Lemma distinct_snoc_None (al : list ptr) :
  distinct_entries al → distinct_entries (al ++ [None]).
Proof.
  intros Hd j1 j2 a H1 H2.
  apply lookup_snoc_Some in H1 as [[_ H1]|[_ ?] ]; [|done].
  apply lookup_snoc_Some in H2 as [[_ H2]|[_ ?] ]; [|done].
  by eapply Hd.
Qed.

Lemma distinct_snoc_Some (al : list ptr) c :
  distinct_entries al → (∀ j, al !! j ≠ Some (Some c)) →
  distinct_entries (al ++ [Some c]).
Proof.
  intros Hd Hc j1 j2 a H1 H2.
  apply lookup_snoc_Some in H1 as [[_ H1]|[E1 Heq1] ];
    apply lookup_snoc_Some in H2 as [[_ H2]|[E2 Heq2] ]; simplify_eq.
  - by eapply Hd.
  - by apply Hc in H1.
  - by apply Hc in H2.
  - done.
Qed.

Lemma bfs_loop_spec k0 rest : ∀ pre (al : list ptr) st t i j (even : bool)
    node queue,
  layout (nodes st) al pre → distinct_entries al → holds_exactly st t →
  pre !! 0%nat = Some (Some k0) →
  i = length pre →
  (if even
   then i = (2 * j + 2)%nat ∧ node = entry_at al j
        ∧ (∀ m, (m ≤ j)%nat → al !! m ≠ Some None)
   else i = (2 * j + 1)%nat ∧ (∀ m, (m < j)%nat → al !! m ≠ Some None)) →
  queue = drop (if even then j + 1 else j)%nat al →
  (bfs_layout_ok (pre ++ rest) →
   ∃ st' al' t',
     bfs_loop i rest queue node st = Ok tt st'
     ∧ layout (nodes st') al' (pre ++ rest)
     ∧ holds_exactly st' t'
     ∧ m_root st' = m_root st
     ∧ al' !! 0%nat = al !! 0%nat)
  ∧ (¬ bfs_layout_ok (pre ++ rest) →
     bfs_loop i rest queue node st = Fault NullDeref).
Proof.
  induction rest as [|e rest IH];
    intros pre al st t i j even node queue Hlay Hdis Hex Hk0 Hi Hmode Hq.
  - rewrite app_nil_r. cbn [bfs_loop]. split.
    + intros _. exists st, al, t.
      split; [done|]. split; [done|]. split; [done|]. by split.
    + intros Hnot. exfalso. apply Hnot. intros m Hm1 Hvm.
      destruct (decide (length pre ≤ 2 * m + 1)%nat) as [|Hgt]; [done|].
      exfalso. assert (Hm : al !! m = Some None) by by apply Hlay.
      destruct even.
      * destruct Hmode as (Hi2 & _ & Hpast). apply (Hpast m); [plia|done].
      * destruct Hmode as (Hi1 & Hpast). apply (Hpast m); [plia|done].
  - replace (pre ++ e :: rest) with ((pre ++ [e]) ++ rest)
      by (by rewrite <- app_assoc).
    pose proof Hlay as (Hlen & _ & _).
    assert (Hk0' : (pre ++ [e]) !! 0%nat = Some (Some k0)).
    { rewrite lookup_app_l; [done|]. eapply lookup_lt_Some. eauto. }
    assert (Hpos : (0 < length al)%nat).
    { rewrite Hlen. eapply lookup_lt_Some. eauto. }
    assert (Hlen' : S i = length (pre ++ [e])).
    { rewrite length_app. cbn. plia. }
    destruct even.
    + (* an even index: the right child of entry [j] *)
      destruct Hmode as (Hi2 & Hnode & Hpast).
      assert (Hodd : Nat.odd i = false) by (rewrite Hi2; apply odd_2j2).
      assert (Hjlt : (j < length al)%nat) by plia.
      destruct (lookup_lt_is_Some_2 al j Hjlt) as [pj Hpj].
      destruct pj as [a|]; [|by destruct (Hpast j (le_n _))].
      rewrite (entry_at_lt _ _ _ Hpj) in Hnode. subst node queue.
      destruct (layout_entry _ _ _ _ _ Hlay Hpj) as (ka & Hka & Hrec).
      rewrite (entry_at_ge al (2 * j + 2)) in Hrec by plia.
      cbn [bfs_loop]. rewrite Hodd.
      destruct e as [k|].
      * destruct (bfs_attach_right st t a ka _ _ k Hex Hrec)
          as (st' & t' & Hrun & Hget & Hc' & Ha' & Hsame & Hroot' & Hex').
        erewrite bind_Ok by exact Hrun. erewrite bind_Ok by exact Hget.
        set (c := fresh (dom (nodes st))) in *.
        assert (Hcnew : ∀ m, al !! m ≠ Some (Some c)).
        { intros m Hm.
          destruct (layout_entry _ _ _ _ _ Hlay Hm) as (? & _ & Hr).
          apply (is_fresh (dom (nodes st))). apply elem_of_dom. eauto. }
        destruct (IH (pre ++ [Some k]) (al ++ [Some c]) st' t' (S i)
                    (j + 1)%nat false (Some a)
                    (drop (j + 1) al ++ [Some c])) as [IHok IHbad];
          [|by apply distinct_snoc_Some|done|done|done| | |].
        { eapply (layout_snoc_Some (nodes st) (nodes st') al pre j a c k);
            try done; [right; plia|].
          intros ka' Hka'. assert (ka' = ka) as -> by (unfold ptr in *; congruence).
          rewrite Ha'. f_equal. rewrite !entry_at_snoc.
          repeat case_decide; first [plia|done]. }
        { split; [plia|]. intros m Hm. rewrite lookup_app_l by plia.
          apply Hpast. plia. }
        { by rewrite drop_app_le by plia. }
        split; [|done]. intros Hok.
        destruct (IHok Hok) as (st2 & al2 & t2 & Hrun2 & Hlay2 & Hex2 & Hroot2 & H0).
        exists st2, al2, t2. split; [done|]. split; [done|]. split; [done|].
        split; [by rewrite Hroot2|]. by rewrite H0, lookup_app_l by plia.
      * run set_right_eq. rewrite insert_id by exact Hrec.
        rewrite with_nodes_same. run get_right_eq.
        destruct (IH (pre ++ [None]) (al ++ [None]) st t (S i)
                    (j + 1)%nat false (Some a)
                    (drop (j + 1) al ++ [None])) as [IHok IHbad];
          [by apply layout_snoc_None|by apply distinct_snoc_None|done|done
          |done| | |].
        { split; [plia|]. intros m Hm. rewrite lookup_app_l by plia.
          apply Hpast. plia. }
        { by rewrite drop_app_le by plia. }
        split; [|done]. intros Hok.
        destruct (IHok Hok) as (st2 & al2 & t2 & Hrun2 & Hlay2 & Hex2 & Hroot2 & H0).
        exists st2, al2, t2. split; [done|]. split; [done|]. split; [done|].
        split; [done|]. by rewrite H0, lookup_app_l by plia.
    + (* an odd index: the left child of entry [j], the front of the queue *)
      destruct Hmode as (Hi1 & Hpast).
      assert (Hodd : Nat.odd i = true) by (rewrite Hi1; apply odd_2j1).
      assert (Hjlt : (j < length al)%nat) by plia.
      destruct (lookup_lt_is_Some_2 al j Hjlt) as [pj Hpj].
      subst queue. rewrite (drop_S _ _ _ Hpj).
      cbn [bfs_loop]. rewrite Hodd.
      destruct pj as [a|].
      * destruct (layout_entry _ _ _ _ _ Hlay Hpj) as (ka & Hka & Hrec).
        rewrite (entry_at_ge al (2 * j + 1)) in Hrec by plia.
        assert (Hpast' : ∀ p m, (m ≤ j)%nat → (al ++ [p]) !! m ≠ Some None).
        { intros p m Hm. rewrite lookup_app_l by plia.
          destruct (decide (m = j)) as [->|]; [unfold ptr in *; congruence|].
          apply Hpast. plia. }
        destruct e as [k|].
        -- destruct (bfs_attach_left st t a ka _ _ k Hex Hrec)
             as (st' & t' & Hrun & Hget & Hc' & Ha' & Hsame & Hroot' & Hex').
           erewrite bind_Ok by exact Hrun. erewrite bind_Ok by exact Hget.
           set (c := fresh (dom (nodes st))) in *.
           assert (Hcnew : ∀ m, al !! m ≠ Some (Some c)).
           { intros m Hm.
             destruct (layout_entry _ _ _ _ _ Hlay Hm) as (? & _ & Hr).
             apply (is_fresh (dom (nodes st))). apply elem_of_dom. eauto. }
           destruct (IH (pre ++ [Some k]) (al ++ [Some c]) st' t' (S i)
                       j true (Some a)
                       (drop (S j) al ++ [Some c])) as [IHok IHbad];
             [|by apply distinct_snoc_Some|done|done|done| | |].
           { eapply (layout_snoc_Some (nodes st) (nodes st') al pre j a c k);
               try done; [left; plia|].
             intros ka' Hka'. assert (ka' = ka) as -> by (unfold ptr in *; congruence).
             rewrite Ha'. f_equal. rewrite !entry_at_snoc.
             repeat case_decide; try plia.
             by rewrite (entry_at_ge al (2 * j + 2)) in * by plia. }
           { split; [plia|]. split; [|by apply Hpast'].
             symmetry. apply entry_at_lt. by rewrite lookup_app_l by plia. }
           { rewrite drop_app_le by plia. by rewrite Nat.add_1_r. }
           split; [|done]. intros Hok.
           destruct (IHok Hok)
             as (st2 & al2 & t2 & Hrun2 & Hlay2 & Hex2 & Hroot2 & H0).
           exists st2, al2, t2. split; [done|]. split; [done|]. split; [done|].
           split; [by rewrite Hroot2|]. by rewrite H0, lookup_app_l by plia.
        -- run set_left_eq. rewrite insert_id by exact Hrec.
           rewrite with_nodes_same. run get_left_eq.
           destruct (IH (pre ++ [None]) (al ++ [None]) st t (S i)
                       j true (Some a)
                       (drop (S j) al ++ [None])) as [IHok IHbad];
             [by apply layout_snoc_None|by apply distinct_snoc_None|done|done
             |done| | |].
           { split; [plia|]. split; [|by apply Hpast'].
             symmetry. apply entry_at_lt. by rewrite lookup_app_l by plia. }
           { rewrite drop_app_le by plia. by rewrite Nat.add_1_r. }
           split; [|done]. intros Hok.
           destruct (IHok Hok)
             as (st2 & al2 & t2 & Hrun2 & Hlay2 & Hex2 & Hroot2 & H0).
           exists st2, al2, t2. split; [done|]. split; [done|]. split; [done|].
           split; [done|]. by rewrite H0, lookup_app_l by plia.
      * (* the entry is absent: its child link is read through null *)
        split; [|done]. intros Hok. exfalso.
        assert (Hj1 : (1 ≤ j)%nat).
        { destruct j; [|lia]. destruct (Hlay) as (_ & _ & Hsome).
          destruct (Hsome _ _ Hk0) as (? & ? & _). unfold ptr in *. congruence. }
        pose proof (layout_absent _ _ _ _ Hlay Hpj) as Hvj.
        specialize (Hok j Hj1). rewrite !length_app in Hok. cbn in Hok.
        rewrite <- app_assoc, lookup_app_l in Hok by plia.
        specialize (Hok Hvj). plia.
Qed.

(** *** The breadth-first traversal of a layout *)

Lemma take_S_option {A} (l : list A) m :
  take (S m) l = take m l ++ option_list (l !! m).
Proof.
  destruct (l !! m) as [x|] eqn:H; cbn [option_list].
  - by apply take_S_r.
  - apply lookup_ge_None in H. rewrite !take_ge by lia. by rewrite app_nil_r.
Qed.

Lemma nonnull_app l1 l2 : nonnull (l1 ++ l2) = nonnull l1 ++ nonnull l2.
Proof. apply filter_app. Qed.

Lemma nonnull_entry (al : list ptr) m :
  nonnull (option_list (al !! m))
  = match entry_at al m with Some c => [Some c] | None => [] end.
Proof. unfold entry_at. by destruct (al !! m) as [ [c|]|]. Qed.

Lemma omap_id_Some {A} (x : A) l : omap id (Some x :: l) = x :: omap id l.
Proof. done. Qed.

Lemma omap_id_None {A} (l : list (option A)) : omap id (None :: l) = omap id l.
Proof. done. Qed.

Lemma visits_cons {V} (cb : Callback V) k ks v st :
  visits cb (k :: ks) v st = (v' <- cb k v ;; visits cb ks v') st.
Proof. done. Qed.

Lemma bfs_traversal_on_layout {V} (cb : Callback V) (Hcb : keeps_nodes cb)
    (al : list ptr) vec k0 :
  bfs_layout_ok vec → vec !! 0%nat = Some (Some k0) →
  ∀ d j fuel v st,
    layout (nodes st) al vec → d = (length vec - j)%nat → (d ≤ fuel)%nat →
    bfs_traversal_loop fuel (nonnull (drop j (take (2 * j + 1) al))) cb v st
    = visits cb (omap id (drop j vec)) v st.
Proof.
  intros Hok Hk0. induction d as [|d IH]; intros j fuel v st Hlay Hd Hfuel;
    pose proof Hlay as (Hlen & Hnone & Hsome).
  - rewrite (drop_ge vec) by lia.
    rewrite (drop_ge (take _ al)) by (rewrite length_take; plia).
    by destruct fuel.
  - assert (Hj : (j < length vec)%nat) by lia.
    destruct (lookup_lt_is_Some_2 vec j Hj) as [ej Hej].
    rewrite (drop_S vec _ _ Hej).
    assert (Hnext : take (2 * S j + 1) al
                    = take (2 * j + 1) al ++ option_list (al !! (2 * j + 1)%nat)
                      ++ option_list (al !! (2 * j + 2)%nat)).
    { replace (2 * S j + 1)%nat with (S (S (2 * j + 1))) by lia.
      rewrite !take_S_option, <- app_assoc.
      by replace (S (2 * j + 1)) with (2 * j + 2)%nat by lia. }
    destruct ej as [k|].
    + destruct (Hsome j k Hej) as (a & Ha & Hrec).
      rewrite (drop_S (take (2 * j + 1) al) (Some a) j)
        by (rewrite lookup_take_lt by lia; exact Ha).
      unfold nonnull at 1. rewrite filter_cons_True by (cbn; eauto).
      fold (nonnull (drop (S j) (take (2 * j + 1) al))).
      destruct fuel as [|fuel]; [lia|].
      rewrite omap_id_Some, visits_cons. cbn [bfs_traversal_loop].
      rewrite (bind_Ok _ _ _ _ _ (get_key_eq _ _ _ Hrec)). cbn [m_key].
      apply (after_cb cb Hcb). intros v1 st1 H1. rewrite <- H1 in Hrec, Hlay.
      rewrite (bind_Ok _ _ _ _ _ (get_left_eq _ _ _ Hrec)). cbn [m_left].
      rewrite (bind_Ok _ _ _ _ _ (get_right_eq _ _ _ Hrec)). cbn [m_right].
      rewrite <- (IH (S j) fuel v1 st1 Hlay) by lia.
      f_equal. rewrite Hnext, drop_app_le by (rewrite length_take; plia).
      rewrite !nonnull_app, !nonnull_entry.
      by destruct (entry_at al (2 * j + 1)), (entry_at al (2 * j + 2));
        rewrite ?app_nil_r, <- ?app_assoc.
    + pose proof (Hnone j Hej) as Ha.
      rewrite (drop_S (take (2 * j + 1) al) None j)
        by (rewrite lookup_take_lt by lia; exact Ha).
      unfold nonnull at 1. rewrite filter_cons_False by (cbn; by intros [? ?]).
      fold (nonnull (drop (S j) (take (2 * j + 1) al))).
      rewrite omap_id_None.
      assert (Hj1 : (1 ≤ j)%nat).
      { destruct j; [|lia]. unfold ptr in *. congruence. }
      pose proof (Hok j Hj1 Hej) as Hfull.
      rewrite <- (IH (S j) fuel v st Hlay) by lia.
      f_equal. by rewrite !take_ge by plia.
Qed.



(** ** Height, levels, and insertion in key order *)

Lemma length_zip_levels xs : ∀ ys,
  length (zip_levels xs ys) = (length xs `max` length ys)%nat.
Proof.
  induction xs as [|x xs IH]; intros ys; [done|].
  destruct ys as [|y ys]; [done|]. rewrite zip_levels_cons. cbn [length].
  rewrite IH. lia.
Qed.

Lemma length_levels t : length (levels t) = depth t.
Proof.
  induction t as [|a l IHl k r IHr]; [done|].
  cbn [levels length depth]. by rewrite length_zip_levels, IHl, IHr.
Qed.

Lemma zip_levels_lookup xs : ∀ ys d,
  zip_levels xs ys !! d
  = match xs !! d, ys !! d with
    | Some x, Some y => Some (x ++ y)
    | Some x, None => Some x
    | None, oy => oy
    end.
Proof.
  induction xs as [|x xs IH]; intros ys d.
  - cbn [zip_levels]. rewrite lookup_nil. done.
  - destruct ys as [|y ys].
    + cbn [zip_levels]. rewrite (lookup_nil d). by destruct (_ !! d).
    + rewrite zip_levels_cons. destruct d as [|d]; [done|].
      apply (IH ys d).
Qed.

Lemma levels_bounds t : ∀ d lv,
  levels t !! d = Some lv → lv ≠ [] ∧ (length lv ≤ 2 ^ d)%nat.
Proof.
  induction t as [|a l IHl k r IHr]; intros d lv Hlv; [done|].
  cbn [levels] in Hlv. destruct d as [|d].
  - injection Hlv as <-. split; [done|]. cbn. lia.
  - change (zip_levels (levels l) (levels r) !! d = Some lv) in Hlv.
    rewrite zip_levels_lookup in Hlv.
    rewrite Nat.pow_succ_r'.
    destruct (levels l !! d) as [x|] eqn:Hx;
      destruct (levels r !! d) as [y|] eqn:Hy; simplify_eq.
    + destruct (IHl _ _ Hx) as [? ?]. destruct (IHr _ _ Hy) as [? ?].
      split; [by destruct x|]. rewrite length_app. lia.
    + destruct (IHl _ _ Hx) as [? ?]. split; [done|lia].
    + destruct (IHr _ _ Hy) as [? ?]. split; [done|lia].
Qed.

(** X17.  On a well-formed tree of at most [INT_MAX] nodes, [height()] is
    the number of levels that the breadth-first traversal goes through, less
    one; no level is empty and level [d] has at most [2^d] keys. *)
Theorem height_counts_levels st t fuel :
  holds_tree st t → (tsize t ≤ fuel)%nat → Z.of_nat (tsize t) <= INT_MAX →
  tree_height fuel st = Ok (Z.of_nat (length (levels t)) - 1) st
  ∧ breadth_first_traversal fuel record_key [] st = Ok (concat (levels t)) st
  ∧ (∀ d lv, levels t !! d = Some lv → lv ≠ [] ∧ (length lv ≤ 2 ^ d)%nat).
Proof.
  intros Ht Hfuel Hmax. pose proof (depth_le_tsize t) as Hd.
  pose proof Ht as (Hnd & Hrep & Hroot).
  split; [|split; [|apply levels_bounds] ].
  - unfold tree_height, bind, get_root. rewrite Hroot.
    rewrite length_levels, <- theight_depth.
    eapply height_spec; [done|lia|]. pose proof (theight_lt_tsize t). lia.
  - unfold breadth_first_traversal, bind, get_root. rewrite Hroot.
    destruct t as [|a l k r]; [done|].
    change (bfs fuel (root_of (N a l k r)) record_key [] st)
      with (bfs_traversal_loop fuel (map root_of [N a l k r]) record_key [] st).
    rewrite (bfs_traversal_loop_spec record_key record_key_keeps_nodes).
    + cbn [forest_levels foldr]. rewrite zip_levels_nil_r.
      by rewrite visits_record_key.
    + constructor; [|constructor]. split; [done|]. by exists None.
    + simpl. lia.
Qed.

Lemma height_counts_levels_witness :
  tree_height 5 sample_bfs = Ok (Z.of_nat (length [[5]; [3; 8]; [4; 9]]) - 1)
                               sample_bfs
  ∧ breadth_first_traversal 5 record_key [] sample_bfs
    = Ok (concat [[5]; [3; 8]; [4; 9]]) sample_bfs
  ∧ (∀ d lv, [[5]; [3; 8]; [4; 9]] !! d = Some lv →
             lv ≠ [] ∧ (length lv ≤ 2 ^ d)%nat).
Proof.
  apply (height_counts_levels sample_bfs
           (N 1%positive (N 2%positive E 3 (N 4%positive E 4 E)) 5
              (N 3%positive E 8 (N 5%positive E 9 E))) 5).
  - holds_concrete.
  - vm_compute. lia.
  - vm_compute. discriminate.
Defined.

Lemma ins_right_chain a0 x t :
  right_chain t → Forall (fun k => k <= x) (inorder t) →
  right_chain (ins a0 x t)
  ∧ depth (ins a0 x t) = S (depth t)
  ∧ inorder (ins a0 x t) = inorder t ++ [x].
Proof.
  induction t as [|a l _ k r IH]; intros Hc Hle; [done|].
  destruct Hc as (-> & Hc). cbn [inorder app] in Hle.
  apply Forall_cons in Hle as (Hk & Hle).
  destruct (IH Hc Hle) as (Hc' & Hd' & Hi').
  cbn [ins]. replace (x <? k) with false by lia.
  cbn [right_chain depth inorder app]. rewrite Hd', Hi'.
  split; [done|]. split; [|done]. lia.
Qed.

Lemma right_chain_plug c : ∀ s, right_chain (plug c s) → right_chain s.
Proof.
  induction c as [|f c IH]; intros s Hc; [done|]. cbn [plug] in Hc.
  apply IH in Hc. destruct f as [p kp sib|p sib kp]; cbn [fill right_chain] in Hc.
  - by destruct Hc as (-> & _).
  - by destruct Hc as (_ & ?).
Qed.

Lemma run_insertions_in_order ops : ∀ st t fuel,
  holds_exactly st t → right_chain t →
  StronglySorted Z.le (inorder t ++ map bst_insertion_key ops) →
  (depth t + length ops ≤ fuel)%nat →
  ∃ st' t',
    run_insertions fuel ops st = Ok tt st'
    ∧ holds_exactly st' t' ∧ right_chain t'
    ∧ depth t' = (depth t + length ops)%nat
    ∧ inorder t' = inorder t ++ map bst_insertion_key ops.
Proof.
  induction ops as [|op ops IH]; intros st t fuel Ht Hc Hs Hfuel.
  - exists st, t. cbn [run_insertions map length]. rewrite app_nil_r.
    split; [done|]. split; [done|]. split; [done|]. split; [lia|done].
  - cbn [map length] in *.
    assert (Hle : Forall (fun k => k <= bst_insertion_key op) (inorder t)).
    { apply StronglySorted_app in Hs as (Hs & _ & _).
      apply Forall_forall. intros k Hk. apply Hs; [done|]. by left. }
    assert (∃ st1 a0, (match op with
                       | ByIterInsert x => iter_insert fuel x
                       | ByInsert x => insert fuel x
                       end) st = Ok tt st1
                      ∧ holds_exactly st1 (ins a0 (bst_insertion_key op) t))
      as (st1 & a0 & Hrun1 & Ht1).
    { destruct op as [x|x]; [apply iter_insert_spec|apply insert_spec];
        first [done|lia]. }
    destruct (ins_right_chain a0 (bst_insertion_key op) t Hc Hle)
      as (Hc1 & Hd1 & Hi1).
    destruct (IH st1 _ fuel Ht1 Hc1) as (st' & t' & Hrun & Ht' & Hc' & Hd' & Hi');
      [by rewrite Hi1, <- app_assoc|lia|].
    exists st', t'. split.
    { destruct op; cbn [run_insertions]; by rewrite (bind_Ok _ _ _ _ _ Hrun1). }
    split; [done|]. split; [done|]. split; [lia|].
    by rewrite Hi', Hi1, <- app_assoc.
Qed.

(** X18.  Insertions in non-decreasing key order, by [iter_insert] or
    [insert] alike, build a chain of right children: [height()] is the
    number of keys less one. *)
Theorem insertions_in_key_order_degenerate (ops : list bst_insertion)
    (fuel : nat) :
  Sorted Z.le (map bst_insertion_key ops) →
  (length ops ≤ fuel)%nat → Z.of_nat (length ops) <= INT_MAX →
  ∃ st,
    run_insertions fuel ops empty_tree = Ok tt st
    ∧ tree_height fuel st = Ok (Z.of_nat (length ops) - 1) st
    ∧ (∀ a n, nodes st !! a = Some n → m_left n = None).
Proof.
  intros Hs Hfuel Hmax. apply (Sorted_StronglySorted _) in Hs.
  destruct (run_insertions_in_order ops empty_tree E fuel holds_exactly_empty)
    as (st & t & Hrun & Ht & Hc & Hd & _); [done|done|cbn; lia|].
  cbn in Hd. exists st. split; [done|]. split.
  - pose proof Ht as ((Hnd & Hrep & Hroot) & _).
    unfold tree_height, bind, get_root. rewrite Hroot.
    replace (Z.of_nat (length ops) - 1) with (theight t)
      by (rewrite theight_depth; lia).
    eapply height_spec; [done|lia|]. rewrite theight_depth. lia.
  - intros a n Hn.
    destruct (node_subtree st t a n Ht Hn) as (c & l & k & r & -> & -> & _).
    cbn [m_left]. apply right_chain_plug in Hc. by destruct Hc as (-> & _).
Qed.

Lemma insertions_in_key_order_degenerate_witness :
  ∃ st,
    run_insertions 3 [ByIterInsert 10; ByInsert 20; ByIterInsert 30] empty_tree
    = Ok tt st
    ∧ tree_height 3 st
      = Ok (Z.of_nat (length [ByIterInsert 10; ByInsert 20; ByIterInsert 30])
            - 1) st
    ∧ (∀ a n, nodes st !! a = Some n → m_left n = None).
Proof.
  apply (insertions_in_key_order_degenerate
           [ByIterInsert 10; ByInsert 20; ByIterInsert 30] 3).
  - cbn [map bst_insertion_key]. repeat constructor; lia.
  - vm_compute. lia.
  - vm_compute. discriminate.
Defined.

(** ** [remove], then [search] and [size] *)

Lemma remove_spec_tree st t fuel x :
  holds_tree st t → (size (nodes st) ≤ fuel)%nat →
  StronglySorted Z.le (inorder t) → x ∈ inorder t →
  (2 ≤ length (inorder t))%nat →
  ∃ st' t' L R,
    remove fuel x st = Ok tt st'
    ∧ holds_tree st' t'
    ∧ inorder t = L ++ x :: R ∧ inorder t' = L ++ R
    ∧ dom (nodes st') = dom (nodes st).
Proof.
  intros Ht Hfuel Hs Hx Hlen.
  pose proof (tsize_le_store st t Ht) as Hsz.
  pose proof (depth_le_tsize t) as Hd. pose proof Ht as (Hnd & Hrep & Hroot).
  destruct (search_finds x t None fuel st Hrep) as (a & c & l & r & Hrun & ->);
    [lia|done|done|].
  apply holds_tree_focus in Ht.
  pose proof (depth_plug c (N a l x r)) as Hdp. cbn [depth] in Hdp.
  destruct (remove_node_spec st c a l x r fuel Ht)
    as (st' & t' & Hrem & Hf' & Hino & Hdom); [|lia|].
  { intros ->. cbn [plug inorder] in Hlen.
    destruct l; [|by left]. destruct r; [|by right]. cbn in Hlen. lia. }
  destruct (ctx_root_Some c a) as [b Hb].
  assert (Hroot' : m_root st = Some b) by by rewrite Hroot, root_of_plug.
  exists st', (plug c t'), (ctx_before c ++ inorder l),
    (inorder r ++ ctx_after c).
  split; [|split; [by apply holds_tree_focus|split; [|split; [|done] ] ] ].
  - unfold remove, bind at 1, get_root. rewrite Hroot'.
    rewrite <- Hroot', Hroot. by erewrite bind_Ok by exact Hrun.
  - rewrite inorder_plug_keys. cbn [inorder]. by rewrite <- !app_assoc.
  - rewrite inorder_plug_keys, Hino. by rewrite <- !app_assoc.
Qed.

(** X19.  After [remove(x)] on a well-formed tree with at least two keys, in
    non-decreasing in-order sequence, of which [x] is one: [search(y)]
    answers as before for every other key [y], [search(x)] is false when [x]
    occurred once, and [size()] is one less. *)
Theorem remove_then_search_and_size st fuel x ks :
  well_formed st → (size (nodes st) ≤ fuel)%nat →
  Z.of_nat (size (nodes st)) < SIZE_MOD →
  in_order_traversal fuel record_key [] st = Ok ks st →
  Sorted Z.le ks → x ∈ ks → (2 ≤ length ks)%nat →
  ∃ st',
    remove fuel x st = Ok tt st'
    ∧ (∀ y, y ≠ x → search_key fuel y st' = Ok (bool_decide (y ∈ ks)) st')
    ∧ (NoDup ks → search_key fuel x st' = Ok false st')
    ∧ tree_size fuel st' = Ok (Z.of_nat (length ks) - 1) st'.
Proof.
  intros [t Ht] Hfuel Hmax Hks Hs Hx Hlen.
  pose proof (tsize_le_store st t Ht) as Hsz.
  pose proof (depth_le_tsize t) as Hd.
  assert (ks = inorder t) as ->.
  { destruct Ht as (Hnd & Hrep & Hroot).
    unfold in_order_traversal, bind, get_root in Hks. rewrite Hroot in Hks.
    erewrite in_order_record in Hks; [|done|lia]. congruence. }
  apply (Sorted_StronglySorted _) in Hs.
  destruct (remove_spec_tree st t fuel x Ht Hfuel Hs Hx Hlen)
    as (st' & t' & L & R & Hrem & Ht' & Hin & Hin' & Hdom).
  pose proof (tsize_le_store st' t' Ht') as Hsz'.
  pose proof (depth_le_tsize t') as Hd'.
  assert (Hsize : size (nodes st') = size (nodes st))
    by by rewrite <- !size_dom, Hdom.
  assert (Hs' : StronglySorted Z.le (inorder t')).
  { rewrite Hin'. rewrite Hin in Hs. by eapply StronglySorted_without. }
  exists st'. split; [done|]. split; [|split].
  - intros y Hy. rewrite (search_key_spec st' t' fuel y Ht') by (done || lia).
    f_equal. apply bool_decide_ext. rewrite Hin, Hin'.
    rewrite !elem_of_app, elem_of_cons. tauto.
  - intros Hdis. rewrite (search_key_spec st' t' fuel x Ht') by (done || lia).
    f_equal. apply bool_decide_eq_false_2. rewrite Hin'.
    rewrite Hin in Hdis. apply NoDup_app in Hdis as (_ & Hd1 & Hd2).
    apply NoDup_cons in Hd2 as (Hd2 & _).
    intros Hmem. apply elem_of_app in Hmem as [Hmem|Hmem]; [|done].
    apply (Hd1 x Hmem). by left.
  - destruct Ht' as (Hnd' & Hrep' & Hroot').
    unfold tree_size, bind, get_root. rewrite Hroot'.
    replace (Z.of_nat (length (inorder t)) - 1) with (Z.of_nat (tsize t')).
    + eapply size_node_spec; [done|lia|lia].
    + rewrite <- !length_inorder, Hin, Hin', !length_app. cbn [length]. lia.
Qed.

Lemma remove_then_search_and_size_witness :
  ∃ st',
    remove 5 5 sample_bfs = Ok tt st'
    ∧ (∀ y, y ≠ 5 →
         search_key 5 y st' = Ok (bool_decide (y ∈ [3; 4; 5; 8; 9])) st')
    ∧ (NoDup [3; 4; 5; 8; 9] → search_key 5 5 st' = Ok false st')
    ∧ tree_size 5 st' = Ok (Z.of_nat (length [3; 4; 5; 8; 9]) - 1) st'.
Proof.
  apply (remove_then_search_and_size sample_bfs 5 5 [3; 4; 5; 8; 9]).
  - exact sample_bfs_well_formed.
  - vm_compute. lia.
  - vm_compute. reflexivity.
  - vm_compute. reflexivity.
  - repeat constructor; lia.
  - apply (bool_decide_unpack _). vm_compute. exact I.
  - cbn. lia.
Defined.

(** ** Leaves *)

(** X20.  After any sequence of insertions into an empty tree of at most
    [INT_MAX] keys, [is_leaf()] holds for exactly the nodes whose subtree
    has [height] zero. *)
Theorem leaves_have_height_zero (ops : list bst_insertion) (keys : list key)
    (fuel : nat) :
  (length ops ≤ fuel)%nat → (2 * length keys ≤ fuel)%nat →
  Z.of_nat (length keys) <= INT_MAX → Z.of_nat (length ops) <= INT_MAX →
  let leaves_ok (st : Tree) :=
    ∀ a n, nodes st !! a = Some n →
      ∃ h, height fuel (Some a) st = Ok h st
           ∧ is_leaf (Some a) st = Ok (bool_decide (h = 0)) st in
  (∃ st, run_insertions fuel ops empty_tree = Ok tt st ∧ leaves_ok st)
  ∧ (∃ rots st, AVLTree_from_vec fuel keys empty_tree = Ok rots st
                ∧ leaves_ok st).
Proof.
  intros Hf1 Hf2 Hmax1 Hmax2 leaves_ok.
  assert (Hgen : ∀ st t, holds_exactly st t → (tsize t ≤ fuel)%nat →
                         Z.of_nat (tsize t) <= INT_MAX → leaves_ok st).
  { intros st t Hex Hsz Hmax a n Hn.
    destruct (node_subtree st t a n Hex Hn)
      as (c & l & k & r & -> & -> & Hl & Hr).
    destruct Hex as (Ht & _). apply holds_tree_focus in Ht.
    destruct Ht as (_ & _ & Hrep & _).
    pose proof (depth_le_tsize (N a l k r)) as Hd.
    rewrite tsize_plug in Hsz, Hmax.
    pose proof (theight_lt_tsize (N a l k r)) as Hh.
    exists (theight (N a l k r)). split.
    - change (Some a) with (root_of (N a l k r)).
      eapply height_spec; [done|lia|lia].
    - unfold is_leaf. run get_left_eq. run get_right_eq. unfold ret. f_equal.
      pose proof (theight_ge l). pose proof (theight_ge r).
      destruct l as [|la ll kl lr], r as [|ra rl kr rr]; cbn [root_of].
      + done.
      + pose proof (theight_N_nonneg ra rl kr rr).
        rewrite (bool_decide_eq_false_2 (_ = 0)); [done|]. cbn [theight] in *. lia.
      + pose proof (theight_N_nonneg la ll kl lr).
        rewrite (bool_decide_eq_false_2 (_ = 0)); [done|]. cbn [theight] in *. lia.
      + pose proof (theight_N_nonneg la ll kl lr).
        rewrite (bool_decide_eq_false_2 (_ = 0)); [done|]. cbn [theight] in *. lia. }
  split.
  - destruct (run_insertions_spec ops empty_tree E fuel holds_exactly_empty)
      as (st & t & Hrun & Ht & _ & _ & Hsz); [done|cbn; lia|].
    cbn in Hsz. exists st. split; [done|]. apply (Hgen st t); [done|lia|lia].
  - destruct (AVLTree_from_vec_spec keys empty_tree E fuel holds_exactly_empty)
      as (rots & st & t & Hrun & Ht & _ & _ & _ & Hsz);
      [done|constructor|cbn; lia|cbn; lia|].
    cbn in Hsz. exists rots, st. split; [done|].
    apply (Hgen st t); [done|lia|lia].
Qed.

Lemma leaves_have_height_zero_witness :
  let leaves_ok (st : Tree) :=
    ∀ a n, nodes st !! a = Some n →
      ∃ h, height 6 (Some a) st = Ok h st
           ∧ is_leaf (Some a) st = Ok (bool_decide (h = 0)) st in
  (∃ st,
     run_insertions 6 [ByIterInsert 5; ByInsert 3; ByIterInsert 8] empty_tree
     = Ok tt st ∧ leaves_ok st)
  ∧ (∃ rots st,
       AVLTree_from_vec 6 [10; 20; 30] empty_tree = Ok rots st
       ∧ leaves_ok st).
Proof.
  apply (leaves_have_height_zero
           [ByIterInsert 5; ByInsert 3; ByIterInsert 8] [10; 20; 30] 6).
  - vm_compute. lia.
  - vm_compute. lia.
  - vm_compute. discriminate.
  - vm_compute. discriminate.
Defined.
